(** * Bubble field, match resolution, line of sight and targeting fallback

    A shallow embedding of the game core of the slingshot bubble game
    (components/GeminiSlingshot.tsx and services/geminiService.ts).

    Conventions of the embedding:
    - rows, columns, scores and cluster sizes are JavaScript numbers that only
      ever hold integers: they are [Z];
    - planar coordinates are JavaScript doubles: they are exact rationals [Q],
      so rounding is not modelled.  Where the source compares two values of
      [Math.sqrt], the model compares the radicands (the square root is
      monotone), and [Infinity] is the [None] of an [option];
    - the bubble array [bubbles.current] is a [list Bubble]; a reference to one
      of its objects is its index in that list, so that the mutation
      [b.active = false] through an alias reaches the stored object.  *)

From Stdlib Require Import String Ascii ZArith QArith Qround Bool List Lia Lqa.
From Stdlib Require Import Permutation DecimalString DecimalPos DecimalZ Sorted.
Import ListNotations.

Local Open Scope Z_scope.

(** ** Constants and the colour table *)

Definition BUBBLE_RADIUS : Z := 36.
Definition GRID_COLS : Z := 16.
Definition GRID_ROWS : Z := 6.

Inductive BubbleColor : Set :=
  red | blue | green | yellow | purple | orange.

Definition BubbleColor_eqb (a b : BubbleColor) : bool :=
  match a, b with
  | red, red | blue, blue | green, green
  | yellow, yellow | purple, purple | orange, orange => true
  | _, _ => false
  end.

Record ColorConfig := {
  hex : string;
  points : Z;
  label : string;
  textColor : string
}.

Definition COLOR_CONFIG (c : BubbleColor) : ColorConfig :=
  match c with
  | red    => {| hex := "#ef5350"; points := 100; label := "사과"; textColor := "#ffffff" |}
  | blue   => {| hex := "#42a5f5"; points := 150; label := "버스"; textColor := "#ffffff" |}
  | green  => {| hex := "#66bb6a"; points := 200; label := "기차"; textColor := "#ffffff" |}
  | yellow => {| hex := "#ffee58"; points := 250; label := "사자"; textColor := "#000000" |}
  | purple => {| hex := "#ab47bc"; points := 300; label := "포도"; textColor := "#ffffff" |}
  | orange => {| hex := "#ffa726"; points := 500; label := "오렌지"; textColor := "#ffffff" |}
  end.

Definition COLOR_KEYS : list BubbleColor :=
  [red; blue; green; yellow; purple; orange].

(** ** Bubbles *)

Record Bubble := {
  id : string;
  row : Z;
  col : Z;
  x : Q;
  y : Q;
  color : BubbleColor;
  active : bool
}.

(** [isNeighbor]: the offset-grid adjacency test.  [%] is JavaScript's
    truncating remainder, [Z.rem]. *)
Definition isNeighbor (a b : Bubble) : bool :=
  let dr := row b - row a in
  let dc := col b - col a in
  if 1 <? Z.abs dr then false
  else if dr =? 0 then Z.abs dc =? 1
  else if negb (Z.rem (row a) 2 =? 0) then (dc =? 0) || (dc =? 1)
  else (dc =? -1) || (dc =? 0).

(** ** The bubble field and match resolution *)

(** The part of the component's mutable state that match resolution reads and
    writes: the bubble array, [scoreRef.current] and the celebration word.
    The particle list filled by [createExplosion] is drawing state only and is
    left out. *)
Record GameState := {
  bubbles : list Bubble;
  score : Z;
  celebrationWord : option string
}.

(** [visited.has(id)] on the [Set<string>] of visited ids. *)
Definition has (visited : list string) (s : string) : bool :=
  existsb (String.eqb s) visited.

(** The objects of the array paired with their references. *)
Definition indexed (bs : list Bubble) : list (nat * Bubble) :=
  combine (seq 0 (length bs)) bs.

(** [bubbles.current.filter(b => b.active && !visited.has(b.id) && isNeighbor(current, b))] *)
Definition neighborsOf (bs : list Bubble) (visited : list string)
    (current : Bubble) : list nat :=
  map fst
    (filter (fun kb => active (snd kb) && negb (has visited (id (snd kb)))
                       && isNeighbor current (snd kb))
            (indexed bs)).

(** The [while (toCheck.length > 0)] loop of [checkMatches].  The stack
    [toCheck] is kept with its top first: [pop] takes the head and
    [push(...neighbors)] leaves the last neighbour on top.  [None] is a loop
    that ran out of [fuel] or met a reference outside the array. *)
Fixpoint matchLoop (fuel : nat) (bs : list Bubble) (targetColor : BubbleColor)
    (toCheck : list nat) (visited : list string) (matches : list nat)
    {struct fuel} : option (list nat) :=
  match toCheck with
  | [] => Some matches
  | cur :: rest =>
    match fuel with
    | O => None
    | S fuel' =>
      match nth_error bs cur with
      | None => None
      | Some current =>
        if has visited (id current) then
          matchLoop fuel' bs targetColor rest visited matches
        else
          let visited' := id current :: visited in
          if BubbleColor_eqb (color current) targetColor then
            matchLoop fuel' bs targetColor
              (rev (neighborsOf bs visited' current) ++ rest)
              visited' (matches ++ [cur])
          else
            matchLoop fuel' bs targetColor rest visited' matches
      end
    end
  end.

(** Iterations that always suffice for an array of [n] bubbles. *)
Definition matchFuel (n : nat) : nat := S (n * n).

(** Match-find: the first half of [checkMatches], from the start bubble to the
    finished [matches] array. *)
Definition findMatches (bs : list Bubble) (start : nat) : option (list nat) :=
  match nth_error bs start with
  | None => None
  | Some startBubble =>
    matchLoop (matchFuel (length bs)) bs (color startBubble) [start] [] []
  end.

Definition setInactive (b : Bubble) : Bubble :=
  {| id := id b; row := row b; col := col b; x := x b; y := y b;
     color := color b; active := false |}.

(** [b.active = false] through the reference [k]. *)
Fixpoint deactivateAt (k : nat) (bs : list Bubble) : list Bubble :=
  match bs, k with
  | [], _ => []
  | b :: bs', O => setInactive b :: bs'
  | b :: bs', S k' => b :: deactivateAt k' bs'
  end.

(** The body of [matches.forEach]: deactivate and add the base points. *)
Definition explode (basePoints : Z) (acc : list Bubble * Z) (k : nat)
    : list Bubble * Z :=
  (deactivateAt k (fst acc), snd acc + basePoints).

Definition comboMultiplier (n : nat) : Q :=
  if (3 <? n)%nat then 3 # 2 else 1.

(** [checkMatches(startBubble)], the start bubble given by reference. *)
Definition checkMatches (st : GameState) (start : nat)
    : option (GameState * bool) :=
  match nth_error (bubbles st) start with
  | None => None
  | Some startBubble =>
    let targetColor := color startBubble in
    match findMatches (bubbles st) start with
    | None => None
    | Some matches =>
      if (3 <=? length matches)%nat then
        let basePoints := points (COLOR_CONFIG targetColor) in
        let acc := fold_left (explode basePoints) matches (bubbles st, 0) in
        let multiplier := comboMultiplier (length matches) in
        Some ({| bubbles := fst acc;
                 score := score st + Qfloor (inject_Z (snd acc) * multiplier);
                 celebrationWord := Some (label (COLOR_CONFIG targetColor)) |},
              true)
      else Some (st, false)
    end
  end.

(** ** Connected components

    The vocabulary in which match-find is specified: bubble [k] touches
    bubble [j] when it is an active neighbour of it, and the component of a
    seed is what chains of touching bubbles of one colour reach from it. *)

Definition touches (bs : list Bubble) (j k : nat) : Prop :=
  exists bj bk,
    nth_error bs j = Some bj /\ nth_error bs k = Some bk /\
    active bk = true /\ isNeighbor bj bk = true.

Inductive Component (bs : list Bubble) (c : BubbleColor) (seed : nat)
  : nat -> Prop :=
| Component_seed : Component bs c seed seed
| Component_step j k bk :
    Component bs c seed j -> touches bs j k ->
    nth_error bs k = Some bk -> color bk = c ->
    Component bs c seed k.

(** Bubble identities are unique in the array. *)
Definition uniqueIds (bs : list Bubble) : Prop := NoDup (map id bs).

(** A duplicate-free listing of the component of [seed]: its length is the
    component's size. *)
Definition ComponentList (bs : list Bubble) (c : BubbleColor) (seed : nat)
    (comp : list nat) : Prop :=
  NoDup comp /\ forall k, In k comp <-> Component bs c seed k.

(** ** Grid geometry *)

Record Point := { px : Q; py : Q }.

(** [Math.pow(x1 - x2, 2) + Math.pow(y1 - y2, 2)] *)
Definition distSq (x1 y1 x2 y2 : Q) : Q :=
  ((x1 - x2) * (x1 - x2) + (y1 - y2) * (y1 - y2))%Q.

(** [a < b] on numbers. *)
Definition Qltb (a b : Q) : bool := negb (Qle_bool b a).

(** [for (let i = 0; i < n; i++)]: the values [i] takes. *)
Definition range (n : Z) : list Z := map Z.of_nat (seq 0 (Z.to_nat n)).

(** [r % 2 !== 0 ? GRID_COLS - 1 : GRID_COLS] *)
Definition colsInRow (r : Z) : Z :=
  if negb (Z.rem r 2 =? 0) then GRID_COLS - 1 else GRID_COLS.

(** [getBubblePos].  [ROW_HEIGHT] is [BUBBLE_RADIUS * Math.sqrt(3)] in the
    source, which no rational equals: it is a parameter of the model. *)
Definition getBubblePos (ROW_HEIGHT : Q) (row col : Z) (width : Q) : Point :=
  let xOffset :=
    ((width - inject_Z (GRID_COLS * BUBBLE_RADIUS * 2)) / 2
     + inject_Z BUBBLE_RADIUS)%Q in
  let isOdd := negb (Z.rem row 2 =? 0) in
  {| px := (xOffset + inject_Z col * inject_Z (BUBBLE_RADIUS * 2)
            + (if isOdd then inject_Z BUBBLE_RADIUS else 0))%Q;
     py := (inject_Z BUBBLE_RADIUS + inject_Z row * ROW_HEIGHT)%Q |}.

(** Decimal rendering of an integer in a template string. *)
Definition string_of_Z (z : Z) : string :=
  NilZero.string_of_int (Z.to_int z).

(** ** Grid initialisation

    [Math.random()] is a stream of draws from [0, 1) read through a cursor;
    the code that draws is written in the state monad of that cursor. *)

Definition Rand (A : Type) : Type := (nat -> Q) -> nat -> A * nat.

Definition ret {A} (a : A) : Rand A := fun _ n => (a, n).

Definition bind {A B} (m : Rand A) (k : A -> Rand B) : Rand B :=
  fun rnd n => let (a, n') := m rnd n in k a rnd n'.

Definition mathRandom : Rand Q := fun rnd n => (rnd n, S n).

Notation "x <- m ;; k" := (bind m (fun x => k))
  (at level 61, m at next level, right associativity).

(** The body of the inner loop of [initGrid] for the cell [(r, c)]: the
    bubbles it pushes.  The colour index [Math.floor(Math.random() * 6)] is
    within [COLOR_KEYS] for a draw from [0, 1). *)
Definition initCell (ROW_HEIGHT width : Q) (r c : Z) : Rand (list Bubble) :=
  spawn <- mathRandom ;;
  if Qltb (15 # 100) spawn then
    let p := getBubblePos ROW_HEIGHT r c width in
    pick <- mathRandom ;;
    ret [ {| id := string_of_Z r ++ "-" ++ string_of_Z c;
             row := r; col := c; x := px p; y := py p;
             color := nth (Z.to_nat (Qfloor (pick * 6))) COLOR_KEYS red;
             active := true |} ]
  else ret [].

(** A [for] loop whose body pushes bubbles onto [newBubbles]. *)
Fixpoint pushEach {A} (body : A -> Rand (list Bubble)) (l : list A)
    : Rand (list Bubble) :=
  match l with
  | [] => ret []
  | a :: l' =>
    pushed <- body a ;;
    later <- pushEach body l' ;;
    ret (pushed ++ later)
  end.

(** [initGrid]: the new value of [bubbles.current]. *)
Definition initGrid (ROW_HEIGHT width : Q) : Rand (list Bubble) :=
  pushEach
    (fun r => pushEach (initCell ROW_HEIGHT width r) (range (colsInRow r)))
    (range GRID_ROWS).

(** ** Line of sight *)

(** [Math.ceil(distance / (BUBBLE_RADIUS / 2))] for [distance = Math.sqrt(d2)]:
    the least [n >= 0] whose square is at least [d2 / (BUBBLE_RADIUS / 2)^2]. *)
Definition pathSteps (d2 : Q) : Z :=
  let half := (inject_Z BUBBLE_RADIUS / 2)%Q in
  Z.sqrt_up (Qceiling (d2 / (half * half))).

(** [for (let i = 1; i < steps - 2; i++)]: the values [i] takes. *)
Definition sampleIndices (steps : Z) : list Z :=
  map (fun k => Z.of_nat k + 1) (seq 0 (Z.to_nat (steps - 3))).

(** The body of the inner loop: bubble [b] blocks the sample [(cx, cy)]. *)
Definition blocksAt (target : Bubble) (cx cy : Q) (b : Bubble) : bool :=
  if negb (active b) || String.eqb (id b) (id target) then false
  else
    let reach := (inject_Z BUBBLE_RADIUS * (18 # 10))%Q in
    Qltb (distSq cx cy (x b) (y b)) (reach * reach).

(** The sample point of step [i]. *)
Definition samplePoint (a : Point) (target : Bubble) (steps i : Z) : Point :=
  let dx := (x target - px a)%Q in
  let dy := (y target - py a)%Q in
  let t := (inject_Z i / inject_Z steps)%Q in
  {| px := (px a + dx * t)%Q; py := (py a + dy * t)%Q |}.

(** [isPathClear(target)], with [anchorPos.current] and [bubbles.current]
    passed in. *)
Definition isPathClear (anchorPos : option Point) (bs : list Bubble)
    (target : Bubble) : bool :=
  match anchorPos with
  | None => false
  | Some a =>
    let dx := (x target - px a)%Q in
    let dy := (y target - py a)%Q in
    let steps := pathSteps (dx * dx + dy * dy) in
    negb (existsb
            (fun i =>
               let p := samplePoint a target steps i in
               existsb (blocksAt target (px p) (py p)) bs)
            (sampleIndices steps))
  end.

(** ** Shot placement *)

(** The five [best...] variables of the snap; [bestDist] holds the square of
    the distance, [None] for [Infinity]. *)
Record Best := {
  bestDist : option Q;
  bestRow : Z;
  bestCol : Z;
  bestX : Q;
  bestY : Q
}.

Definition initBest : Best :=
  {| bestDist := None; bestRow := 0; bestCol := 0; bestX := 0; bestY := 0 |}.

(** [bubbles.current.some(b => b.active && b.row === r && b.col === c)] *)
Definition occupied (bs : list Bubble) (r c : Z) : bool :=
  existsb (fun b => active b && (row b =? r) && (col b =? c)) bs.

(** [dist < bestDist] *)
Definition closer (dist : Q) (best : option Q) : bool :=
  match best with
  | None => true
  | Some d => Qltb dist d
  end.

(** The body of the inner loop of the snap. *)
Definition snapCell (ROW_HEIGHT width : Q) (bs : list Bubble) (ball : Point)
    (r : Z) (best : Best) (c : Z) : Best :=
  let p := getBubblePos ROW_HEIGHT r c width in
  if occupied bs r c then best
  else
    let dist := distSq (px ball) (py ball) (px p) (py p) in
    if closer dist (bestDist best) then
      {| bestDist := Some dist; bestRow := r; bestCol := c;
         bestX := px p; bestY := py p |}
    else best.

Definition snapRow (ROW_HEIGHT width : Q) (bs : list Bubble) (ball : Point)
    (best : Best) (r : Z) : Best :=
  fold_left (snapCell ROW_HEIGHT width bs ball r) (range (colsInRow r)) best.

(** The nearest-empty-cell scan over rows [0 .. GRID_ROWS + 5). *)
Definition nearestEmptyCell (ROW_HEIGHT width : Q) (bs : list Bubble)
    (ball : Point) : Best :=
  fold_left (snapRow ROW_HEIGHT width bs ball) (range (GRID_ROWS + 5)) initBest.

(** The bubble created at the snapped cell; [now] is [Date.now()]. *)
Definition newBubbleAt (best : Best) (now : Z) (selectedColor : BubbleColor)
    : Bubble :=
  {| id := string_of_Z (bestRow best) ++ "-" ++ string_of_Z (bestCol best)
           ++ "-" ++ string_of_Z now;
     row := bestRow best; col := bestCol best;
     x := bestX best; y := bestY best;
     color := selectedColor; active := true |}.

(** The collision branch of the frame handler, as far as the bubble field
    goes: snap, push the new bubble, resolve matches from it. *)
Definition placeShot (ROW_HEIGHT width : Q) (now : Z)
    (selectedColor : BubbleColor) (ball : Point) (st : GameState)
    : option GameState :=
  let best := nearestEmptyCell ROW_HEIGHT width (bubbles st) ball in
  let newBubble := newBubbleAt best now selectedColor in
  let pushed := {| bubbles := bubbles st ++ [newBubble];
                   score := score st;
                   celebrationWord := celebrationWord st |} in
  option_map fst (checkMatches pushed (length (bubbles st))).

(** ** The field invariant *)

Definition cell (b : Bubble) : Z * Z := (row b, col b).

(** No two active bubbles share a cell. *)
Definition noOverlap (bs : list Bubble) : Prop :=
  NoDup (map cell (filter active bs)).

(** ** The shot: release and flight *)

Definition GRAVITY : Q := 0.
Definition FRICTION : Q := 998 # 1000.

(** [Math.min] and [Math.max] on numbers. *)
Definition Math_min (a b : Q) : Q := if Qltb b a then b else a.
Definition Math_max (a b : Q) : Q := if Qltb a b then b else a.


(** The ball in flight within one frame. *)
Record Flight := {
  ballPos : Point;
  ballVel : Point;
  collisionOccurred : bool
}.

(** [Math.ceil(currentSpeed / (BUBBLE_RADIUS * 0.8))] for
    [currentSpeed = Math.sqrt(speedSq)]. *)
Definition flightSteps (speedSq : Q) : Z :=
  let stride := (inject_Z BUBBLE_RADIUS * (8 # 10))%Q in
  Z.sqrt_up (Qceiling (speedSq / (stride * stride))).

(** The scan of the bubbles for one within [BUBBLE_RADIUS * 1.8] of the
    ball. *)
Definition hitsBubble (bs : list Bubble) (p : Point) : bool :=
  existsb
    (fun b =>
       active b &&
       let reach := (inject_Z BUBBLE_RADIUS * (18 # 10))%Q in
       Qltb (distSq (px p) (py p) (x b) (y b)) (reach * reach))
    bs.

(** One turn of the sub-stepping loop: move, bounce off the side walls,
    test the top boundary, test the bubbles. *)
Definition subStep (width : Q) (bs : list Bubble) (steps : Z) (f : Flight)
    : Flight :=
  let R := inject_Z BUBBLE_RADIUS in
  let x1 := (px (ballPos f) + px (ballVel f) / inject_Z steps)%Q in
  let y1 := (py (ballPos f) + py (ballVel f) / inject_Z steps)%Q in
  let bounced := Qltb x1 R || Qltb (width - R) x1 in
  let vx := if bounced then (px (ballVel f) * -1)%Q else px (ballVel f) in
  let x2 := if bounced then Math_max R (Math_min (width - R) x1) else x1 in
  let p := {| px := x2; py := y1 |} in
  let v := {| px := vx; py := py (ballVel f) |} in
  if Qltb y1 R then
    {| ballPos := p; ballVel := v; collisionOccurred := true |}
  else
    {| ballPos := p; ballVel := v; collisionOccurred := hitsBubble bs p |}.

(** [count] more turns of the loop, which a collision breaks. *)
Fixpoint flightLoop (width : Q) (bs : list Bubble) (steps : Z) (count : nat)
    (f : Flight) : Flight :=
  match count with
  | O => f
  | S count' =>
    let f' := subStep width bs steps f in
    if collisionOccurred f' then f' else flightLoop width bs steps count' f'
  end.

(** The physics of one frame of flight, up to the test of
    [collisionOccurred]: the loop, then gravity and friction. *)
Definition flightFrame (width : Q) (bs : list Bubble) (pos vel : Point)
    : Flight :=
  let steps := flightSteps (px vel * px vel + py vel * py vel) in
  let f := flightLoop width bs steps (Z.to_nat steps)
             {| ballPos := pos; ballVel := vel; collisionOccurred := false |} in
  {| ballPos := ballPos f;
     ballVel := {| px := (px (ballVel f) * FRICTION)%Q;
                   py := ((py (ballVel f) + GRAVITY) * FRICTION)%Q |};
     collisionOccurred := collisionOccurred f |}.

(** ** Colours in play *)

(** The distinct elements of an array in order of first appearance: what
    [Array.from(new Set(array))] returns. *)
Fixpoint distinctColors (seen : list BubbleColor) (l : list BubbleColor)
    : list BubbleColor :=
  match l with
  | [] => []
  | c :: l' =>
    if existsb (BubbleColor_eqb c) seen then distinctColors seen l'
    else c :: distinctColors (c :: seen) l'
  end.

(** [updateAvailableColors]: the new [availableColors] and the selected
    colour once the state setters have taken effect. *)
Definition updateAvailableColors (bs : list Bubble) (selected : BubbleColor)
    : list BubbleColor * BubbleColor :=
  let activeColors := distinctColors [] (map color (filter active bs)) in
  (activeColors,
   if negb (existsb (BubbleColor_eqb selected) activeColors)
      && (0 <? Z.of_nat (length activeColors))
   then hd selected activeColors
   else selected).

(** The [maxRow] that [performAiAnalysis] passes as [dangerRow]. *)
Definition maxActiveRow (bs : list Bubble) : Z :=
  fold_left (fun mx b => if active b then Z.max mx (row b) else mx) bs 0.

(** The danger level written into the prompt: critical from row 6 on. *)
Definition dangerIsCritical (dangerRow : Z) : bool := 6 <=? dangerRow.

(** ** The targeting advisor (services/geminiService.ts)

    JavaScript values are kept as a small universe, so that what the service
    reads off the parsed response can be anything JSON holds.  The runtime's
    own operations the service leans on ([JSON.parse], the number reading of
    a string, the primitive of an array or object) are an interface the model
    is parameterised by. *)

Module GeminiService.

Inductive JsNumber : Type :=
| NaN
| Infinite (positive : bool)
| Num (q : Q).

Inductive JsValue : Type :=
| JUndefined
| JNull
| JBool (b : bool)
| JNumber (n : JsNumber)
| JString (s : string)
| JArray (items : list JsValue)
| JObject (fields : list (string * JsValue)).

Class JsRuntime := {
  (** the number a string reads as; [NaN] when it reads as none *)
  StringToNumber : string -> JsNumber;
  (** [Number(v)] for an array or object [v]; [None] when it throws *)
  ObjectToNumber : JsValue -> option JsNumber;
  (** [JSON.parse]; [None] when it throws *)
  JSON_parse : string -> option JsValue
}.

Record TargetCandidate := {
  id : string;
  color : string;
  size : Z;
  row : Z;
  col : Z;
  pointsPerBubble : Z;
  description : string
}.

(** A hint object; a property the object lacks reads [JUndefined]. *)
Record StrategicHint := {
  message : JsValue;
  rationale : JsValue;
  targetRow : JsValue;
  targetCol : JsValue;
  recommendedColor : JsValue
}.

Inductive DebugError : Set :=
| ApiKeyMissing
| InvalidCoordinates
| JsonParseError
| ApiError.

(** The [hint] of an [AiResponse] and, of its [debug], which error it
    records. *)
Record AiResponse := {
  hint : StrategicHint;
  error : option DebugError
}.

Definition COLOR_LABELS (key : string) : option string :=
  if String.eqb key "red" then Some "사과 (Apple)"%string
  else if String.eqb key "blue" then Some "버스 (Bus)"%string
  else if String.eqb key "green" then Some "기차 (Train)"%string
  else if String.eqb key "yellow" then Some "사자 (Lion)"%string
  else if String.eqb key "purple" then Some "포도 (Grape)"%string
  else if String.eqb key "orange" then Some "오렌지 (Orange)"%string
  else None.

(** [toUpperCase] and [toLowerCase] as they act on ASCII strings: the ASCII
    letters change case and every other byte is kept.  On letters outside
    ASCII the methods of the source do more; every string a worked example
    below applies them to is ASCII. *)
Definition upperAscii (c : ascii) : ascii :=
  let n := nat_of_ascii c in
  if (97 <=? n)%nat && (n <=? 122)%nat then ascii_of_nat (n - 32) else c.

Definition lowerAscii (c : ascii) : ascii :=
  let n := nat_of_ascii c in
  if (65 <=? n)%nat && (n <=? 90)%nat then ascii_of_nat (n + 32) else c.

Fixpoint mapString (f : ascii -> ascii) (s : string) : string :=
  match s with
  | EmptyString => EmptyString
  | String c s' => String (f c) (mapString f s')
  end.

Definition toUpperCase : string -> string := mapString upperAscii.
Definition toLowerCase : string -> string := mapString lowerAscii.

(** The comparator of the fallback's sort:
    [(scoreB - scoreA) || (a.row - b.row)]. *)
Definition compareTargets (a b : TargetCandidate) : Z :=
  let scoreA := size a * pointsPerBubble a in
  let scoreB := size b * pointsPerBubble b in
  if scoreB - scoreA =? 0 then row a - row b else scoreB - scoreA.

(** [Array.prototype.sort(compareFn)].  The language requires the sort to be
    stable, and for a consistent comparator every stable sort returns the
    same array: it is modelled by insertion, each element placed before the
    first one it does not sort after. *)
Fixpoint insertSorted {A} (compareFn : A -> A -> Z) (a : A) (l : list A)
    : list A :=
  match l with
  | [] => [a]
  | b :: l' =>
    if compareFn a b <=? 0 then a :: b :: l'
    else b :: insertSorted compareFn a l'
  end.

Definition Array_sort {A} (compareFn : A -> A -> Z) (l : list A) : list A :=
  fold_right (insertSorted compareFn) [] l.

Definition undefinedHint (msg reason : string) : StrategicHint :=
  {| message := JString msg; rationale := JString reason;
     targetRow := JUndefined; targetCol := JUndefined;
     recommendedColor := JUndefined |}.

(** [getBestLocalTarget(msg)], with the [validTargets] it closes over.  The
    sorted array of a non-empty array is non-empty, so the default of [hd]
    is never read. *)
Definition getBestLocalTarget (validTargets : list TargetCandidate)
    (msg : string) : StrategicHint :=
  match validTargets with
  | [] => undefinedHint msg "No valid clusters found to target."
  | first :: _ =>
    let best := hd first (Array_sort compareTargets validTargets) in
    let shown :=
      match COLOR_LABELS (color best) with
      | Some l => l
      | None => toUpperCase (color best)
      end in
    {| message := JString ("[" ++ shown ++ "]를 맞춰보세요!");
       rationale := JString
         "Selected based on highest potential cluster score available locally.";
       targetRow := JNumber (Num (inject_Z (row best)));
       targetCol := JNumber (Num (inject_Z (col best)));
       recommendedColor := JString (color best) |}
  end.

(** [text.indexOf(c)] and [text.lastIndexOf(c)] for a one-character [c];
    [None] is -1. *)
Fixpoint indexOf (c : ascii) (s : string) : option nat :=
  match s with
  | EmptyString => None
  | String d s' =>
    if Ascii.eqb c d then Some O else option_map S (indexOf c s')
  end.

Fixpoint lastIndexOf (c : ascii) (s : string) : option nat :=
  match s with
  | EmptyString => None
  | String d s' =>
    match lastIndexOf c s' with
    | Some k => Some (S k)
    | None => if Ascii.eqb c d then Some O else None
    end
  end.

(** The text between the first opening and the last closing brace, when
    there is one after the other; the whole text otherwise. *)
Definition extractJson (text : string) : string :=
  match indexOf "{" text, lastIndexOf "}" text with
  | Some firstBrace, Some lastBrace =>
    if (firstBrace <? lastBrace)%nat then
      substring firstBrace (lastBrace + 1 - firstBrace) text
    else text
  | _, _ => text
  end.

(** [json.name] for one of the names the service reads, none of which a
    prototype defines: [None] is the TypeError of reading a property of
    [null] or [undefined]. *)
Definition getProp (json : JsValue) (name : string) : option JsValue :=
  match json with
  | JUndefined | JNull => None
  | JObject fields =>
    match find (fun kv => String.eqb (fst kv) name) fields with
    | Some kv => Some (snd kv)
    | None => Some JUndefined
    end
  | _ => Some JUndefined
  end.

Definition isNaN (n : JsNumber) : bool :=
  match n with
  | NaN => true
  | _ => false
  end.

(** Truthiness, as [||] and [&&] test it. *)
Definition truthy (v : JsValue) : bool :=
  match v with
  | JUndefined | JNull => false
  | JBool b => b
  | JNumber NaN => false
  | JNumber (Num q) => negb (Qeq_bool q 0)
  | JNumber (Infinite _) => true
  | JString s => negb (String.eqb s "")
  | JArray _ | JObject _ => true
  end.

(** [v.toLowerCase()]: a TypeError unless [v] is a string. *)
Definition callToLowerCase (v : JsValue) : option JsValue :=
  match v with
  | JString s => Some (JString (toLowerCase s))
  | _ => None
  end.

Section WithRuntime.

Context {rt : JsRuntime}.

(** [Number(v)]; [None] when the conversion throws. *)
Definition Number (v : JsValue) : option JsNumber :=
  match v with
  | JUndefined => Some NaN
  | JNull => Some (Num 0)
  | JBool true => Some (Num 1)
  | JBool false => Some (Num 0)
  | JNumber n => Some n
  | JString s => Some (StringToNumber s)
  | JArray _ | JObject _ => ObjectToNumber v
  end.

(** The body of the inner [try] after [JSON.parse]; [None] when it throws. *)
Definition hintFromJson (validTargets : list TargetCandidate)
    (json : JsValue) : option AiResponse :=
  match getProp json "targetRow" with
  | None => None
  | Some rowValue =>
    match Number rowValue with
    | None => None
    | Some r =>
      match getProp json "targetCol" with
      | None => None
      | Some colValue =>
        match Number colValue with
        | None => None
        | Some c =>
          match getProp json "recommendedColor",
                getProp json "message", getProp json "rationale" with
          | Some colorValue, Some messageValue, Some rationaleValue =>
            if negb (isNaN r) && negb (isNaN c) && truthy colorValue then
              match callToLowerCase colorValue with
              | None => None
              | Some lowered =>
                Some {| hint :=
                          {| message :=
                               if truthy messageValue then messageValue
                               else JString "좋은 자리가 있어요!";
                             rationale := rationaleValue;
                             targetRow := JNumber r;
                             targetCol := JNumber c;
                             recommendedColor := lowered |};
                        error := None |}
              end
            else
              Some {| hint := getBestLocalTarget validTargets
                                "AI가 위치를 잘못 알려줬어요.";
                      error := Some InvalidCoordinates |}
          | _, _, _ => None
          end
        end
      end
    end
  end.

(** The inner [try]/[catch], from the result of [JSON.parse] on: a throw of
    the parse or of what follows it lands in the [catch]. *)
Definition hintFromParsed (validTargets : list TargetCandidate)
    (parsed : option JsValue) : AiResponse :=
  let caught :=
    {| hint := getBestLocalTarget validTargets "AI 응답을 이해하지 못했어요.";
       error := Some JsonParseError |} in
  match parsed with
  | None => caught
  | Some json =>
    match hintFromJson validTargets json with
    | None => caught
    | Some response => response
    end
  end.

Definition hintFromText (validTargets : list TargetCandidate)
    (text : string) : AiResponse :=
  hintFromParsed validTargets (JSON_parse text).

(** What the request to the model came to: a rejection, or a response whose
    [text] may be missing. *)
Inductive ApiOutcome : Type :=
| ApiRejects
| ApiResponds (text : option string).

(** [getStrategicHint], from the outcome of the request on; [hasClient] is
    whether [ai] was initialised. *)
Definition getStrategicHint (hasClient : bool)
    (validTargets : list TargetCandidate) (outcome : ApiOutcome)
    : AiResponse :=
  if negb hasClient then
    {| hint := {| message := JString "API 키가 없습니다.";
                  rationale := JUndefined; targetRow := JUndefined;
                  targetCol := JUndefined; recommendedColor := JUndefined |};
       error := Some ApiKeyMissing |}
  else
    match outcome with
    | ApiRejects =>
      {| hint := getBestLocalTarget validTargets "AI 선생님과 연결이 끊겼어요.";
         error := Some ApiError |}
    | ApiResponds responseText =>
      let text :=
        match responseText with
        | Some s => if String.eqb s "" then "{}"%string else s
        | None => "{}"%string
        end in
      hintFromText validTargets (extractJson text)
    end.

End WithRuntime.

(** The six colour names. *)
Definition knownColors : list string :=
  ["red"%string; "blue"%string; "green"%string;
   "yellow"%string; "purple"%string; "orange"%string].

End GeminiService.

(** ** The clusters offered to the advisor *)

(** A [BubbleColor] value is the string of its name. *)
Definition colorName (c : BubbleColor) : string :=
  match c with
  | red => "red"
  | blue => "blue"
  | green => "green"
  | yellow => "yellow"
  | purple => "purple"
  | orange => "orange"
  end.

(** [activeBubbles.filter(n => !visited.has(n.id) && n.color === color && isNeighbor(curr, n))] *)
Definition unvisitedNeighbors (activeBubbles : list Bubble)
    (visited : list string) (c : BubbleColor) (curr : Bubble) : list Bubble :=
  filter (fun n => negb (has visited (id n)) && BubbleColor_eqb (color n) c
                   && isNeighbor curr n)
         activeBubbles.

(** [visited.add(n.id)] for each of the neighbours. *)
Definition addAll (visited : list string) (neighbors : list Bubble)
    : list string :=
  fold_left (fun v n => id n :: v) neighbors visited.

(** The [while (queue.length > 0)] loop of [getAllReachableClusters]:
    [shift] takes the head of the queue and [push] appends.  The result is
    [clusterMembers] with the [visited] set of the colour; [None] is a loop
    that ran out of [fuel]. *)
Fixpoint clusterLoop (fuel : nat) (activeBubbles : list Bubble)
    (c : BubbleColor) (queue : list Bubble) (visited : list string)
    (clusterMembers : list Bubble) {struct fuel}
    : option (list Bubble * list string) :=
  match queue with
  | [] => Some (clusterMembers, visited)
  | curr :: rest =>
    match fuel with
    | O => None
    | S fuel' =>
      let neighbors := unvisitedNeighbors activeBubbles visited c curr in
      clusterLoop fuel' activeBubbles c (rest ++ neighbors)
        (addAll visited neighbors) (clusterMembers ++ [curr])
    end
  end.

(** Iterations that always suffice for [n] active bubbles. *)
Definition clusterFuel (n : nat) : nat := S n.

(** The comparator [(a, b) => b.y - a.y], by its sign: lowest on the screen
    first. *)
Definition lowestFirst (a b : Bubble) : Z :=
  match (y b ?= y a)%Q with
  | Lt => -1
  | Eq => 0
  | Gt => 1
  end.

(** The [description] of a candidate at abscissa [x] in a container of width
    [containerWidth] (the value of
    [gameContainerRef.current?.clientWidth || window.innerWidth]).  For a
    width of 0 the quotient is an infinity or [NaN]. *)
Definition describe (x containerWidth : Q) : string :=
  if Qeq_bool containerWidth 0 then
    if Qltb x 0 then "Left" else if Qltb 0 x then "Right" else "Center"
  else
    let xPct := (x / containerWidth)%Q in
    if Qltb xPct (33 # 100) then "Left"
    else if Qltb (66 # 100) xPct then "Right"
    else "Center".

(** The body of [for (const b of activeBubbles)] for one colour, on the
    [visited] set of the colour and [allClusters]. *)
Definition clusterOf (anchorPos : option Point) (bs : list Bubble)
    (containerWidth : Q) (activeBubbles : list Bubble) (c : BubbleColor)
    (acc : option (list string * list GeminiService.TargetCandidate))
    (b : Bubble)
    : option (list string * list GeminiService.TargetCandidate) :=
  match acc with
  | None => None
  | Some (visited, allClusters) =>
    if negb (BubbleColor_eqb (color b) c)
       || (has visited (id b) && BubbleColor_eqb (color b) c)
    then Some (visited, allClusters)
    else
      match clusterLoop (clusterFuel (length activeBubbles)) activeBubbles c
                        [b] (id b :: visited) [] with
      | None => None
      | Some (clusterMembers, visited') =>
        let sorted := GeminiService.Array_sort lowestFirst clusterMembers in
        match find (isPathClear anchorPos bs) sorted with
        | Some hittableMember =>
          Some (visited',
                allClusters ++
                [ {| GeminiService.id := id hittableMember;
                     GeminiService.color := colorName c;
                     GeminiService.size := Z.of_nat (length sorted);
                     GeminiService.row := row hittableMember;
                     GeminiService.col := col hittableMember;
                     GeminiService.pointsPerBubble := points (COLOR_CONFIG c);
                     GeminiService.description :=
                       describe (x hittableMember) containerWidth |} ])
        | None => Some (visited', allClusters)
        end
      end
  end.

(** The body of [for (const color of uniqueColors)], on [allClusters]. *)
Definition clustersOfColor (anchorPos : option Point) (bs : list Bubble)
    (containerWidth : Q) (activeBubbles : list Bubble)
    (all : option (list GeminiService.TargetCandidate)) (c : BubbleColor)
    : option (list GeminiService.TargetCandidate) :=
  match all with
  | None => None
  | Some allClusters =>
    option_map snd
      (fold_left (clusterOf anchorPos bs containerWidth activeBubbles c)
                 activeBubbles (Some ([], allClusters)))
  end.

(** [getAllReachableClusters()], with [anchorPos.current], [bubbles.current]
    and the width of the container passed in. *)
Definition getAllReachableClusters (anchorPos : option Point)
    (bs : list Bubble) (containerWidth : Q)
    : option (list GeminiService.TargetCandidate) :=
  let activeBubbles := filter active bs in
  let uniqueColors := distinctColors [] (map color activeBubbles) in
  fold_left (clustersOfColor anchorPos bs containerWidth activeBubbles)
            uniqueColors (Some []).

(** * Properties of the model *)

Lemma BubbleColor_eqb_spec a b : reflect (a = b) (BubbleColor_eqb a b).
Proof. destruct a, b; constructor; congruence. Qed.

(** ** Adjacency *)

Lemma rem2_cases (r : Z) : Z.rem r 2 = 0 \/ Z.rem r 2 = 1 \/ Z.rem r 2 = -1.
Proof. pose proof (Z.rem_bound_abs r 2). lia. Qed.

Lemma rem2_succ_flip (r : Z) :
  (Z.rem (r + 1) 2 =? 0) = negb (Z.rem r 2 =? 0).
Proof.
  pose proof (Z.quot_rem' r 2) as H. pose proof (Z.quot_rem' (r + 1) 2) as H0.
  pose proof (rem2_cases r) as C. pose proof (rem2_cases (r + 1)) as C0.
  revert H H0 C C0.
  generalize (Z.rem r 2) (Z.rem (r + 1) 2) (r ÷ 2) ((r + 1) ÷ 2).
  intros a b q q' H H0 C C0.
  destruct (Z.eqb_spec b 0), (Z.eqb_spec a 0); cbn; try reflexivity; lia.
Qed.

Lemma rem2_pred_flip (r : Z) :
  (Z.rem (r - 1) 2 =? 0) = negb (Z.rem r 2 =? 0).
Proof.
  pose proof (rem2_succ_flip (r - 1)) as H.
  replace (r - 1 + 1) with r in H by lia.
  rewrite H. now rewrite negb_involutive.
Qed.

(** C3: adjacency is symmetric, for bubbles at any integer rows and columns. *)
Theorem isNeighbor_symmetric (a b : Bubble) :
  isNeighbor a b = isNeighbor b a.
Proof.
  unfold isNeighbor.
  destruct (Z.ltb_spec 1 (Z.abs (row b - row a))) as [Hd|Hd];
    destruct (Z.ltb_spec 1 (Z.abs (row a - row b))) as [Hd'|Hd']; try lia; try reflexivity.
  destruct (Z.eqb_spec (row b - row a) 0) as [E|E];
    destruct (Z.eqb_spec (row a - row b) 0) as [E'|E']; try (exfalso; lia).
  - destruct (Z.eqb_spec (Z.abs (col b - col a)) 1),
             (Z.eqb_spec (Z.abs (col a - col b)) 1); try reflexivity; exfalso; lia.
  - assert (Hr : row b = row a + 1 \/ row b = row a - 1) by lia.
    assert (Hp : (Z.rem (row b) 2 =? 0) = negb (Z.rem (row a) 2 =? 0)).
    { destruct Hr as [-> | ->]; [apply rem2_succ_flip | apply rem2_pred_flip]. }
    rewrite Hp. destruct (Z.rem (row a) 2 =? 0); cbn;
      destruct (Z.eqb_spec (col b - col a) 0), (Z.eqb_spec (col b - col a) 1),
               (Z.eqb_spec (col b - col a) (-1)), (Z.eqb_spec (col a - col b) 0),
               (Z.eqb_spec (col a - col b) 1), (Z.eqb_spec (col a - col b) (-1));
      cbn; try reflexivity; exfalso; lia.
Qed.


(** ** Small facts about the containers *)

Lemma has_In (v : list string) (s : string) : has v s = true <-> In s v.
Proof.
  unfold has. rewrite existsb_exists. split.
  - intros [t [Hin Heq]]. apply String.eqb_eq in Heq. now subst.
  - intros Hin. exists s. split; [assumption | apply String.eqb_refl].
Qed.

Lemma has_cons (v : list string) (s t : string) :
  has (s :: v) t = String.eqb t s || has v t.
Proof. reflexivity. Qed.

Lemma indexed_from_In (bs : list Bubble) :
  forall s k b,
    In (k, b) (combine (seq s (length bs)) bs) <->
    (s <= k)%nat /\ nth_error bs (k - s) = Some b.
Proof.
  induction bs as [|a bs IH]; intros s k b; cbn.
  - split; [tauto|]. intros [_ H]. destruct (k - s)%nat; discriminate.
  - rewrite IH. split.
    + intros [H | [Hle H]].
      * inversion H; subst. split; [lia|]. now rewrite Nat.sub_diag.
      * split; [lia|]. replace (k - s)%nat with (S (k - S s)) by lia. exact H.
    + intros [Hle H]. destruct (Nat.eq_dec k s) as [->|Hne].
      * left. rewrite Nat.sub_diag in H. cbn in H. congruence.
      * right. split; [lia|].
        replace (k - s)%nat with (S (k - S s)) in H by lia. exact H.
Qed.

Lemma indexed_In (bs : list Bubble) (k : nat) (b : Bubble) :
  In (k, b) (indexed bs) <-> nth_error bs k = Some b.
Proof.
  unfold indexed. rewrite indexed_from_In, Nat.sub_0_r.
  split; [tauto | intros H; split; [lia | exact H]].
Qed.

Lemma neighborsOf_In (bs : list Bubble) (v : list string) (cur : Bubble) (k : nat) :
  In k (neighborsOf bs v cur) <->
  exists b, nth_error bs k = Some b /\ active b = true /\
            has v (id b) = false /\ isNeighbor cur b = true.
Proof.
  unfold neighborsOf. rewrite in_map_iff. split.
  - intros [[k' b] [Hk Hin]]. cbn in Hk. subst k'.
    apply filter_In in Hin. destruct Hin as [Hin Hp]. cbn in Hp.
    apply andb_prop in Hp. destruct Hp as [Hp Hn].
    apply andb_prop in Hp. destruct Hp as [Ha Hv].
    apply negb_true_iff in Hv. apply indexed_In in Hin.
    exists b. auto.
  - intros [b (Hb & Ha & Hv & Hn)]. exists (k, b). split; [reflexivity|].
    apply filter_In. split; [now apply indexed_In|].
    cbn. now rewrite Ha, Hv, Hn.
Qed.

Lemma neighborsOf_length (bs : list Bubble) (v : list string) (cur : Bubble) :
  (length (neighborsOf bs v cur) <= length bs)%nat.
Proof.
  unfold neighborsOf, indexed. rewrite length_map.
  etransitivity; [apply filter_length_le|].
  rewrite length_combine, length_seq. lia.
Qed.

Lemma filter_length_mono {A} (f g : A -> bool) (l : list A) :
  (forall a, g a = true -> f a = true) ->
  (length (filter g l) <= length (filter f l))%nat.
Proof.
  intros Hgf. induction l as [|a l IH]; cbn; [lia|].
  destruct (g a) eqn:Eg.
  - rewrite (Hgf a Eg). cbn. lia.
  - destruct (f a); cbn; lia.
Qed.

Lemma filter_length_strict {A} (f g : A -> bool) (l : list A) (a0 : A) :
  (forall a, g a = true -> f a = true) ->
  In a0 l -> f a0 = true -> g a0 = false ->
  (length (filter g l) < length (filter f l))%nat.
Proof.
  intros Hgf Hin Hf Hg. induction l as [|a l IH]; [contradiction|].
  cbn. destruct Hin as [->|Hin].
  - rewrite Hf, Hg. cbn. pose proof (filter_length_mono f g l Hgf). lia.
  - specialize (IH Hin). destruct (g a) eqn:Eg.
    + rewrite (Hgf a Eg). cbn. lia.
    + destruct (f a); cbn; lia.
Qed.

Lemma uniqueIds_inj (bs : list Bubble) (j k : nat) (bj bk : Bubble) :
  uniqueIds bs ->
  nth_error bs j = Some bj -> nth_error bs k = Some bk ->
  id bj = id bk -> j = k.
Proof.
  unfold uniqueIds. intros Hu Hj Hk Hid.
  rewrite NoDup_nth_error in Hu. apply Hu.
  - rewrite length_map. apply nth_error_Some. congruence.
  - rewrite !nth_error_map, Hj, Hk. cbn. now rewrite Hid.
Qed.

(** ** The traversal loop of match-find *)

Section MatchLoop.

Variable bs : list Bubble.
Variable c : BubbleColor.
Variable seed : nat.
Hypothesis ids_unique : uniqueIds bs.
Hypothesis seed_color : exists b, nth_error bs seed = Some b /\ color b = c.

(** The object behind reference [k] has its id in the visited set. *)
Definition visitedRef (visited : list string) (k : nat) : Prop :=
  exists b, nth_error bs k = Some b /\ In (id b) visited.

(** What holds of the three loop variables at every test of the loop. *)
Record LoopInv (toCheck : list nat) (visited : list string)
    (matches : list nat) : Prop := {
  inv_valid : forall k, In k toCheck -> (k < length bs)%nat;
  inv_sound : forall k, In k matches -> Component bs c seed k;
  inv_front : forall k bk, In k toCheck -> nth_error bs k = Some bk ->
                           color bk = c -> Component bs c seed k;
  inv_seen : forall k, In k matches -> visitedRef visited k;
  inv_nodup : NoDup matches;
  inv_seed : In seed toCheck \/ visitedRef visited seed;
  inv_kept : forall k b, nth_error bs k = Some b -> In (id b) visited ->
                         color b = c -> In k matches;
  inv_closed : forall j k, In j matches -> touches bs j k ->
                           visitedRef visited k \/ In k toCheck
}.

Lemma visitedRef_cons (v : list string) (s : string) (k : nat) :
  visitedRef v k -> visitedRef (s :: v) k.
Proof. intros [b [Hb Hin]]. exists b. split; [assumption | now right]. Qed.

Lemma LoopInv_init : LoopInv [seed] [] [].
Proof.
  destruct seed_color as [b [Hb Hc]].
  constructor; cbn; try tauto.
  - intros k [<-|[]]. apply nth_error_Some. congruence.
  - intros k bk [<-|[]] _ _. constructor.
  - constructor.
Qed.

Lemma LoopInv_skip cur rest v m b :
  LoopInv (cur :: rest) v m ->
  nth_error bs cur = Some b -> has v (id b) = true ->
  LoopInv rest v m.
Proof.
  intros [Hval Hsnd Hfr Hseen Hnd Hseed Hkept Hcl] Hb Hv.
  apply has_In in Hv.
  assert (Hcur : visitedRef v cur) by (exists b; auto).
  constructor; auto.
  - intros k Hk. apply Hval. now right.
  - intros k bk Hk. apply Hfr. now right.
  - destruct Hseed as [[<-|Hs]|Hs]; auto.
  - intros j k Hj Ht. destruct (Hcl j k Hj Ht) as [H|[<-|H]]; auto.
Qed.

Lemma LoopInv_other cur rest v m b :
  LoopInv (cur :: rest) v m ->
  nth_error bs cur = Some b -> has v (id b) = false -> color b <> c ->
  LoopInv rest (id b :: v) m.
Proof.
  intros [Hval Hsnd Hfr Hseen Hnd Hseed Hkept Hcl] Hb Hv Hc.
  assert (Hcur : visitedRef (id b :: v) cur) by (exists b; split; [assumption | now left]).
  constructor; auto.
  - intros k Hk. apply Hval. now right.
  - intros k bk Hk. apply Hfr. now right.
  - intros k Hk. apply visitedRef_cons. auto.
  - destruct Hseed as [[<-|Hs]|Hs]; auto. right. now apply visitedRef_cons.
  - intros k bk Hk [Hid|Hin] Hck; [|eauto].
    assert (cur = k) by (eapply uniqueIds_inj; eauto). subst k.
    congruence.
  - intros j k Hj Ht. destruct (Hcl j k Hj Ht) as [H|[<-|H]]; auto.
    left. now apply visitedRef_cons.
Qed.

Lemma LoopInv_match cur rest v m b :
  LoopInv (cur :: rest) v m ->
  nth_error bs cur = Some b -> has v (id b) = false -> color b = c ->
  LoopInv (rev (neighborsOf bs (id b :: v) b) ++ rest) (id b :: v) (m ++ [cur]).
Proof.
  intros [Hval Hsnd Hfr Hseen Hnd Hseed Hkept Hcl] Hb Hv Hc.
  assert (Hcur : visitedRef (id b :: v) cur) by (exists b; split; [assumption | now left]).
  assert (Hcomp : Component bs c seed cur) by (apply (Hfr cur b); auto; now left).
  constructor.
  - intros k Hk. apply in_app_or in Hk. destruct Hk as [Hk|Hk].
    + apply in_rev, neighborsOf_In in Hk. destruct Hk as [bk [Hbk _]].
      apply nth_error_Some. congruence.
    + apply Hval. now right.
  - intros k Hk. apply in_app_or in Hk. destruct Hk as [Hk|[<-|[]]]; auto.
  - intros k bk Hk Hbk Hck. apply in_app_or in Hk. destruct Hk as [Hk|Hk].
    + apply in_rev, neighborsOf_In in Hk.
      destruct Hk as [bk' (Hbk' & Ha & _ & Hn)].
      assert (bk' = bk) by congruence. subst bk'.
      apply (Component_step bs c seed cur k bk); auto.
      exists b, bk. auto.
    + apply (Hfr k bk); auto. now right.
  - intros k Hk. apply in_app_or in Hk. destruct Hk as [Hk|[<-|[]]]; auto.
    apply visitedRef_cons. auto.
  - apply NoDup_app; auto.
    + repeat constructor. intros [].
    + intros k Hk [Hkc|[]]. subst k. destruct (Hseen cur Hk) as [b' [Hb' Hin]].
      assert (b' = b) by congruence. subst b'.
      apply has_In in Hin. congruence.
  - destruct Hseed as [[<-|Hs]|Hs]; auto.
    + left. apply in_or_app. now right.
    + right. now apply visitedRef_cons.
  - intros k bk Hk [Hid|Hin] Hck; apply in_or_app.
    + right. left. eapply uniqueIds_inj; eauto.
    + left. eauto.
  - intros j k Hj Ht. apply in_app_or in Hj. destruct Hj as [Hj|[<-|[]]].
    + destruct (Hcl j k Hj Ht) as [H|[<-|H]]; auto.
      * left. now apply visitedRef_cons.
      * right. apply in_or_app. now right.
    + destruct Ht as (bj & bk & Hbj & Hbk & Ha & Hn).
      assert (bj = b) by congruence. subst bj.
      destruct (has (id b :: v) (id bk)) eqn:Hh.
      * left. exists bk. split; [assumption | now apply has_In].
      * right. apply in_or_app. left. apply -> in_rev.
        apply neighborsOf_In. exists bk. auto.
Qed.

Lemma LoopInv_final v m :
  LoopInv [] v m ->
  NoDup m /\ forall k, In k m <-> Component bs c seed k.
Proof.
  intros [Hval Hsnd Hfr Hseen Hnd Hseed Hkept Hcl].
  split; [assumption|]. intros k0. split; [apply Hsnd|].
  induction 1 as [|j k bk Hj IH Ht Hbk Hck].
  - destruct Hseed as [[]|[b [Hb Hin]]].
    destruct seed_color as [b' [Hb' Hc']].
    assert (b' = b) by congruence. subst b'. eauto.
  - destruct (Hcl j k IH Ht) as [[b [Hb Hin]]|[]].
    assert (b = bk) by congruence. subst b. eauto.
Qed.

(** The loop's variant: the stack length plus, for each bubble whose id is
    not yet visited, room for one more batch of neighbours. *)
Definition unvisited (visited : list string) : nat :=
  length (filter (fun b => negb (has visited (id b))) bs).

Definition potential (toCheck : list nat) (visited : list string) : nat :=
  (length toCheck + length bs * unvisited visited)%nat.

Lemma unvisited_cons cur b v :
  nth_error bs cur = Some b -> has v (id b) = false ->
  (unvisited (id b :: v) < unvisited v)%nat.
Proof.
  intros Hb Hv. unfold unvisited.
  apply filter_length_strict with (a0 := b).
  - intros a. rewrite has_cons, negb_orb. intros H.
    apply andb_prop in H. tauto.
  - eapply nth_error_In; eauto.
  - now rewrite Hv.
  - now rewrite has_cons, String.eqb_refl.
Qed.

Lemma matchLoop_runs (fuel : nat) :
  forall toCheck visited matches,
    LoopInv toCheck visited matches ->
    (potential toCheck visited <= fuel)%nat ->
    exists ms,
      matchLoop fuel bs c toCheck visited matches = Some ms /\
      NoDup ms /\ forall k, In k ms <-> Component bs c seed k.
Proof.
  induction fuel as [|fuel IH]; intros toCheck v m Hinv Hpot;
    destruct toCheck as [|cur rest].
  - exists m. split; [reflexivity | now apply LoopInv_final with v].
  - unfold potential in Hpot. cbn in Hpot. lia.
  - exists m. split; [reflexivity | now apply LoopInv_final with v].
  - cbn [matchLoop].
    assert (Hlt : (cur < length bs)%nat) by (apply (inv_valid _ _ _ Hinv); now left).
    destruct (nth_error bs cur) as [b|] eqn:Hb;
      [|apply nth_error_None in Hb; lia].
    unfold potential in Hpot. cbn [length] in Hpot.
    destruct (has v (id b)) eqn:Hv.
    + apply IH; [eapply LoopInv_skip; eauto|]. unfold potential. lia.
    + pose proof (unvisited_cons cur b v Hb Hv) as Hu.
      destruct (BubbleColor_eqb_spec (color b) c) as [Hc|Hc].
      * apply IH; [eapply LoopInv_match; eauto|].
        unfold potential. rewrite length_app, length_rev.
        pose proof (neighborsOf_length bs (id b :: v) b). nia.
      * apply IH; [eapply LoopInv_other; eauto|].
        unfold potential. nia.
Qed.

End MatchLoop.

(** ** Match-find *)

Lemma findMatches_spec (bs : list Bubble) (start : nat) (b : Bubble) :
  uniqueIds bs -> nth_error bs start = Some b ->
  exists ms,
    findMatches bs start = Some ms /\
    NoDup ms /\ forall k, In k ms <-> Component bs (color b) start k.
Proof.
  intros Hu Hb. unfold findMatches. rewrite Hb.
  apply matchLoop_runs; auto.
  - exists b. auto.
  - apply LoopInv_init. exists b. auto.
  - unfold potential, unvisited, matchFuel. cbn [length].
    pose proof (filter_length_le (fun b0 => negb (has [] (id b0))) bs).
    nia.
Qed.

Lemma Component_lookup (bs : list Bubble) (c : BubbleColor) (seed k : nat) (b : Bubble) :
  nth_error bs seed = Some b -> color b = c ->
  Component bs c seed k ->
  exists bk, nth_error bs k = Some bk /\ color bk = c /\
             (k = seed \/ active bk = true).
Proof.
  intros Hb Hc. induction 1 as [|j k bk Hj IH Ht Hbk Hck].
  - exists b. auto.
  - exists bk. destruct Ht as (bj & bk' & _ & Hbk' & Ha & _).
    assert (bk' = bk) by congruence. subst bk'. auto.
Qed.

Lemma ComponentList_length (bs : list Bubble) (c : BubbleColor) (seed : nat)
    (l1 l2 : list nat) :
  ComponentList bs c seed l1 -> ComponentList bs c seed l2 ->
  length l1 = length l2.
Proof.
  intros [N1 H1] [N2 H2]. apply Permutation_length.
  apply NoDup_Permutation; auto. intros k. now rewrite H1, H2.
Qed.

Ltac prove_NoDup :=
  repeat (constructor; [cbn; intuition discriminate|]); constructor.

(** C4: match-find returns the seed's connected component of one colour,
    each bubble once: for a field with unique ids and a start reference into
    it, [findMatches] returns a duplicate-free list that holds exactly the
    references the start bubble reaches through chains of active, touching
    bubbles of its colour, and every bubble in it has the start bubble's
    colour (and, the start bubble apart, is active). *)
Theorem findMatches_is_component (bs : list Bubble) (start : nat) (b : Bubble) :
  uniqueIds bs -> nth_error bs start = Some b ->
  exists ms,
    findMatches bs start = Some ms /\
    ComponentList bs (color b) start ms /\
    forall k, In k ms ->
      exists bk, nth_error bs k = Some bk /\ color bk = color b /\
                 (k = start \/ active bk = true).
Proof.
  intros Hu Hb.
  destruct (findMatches_spec bs start b Hu Hb) as (ms & Hms & Hnd & Hiff).
  exists ms. repeat split; auto; try apply Hiff; auto.
  intros k Hk. apply Component_lookup with (seed := start) (b := b); auto.
  now apply Hiff.
Qed.

(** ** Match resolution *)

Lemma explode_fold (bp : Z) (ms : list nat) :
  forall bs p,
    fold_left (explode bp) ms (bs, p) =
    (fold_left (fun acc k => deactivateAt k acc) ms bs,
     p + bp * Z.of_nat (length ms)).
Proof.
  induction ms as [|k ms IH]; intros bs p.
  - cbn. f_equal. lia.
  - cbn [fold_left length]. unfold explode at 2. cbn [fst snd].
    rewrite IH. f_equal. lia.
Qed.

Lemma setInactive_idem (b : Bubble) : setInactive (setInactive b) = setInactive b.
Proof. reflexivity. Qed.

Lemma nth_error_deactivateAt (k : nat) :
  forall bs j,
    nth_error (deactivateAt k bs) j =
    if Nat.eqb j k then option_map setInactive (nth_error bs j)
    else nth_error bs j.
Proof.
  induction k as [|k IH]; intros [|b bs] [|j]; cbn; try reflexivity.
  - now destruct (Nat.eqb j k).
  - apply IH.
Qed.

Lemma nth_error_deactivateAll (ms : list nat) :
  forall bs j,
    nth_error (fold_left (fun acc k => deactivateAt k acc) ms bs) j =
    if existsb (Nat.eqb j) ms then option_map setInactive (nth_error bs j)
    else nth_error bs j.
Proof.
  induction ms as [|k ms IH]; intros bs j; cbn [fold_left existsb]; [reflexivity|].
  rewrite IH, nth_error_deactivateAt.
  destruct (Nat.eqb j k), (existsb (Nat.eqb j) ms); cbn; try reflexivity.
  destruct (nth_error bs j); reflexivity.
Qed.

Lemma existsb_eqb_In (j : nat) (ms : list nat) :
  existsb (Nat.eqb j) ms = true <-> In j ms.
Proof.
  rewrite existsb_exists. split.
  - intros [k [Hin Hk]]. apply Nat.eqb_eq in Hk. now subst.
  - intros Hin. exists j. split; [assumption | apply Nat.eqb_refl].
Qed.

Lemma points_even (c : BubbleColor) :
  exists h, points (COLOR_CONFIG c) = 2 * h.
Proof.
  destruct c; cbn;
    [exists 50 | exists 75 | exists 100 | exists 125 | exists 150 | exists 250];
    reflexivity.
Qed.

Lemma combo_score (c : BubbleColor) (n : nat) :
  inject_Z (Qfloor (inject_Z (0 + points (COLOR_CONFIG c) * Z.of_nat n)
                    * comboMultiplier n))
  == inject_Z (Z.of_nat n * points (COLOR_CONFIG c))
     * (if (3 <? n)%nat then 3 # 2 else 1).
Proof.
  destruct (points_even c) as [h ->]. unfold comboMultiplier.
  destruct (3 <? n)%nat.
  - assert (E : inject_Z (0 + 2 * h * Z.of_nat n) * (3 # 2)
                == inject_Z (3 * h * Z.of_nat n)).
    { rewrite !inject_Z_plus, !inject_Z_mult. cbn. field. }
    rewrite E, Qfloor_Z.
    replace (Z.of_nat n * (2 * h)) with (2 * h * Z.of_nat n) by lia.
    rewrite !inject_Z_mult. cbn. field.
  - rewrite Qmult_1_r, Qfloor_Z, Qmult_1_r.
    replace (0 + 2 * h * Z.of_nat n) with (Z.of_nat n * (2 * h)) by lia.
    reflexivity.
Qed.

(** C1: a component of three or more is cleared and scored.  For a field
    with unique ids and a start bubble whose same-colour component [comp] has
    at least three members, [checkMatches] returns [true], every member of
    the component is stored inactive afterwards, every other bubble is
    untouched, the score grows by exactly
    [size * basePoints(colour) * multiplier] with the multiplier 1.5 for a
    size above 3 and 1 otherwise, and the colour's label is celebrated. *)
Theorem checkMatches_clears_component
    (st : GameState) (start : nat) (b : Bubble) (comp : list nat) :
  uniqueIds (bubbles st) ->
  nth_error (bubbles st) start = Some b ->
  ComponentList (bubbles st) (color b) start comp ->
  (3 <= length comp)%nat ->
  exists st',
    checkMatches st start = Some (st', true) /\
    (forall k, In k comp ->
       exists bk, nth_error (bubbles st) k = Some bk /\
                  nth_error (bubbles st') k = Some (setInactive bk) /\
                  active (setInactive bk) = false) /\
    (forall k, ~ In k comp ->
       nth_error (bubbles st') k = nth_error (bubbles st) k) /\
    inject_Z (score st' - score st)
      == inject_Z (Z.of_nat (length comp) * points (COLOR_CONFIG (color b)))
         * (if (3 <? length comp)%nat then 3 # 2 else 1) /\
    celebrationWord st' = Some (label (COLOR_CONFIG (color b))).
Proof.
  intros Hu Hb Hcomp Hsize.
  destruct (findMatches_spec _ _ _ Hu Hb) as (ms & Hms & Hnd & Hiff).
  assert (Hlen : length ms = length comp).
  { apply ComponentList_length with (bubbles st) (color b) start; [split|]; auto. }
  unfold checkMatches. rewrite Hb, Hms, Hlen.
  destruct (Nat.leb_spec 3 (length comp)) as [_|]; [|lia].
  rewrite explode_fold. cbn [fst snd]. eexists. split; [reflexivity|].
  cbn [bubbles score celebrationWord].
  assert (Hmem : forall k, In k comp <-> In k ms).
  { intros k. destruct Hcomp as [_ Hc]. now rewrite Hc, Hiff. }
  repeat split.
  - intros k Hk.
    destruct (Component_lookup _ _ _ k b Hb eq_refl) as (bk & Hbk & _).
    { apply Hiff. now apply Hmem. }
    exists bk. split; [assumption|]. split; [|reflexivity].
    rewrite nth_error_deactivateAll, Hbk.
    apply Hmem, existsb_eqb_In in Hk. now rewrite Hk.
  - intros k Hk. rewrite nth_error_deactivateAll.
    destruct (existsb (Nat.eqb k) ms) eqn:E; [|reflexivity].
    apply existsb_eqb_In in E. apply Hmem in E. contradiction.
  - rewrite <- Hlen.
    replace (score st + Qfloor (inject_Z (0 + points (COLOR_CONFIG (color b))
                                          * Z.of_nat (length ms))
                                * comboMultiplier (length ms)) - score st)
      with (Qfloor (inject_Z (0 + points (COLOR_CONFIG (color b))
                                * Z.of_nat (length ms))
                    * comboMultiplier (length ms))) by lia.
    apply combo_score.
Qed.

(** C5: a component of fewer than three changes nothing.  For a field with
    unique ids and a start bubble whose same-colour component [comp] has
    fewer than three members, [checkMatches] returns [false] and the state
    it leaves is the state it found: same bubbles, flags, colours and
    coordinates, same score, same celebration word. *)
Theorem checkMatches_small_component_noop
    (st : GameState) (start : nat) (b : Bubble) (comp : list nat) :
  uniqueIds (bubbles st) ->
  nth_error (bubbles st) start = Some b ->
  ComponentList (bubbles st) (color b) start comp ->
  (length comp < 3)%nat ->
  checkMatches st start = Some (st, false).
Proof.
  intros Hu Hb Hcomp Hsize.
  destruct (findMatches_spec _ _ _ Hu Hb) as (ms & Hms & Hnd & Hiff).
  assert (Hlen : length ms = length comp).
  { apply ComponentList_length with (bubbles st) (color b) start; [split|]; auto. }
  unfold checkMatches. rewrite Hb, Hms, Hlen.
  destruct (Nat.leb_spec 3 (length comp)) as [|_]; [lia | reflexivity].
Qed.

(** *** A worked field

    Row 0 holds red, red, blue, red at columns 0 to 3; row 1 holds red, red
    and an inactive red at columns 0 to 2. *)

Definition demoBubble (i : string) (r c : Z) (k : BubbleColor) (a : bool)
    : Bubble :=
  {| id := i; row := r; col := c; x := 0; y := 0; color := k; active := a |}.

Definition demoField : list Bubble :=
  [ demoBubble "0-0" 0 0 red true;  demoBubble "0-1" 0 1 red true;
    demoBubble "0-2" 0 2 blue true; demoBubble "1-0" 1 0 red true;
    demoBubble "1-1" 1 1 red true;  demoBubble "0-3" 0 3 red true;
    demoBubble "1-2" 1 2 red false ].

Definition demoState : GameState :=
  {| bubbles := demoField; score := 10; celebrationWord := None |}.

Lemma demoField_uniqueIds : uniqueIds demoField.
Proof. unfold uniqueIds. cbn. prove_NoDup. Qed.

Lemma demoField_component_of_0 :
  ComponentList demoField red 0 [0; 3; 4; 1]%nat.
Proof.
  destruct (findMatches_spec demoField 0 (demoBubble "0-0" 0 0 red true)
              demoField_uniqueIds eq_refl) as (ms & Hms & Hnd & Hiff).
  vm_compute in Hms. injection Hms as <-. split; assumption.
Qed.

Lemma demoField_component_of_5 :
  ComponentList demoField red 5 [5]%nat.
Proof.
  destruct (findMatches_spec demoField 5 (demoBubble "0-3" 0 3 red true)
              demoField_uniqueIds eq_refl) as (ms & Hms & Hnd & Hiff).
  vm_compute in Hms. injection Hms as <-. split; assumption.
Qed.

Lemma findMatches_is_component_witness :
  exists ms,
    findMatches demoField 0 = Some ms /\
    ComponentList demoField red 0 ms /\
    forall k, In k ms ->
      exists bk, nth_error demoField k = Some bk /\ color bk = red /\
                 (k = 0%nat \/ active bk = true).
Proof.
  apply (findMatches_is_component demoField 0 (demoBubble "0-0" 0 0 red true)).
  - exact demoField_uniqueIds.
  - reflexivity.
Defined.

Lemma checkMatches_clears_component_witness :
  exists st',
    checkMatches demoState 0 = Some (st', true) /\
    (forall k, In k [0; 3; 4; 1]%nat ->
       exists bk, nth_error demoField k = Some bk /\
                  nth_error (bubbles st') k = Some (setInactive bk) /\
                  active (setInactive bk) = false) /\
    (forall k, ~ In k [0; 3; 4; 1]%nat ->
       nth_error (bubbles st') k = nth_error demoField k) /\
    inject_Z (score st' - 10) == inject_Z (4 * 100) * (3 # 2) /\
    celebrationWord st' = Some (label (COLOR_CONFIG red)).
Proof.
  apply (checkMatches_clears_component demoState 0
           (demoBubble "0-0" 0 0 red true) [0; 3; 4; 1]%nat).
  - exact demoField_uniqueIds.
  - reflexivity.
  - exact demoField_component_of_0.
  - cbn. lia.
Defined.

Lemma checkMatches_small_component_noop_witness :
  checkMatches demoState 5 = Some (demoState, false).
Proof.
  apply (checkMatches_small_component_noop demoState 5
           (demoBubble "0-3" 0 3 red true) [5]%nat).
  - exact demoField_uniqueIds.
  - reflexivity.
  - exact demoField_component_of_5.
  - cbn. lia.
Defined.

(** ** Nearest-empty-cell snap *)

(** The cells the two loops of the snap visit, in scan order. *)
Definition scanCells : list (Z * Z) :=
  flat_map (fun r => map (pair r) (range (colsInRow r))) (range (GRID_ROWS + 5)).

Lemma fold_left_flat_map {A B C} (f : A -> C -> A) (g : B -> list C) (l : list B) :
  forall a,
    fold_left f (flat_map g l) a
    = fold_left (fun acc b => fold_left f (g b) acc) l a.
Proof.
  induction l as [|b l IH]; intros a; cbn; [reflexivity|].
  now rewrite fold_left_app, IH.
Qed.

Lemma fold_left_map {A B C} (f : A -> C -> A) (h : B -> C) (l : list B) :
  forall a, fold_left f (map h l) a = fold_left (fun acc b => f acc (h b)) l a.
Proof. induction l as [|b l IH]; intros a; cbn; auto. Qed.

Lemma fold_left_pointwise {A B} (f g : A -> B -> A) (l : list B) :
  (forall a b, f a b = g a b) ->
  forall a, fold_left f l a = fold_left g l a.
Proof.
  intros Hfg. induction l as [|b l IH]; intros a; cbn; [reflexivity|].
  now rewrite Hfg, IH.
Qed.

(** The snap as one loop over [scanCells]. *)
Lemma nearestEmptyCell_scan (rh w : Q) (bs : list Bubble) (ball : Point) :
  nearestEmptyCell rh w bs ball
  = fold_left (fun best rc => snapCell rh w bs ball (fst rc) best (snd rc))
              scanCells initBest.
Proof.
  unfold nearestEmptyCell, scanCells. rewrite fold_left_flat_map.
  apply fold_left_pointwise. intros best r. unfold snapRow.
  now rewrite fold_left_map.
Qed.

Lemma snap_all_occupied (rh w : Q) (bs : list Bubble) (ball : Point)
    (cells : list (Z * Z)) (best : Best) :
  forallb (fun rc => occupied bs (fst rc) (snd rc)) cells = true ->
  fold_left (fun best rc => snapCell rh w bs ball (fst rc) best (snd rc))
            cells best = best.
Proof.
  revert best. induction cells as [|rc cells IH]; intros best H; [reflexivity|].
  cbn in H. apply andb_prop in H. destruct H as [Hrc H].
  cbn [fold_left]. unfold snapCell at 2. rewrite Hrc. now apply IH.
Qed.

(** *** The full field

    Every cell of rows 0 to 10 holds an active bubble; the colours red, blue
    and green are laid out so that no two touching bubbles share one. *)

Definition crowdedColor (r c : Z) : BubbleColor :=
  match (c - r / 2 - r) mod 3 with
  | 0 => red
  | 1 => blue
  | _ => green
  end.

Definition crowdedField (rh w : Q) : list Bubble :=
  map (fun rc =>
         let p := getBubblePos rh (fst rc) (snd rc) w in
         {| id := string_of_Z (fst rc) ++ "-" ++ string_of_Z (snd rc);
            row := fst rc; col := snd rc; x := px p; y := py p;
            color := crowdedColor (fst rc) (snd rc); active := true |})
      scanCells.

Definition crowdedState (rh w : Q) : GameState :=
  {| bubbles := crowdedField rh w; score := 0; celebrationWord := None |}.

Lemma crowdedField_occupied (rh w : Q) :
  forallb (fun rc => occupied (crowdedField rh w) (fst rc) (snd rc)) scanCells
  = true.
Proof. vm_compute. reflexivity. Qed.

(** The snap on the full field, from any impact point, ends on cell (0, 0),
    which an active bubble holds (the failing input of C2). *)
Theorem nearestEmptyCell_full_field (rh w : Q) (ball : Point) :
  nearestEmptyCell rh w (crowdedField rh w) ball = initBest /\
  occupied (crowdedField rh w) (bestRow initBest) (bestCol initBest) = true.
Proof.
  split.
  - rewrite nearestEmptyCell_scan. apply snap_all_occupied.
    apply crowdedField_occupied.
  - vm_compute. reflexivity.
Qed.

(** ** The field invariant *)

Definition cell_eqb (a b : Z * Z) : bool :=
  (fst a =? fst b) && (snd a =? snd b).

Fixpoint distinctCells (l : list (Z * Z)) : bool :=
  match l with
  | [] => true
  | a :: l' => negb (existsb (cell_eqb a) l') && distinctCells l'
  end.

Lemma cell_eqb_eq (a b : Z * Z) : cell_eqb a b = true <-> a = b.
Proof.
  destruct a as [a1 a2], b as [b1 b2]. unfold cell_eqb. cbn.
  rewrite andb_true_iff, !Z.eqb_eq. split; [intros [-> ->] | intros [= -> ->]]; auto.
Qed.

Lemma existsb_cell_In (a : Z * Z) (l : list (Z * Z)) :
  existsb (cell_eqb a) l = true <-> In a l.
Proof.
  rewrite existsb_exists. split.
  - intros [b [Hin Hb]]. apply cell_eqb_eq in Hb. now subst.
  - intros Hin. exists a. split; [assumption | now apply cell_eqb_eq].
Qed.

Lemma distinctCells_NoDup (l : list (Z * Z)) :
  distinctCells l = true <-> NoDup l.
Proof.
  induction l as [|a l IH]; cbn.
  - split; [constructor | reflexivity].
  - rewrite andb_true_iff, negb_true_iff, IH, NoDup_cons_iff.
    rewrite <- not_true_iff_false, existsb_cell_In. reflexivity.
Qed.

Lemma occupied_In (bs : list Bubble) (r c : Z) :
  occupied bs r c = true <-> In (r, c) (map cell (filter active bs)).
Proof.
  unfold occupied. rewrite existsb_exists, in_map_iff. split.
  - intros [b [Hin Hb]]. apply andb_prop in Hb. destruct Hb as [Hb Hc].
    apply andb_prop in Hb. destruct Hb as [Ha Hr].
    apply Z.eqb_eq in Hr, Hc. exists b. split.
    + unfold cell. congruence.
    + apply filter_In. auto.
  - intros [b [Hcell Hin]]. apply filter_In in Hin. destruct Hin as [Hin Ha].
    exists b. split; [assumption|]. unfold cell in Hcell.
    injection Hcell as <- <-. now rewrite Ha, !Z.eqb_refl.
Qed.

Lemma noOverlap_push (bs : list Bubble) (nb : Bubble) :
  noOverlap bs -> occupied bs (row nb) (col nb) = false ->
  noOverlap (bs ++ [nb]).
Proof.
  unfold noOverlap. intros Hn Hocc. rewrite filter_app, map_app.
  apply NoDup_app; auto.
  - cbn. destruct (active nb); cbn; repeat constructor. intros [].
  - intros rc Hin Hnb. cbn in Hnb. destruct (active nb); cbn in Hnb; [|contradiction].
    destruct Hnb as [<-|[]]. apply occupied_In in Hin. unfold cell in Hin.
    cbn in Hin. congruence.
Qed.

Lemma active_cells_deactivateAt (k : nat) :
  forall bs rc,
    In rc (map cell (filter active (deactivateAt k bs))) ->
    In rc (map cell (filter active bs)).
Proof.
  induction k as [|k IH]; intros [|b bs] rc; cbn; auto.
  - destruct (active b); cbn; auto.
  - destruct (active b); cbn; [intros [H|H]|]; auto.
Qed.

Lemma noOverlap_deactivateAt (k : nat) :
  forall bs, noOverlap bs -> noOverlap (deactivateAt k bs).
Proof.
  unfold noOverlap.
  induction k as [|k IH]; intros [|b bs]; cbn; auto.
  - destruct (active b); cbn; auto. intros H. now apply NoDup_cons_iff in H.
  - destruct (active b); cbn; auto. intros H.
    apply NoDup_cons_iff in H. destruct H as [Hnot Hnd].
    constructor; auto. intros Hin. apply Hnot.
    now apply active_cells_deactivateAt with k.
Qed.

Lemma noOverlap_deactivateAll (ms : list nat) :
  forall bs,
    noOverlap bs ->
    noOverlap (fold_left (fun acc k => deactivateAt k acc) ms bs).
Proof.
  induction ms as [|k ms IH]; intros bs H; cbn; auto.
  apply IH. now apply noOverlap_deactivateAt.
Qed.

(** Match resolution keeps the invariant, whichever bubble it starts from. *)
Lemma checkMatches_noOverlap (st st' : GameState) (start : nat) (r : bool) :
  noOverlap (bubbles st) ->
  checkMatches st start = Some (st', r) ->
  noOverlap (bubbles st').
Proof.
  intros Hn. unfold checkMatches.
  destruct (nth_error (bubbles st) start) as [b|]; [|discriminate].
  destruct (findMatches (bubbles st) start) as [ms|]; [|discriminate].
  destruct (3 <=? length ms)%nat.
  - rewrite explode_fold. intros [= <- _]. cbn.
    now apply noOverlap_deactivateAll.
  - now intros [= <- _].
Qed.

(** The traversal ends within its fuel from any stack of valid references:
    match resolution always returns. *)
Lemma matchLoop_total (bs : list Bubble) (c : BubbleColor) (fuel : nat) :
  forall toCheck visited matches,
    (forall k, In k toCheck -> (k < length bs)%nat) ->
    (potential bs toCheck visited <= fuel)%nat ->
    exists ms, matchLoop fuel bs c toCheck visited matches = Some ms.
Proof.
  induction fuel as [|fuel IH]; intros toCheck v m Hval Hpot;
    destruct toCheck as [|cur rest]; try (eexists; reflexivity).
  - unfold potential in Hpot. cbn in Hpot. lia.
  - cbn [matchLoop].
    assert (Hlt : (cur < length bs)%nat) by (apply Hval; now left).
    destruct (nth_error bs cur) as [b|] eqn:Hb;
      [|apply nth_error_None in Hb; lia].
    unfold potential in Hpot. cbn [length] in Hpot.
    assert (Hrest : forall k, In k rest -> (k < length bs)%nat)
      by (intros k Hk; apply Hval; now right).
    destruct (has v (id b)) eqn:Hv.
    + apply IH; auto. unfold potential. lia.
    + pose proof (unvisited_cons bs cur b v Hb Hv) as Hu.
      destruct (BubbleColor_eqb (color b) c).
      * apply IH.
        -- intros k Hk. apply in_app_or in Hk. destruct Hk as [Hk|Hk]; auto.
           apply in_rev, neighborsOf_In in Hk. destruct Hk as [bk [Hbk _]].
           apply nth_error_Some. congruence.
        -- unfold potential. rewrite length_app, length_rev.
           pose proof (neighborsOf_length bs (id b :: v) b). nia.
      * apply IH; auto. unfold potential. nia.
Qed.

Lemma checkMatches_total (st : GameState) (start : nat) :
  (start < length (bubbles st))%nat ->
  exists st' r, checkMatches st start = Some (st', r).
Proof.
  intros Hlt. unfold checkMatches, findMatches.
  destruct (nth_error (bubbles st) start) as [b|] eqn:Hb;
    [|apply nth_error_None in Hb; lia].
  destruct (matchLoop_total (bubbles st) (color b) (matchFuel (length (bubbles st)))
              [start] [] []) as [ms Hms].
  - intros k [<-|[]]. exact Hlt.
  - unfold potential, unvisited, matchFuel. cbn [length].
    pose proof (filter_length_le (fun b0 => negb (has [] (id b0))) (bubbles st)).
    nia.
  - rewrite Hms. destruct (3 <=? length ms)%nat; eauto.
Qed.

(** A shot always lands: [placeShot] returns a state. *)
Lemma placeShot_total (rh w : Q) (now : Z) (k : BubbleColor) (ball : Point)
    (st : GameState) :
  exists st', placeShot rh w now k ball st = Some st'.
Proof.
  unfold placeShot.
  edestruct checkMatches_total as (st' & r & H); [|rewrite H; cbn; eauto].
  cbn. rewrite length_app. cbn. lia.
Qed.

(** The full field with a red bubble pushed at the cell the snap ends on. *)
Definition crowdedAfterShot (rh w : Q) : GameState :=
  {| bubbles := crowdedField rh w ++ [newBubbleAt initBest 1730000000000 red];
     score := 0; celebrationWord := None |}.

Lemma crowdedField_length (rh w : Q) : length (crowdedField rh w) = 171%nat.
Proof. unfold crowdedField. rewrite length_map. vm_compute. reflexivity. Qed.

Lemma crowdedAfterShot_findMatches (rh w : Q) :
  findMatches (bubbles (crowdedAfterShot rh w)) 171 = Some [171%nat].
Proof. vm_compute. reflexivity. Qed.

Lemma crowdedAfterShot_checkMatches (rh w : Q) :
  checkMatches (crowdedAfterShot rh w) 171
  = Some (crowdedAfterShot rh w, false).
Proof.
  unfold checkMatches. rewrite crowdedAfterShot_findMatches.
  unfold crowdedAfterShot at 1. cbn [bubbles].
  rewrite nth_error_app2; rewrite crowdedField_length; [|lia].
  reflexivity.
Qed.

(** A shot at the full field, red selected, from any impact point: the field
    satisfies the invariant before the shot, and after it two active bubbles
    share cell (0, 0) (the failing input of C9). *)
Theorem placeShot_full_field_overlaps (rh w : Q) (ball : Point) :
  noOverlap (crowdedField rh w) /\
  placeShot rh w 1730000000000 red ball (crowdedState rh w)
  = Some (crowdedAfterShot rh w) /\
  ~ noOverlap (bubbles (crowdedAfterShot rh w)).
Proof.
  split; [|split].
  - apply distinctCells_NoDup. vm_compute. reflexivity.
  - unfold placeShot.
    assert (E : nearestEmptyCell rh w (crowdedField rh w) ball = initBest).
    { rewrite nearestEmptyCell_scan. apply snap_all_occupied.
      apply crowdedField_occupied. }
    change (bubbles (crowdedState rh w)) with (crowdedField rh w).
    rewrite E, crowdedField_length.
    change {| bubbles := crowdedField rh w
                         ++ [newBubbleAt initBest 1730000000000 red];
              score := score (crowdedState rh w);
              celebrationWord := celebrationWord (crowdedState rh w) |}
      with (crowdedAfterShot rh w).
    now rewrite crowdedAfterShot_checkMatches.
  - intros H. apply distinctCells_NoDup in H. vm_compute in H. discriminate.
Qed.

(** *** The scan while a free cell exists *)

Lemma range_In (n z : Z) : In z (range n) <-> 0 <= z < n.
Proof.
  unfold range. rewrite in_map_iff. split.
  - intros [k [<- Hk]]. apply in_seq in Hk. lia.
  - intros Hz. exists (Z.to_nat z). split; [lia|]. apply in_seq. lia.
Qed.

Lemma scanCells_In (r c : Z) :
  In (r, c) scanCells <-> 0 <= r < GRID_ROWS + 5 /\ 0 <= c < colsInRow r.
Proof.
  unfold scanCells. rewrite in_flat_map. split.
  - intros [r' [Hr Hc]]. apply in_map_iff in Hc.
    destruct Hc as [c' [[= <- <-] Hc]]. apply range_In in Hr, Hc. auto.
  - intros [Hr Hc]. exists r. split; [now apply range_In|].
    apply in_map. now apply range_In.
Qed.

Lemma Qltb_lt (a b : Q) : Qltb a b = true <-> (a < b)%Q.
Proof.
  unfold Qltb. rewrite negb_true_iff, <- not_true_iff_false, Qle_bool_iff.
  split; [apply Qnot_le_lt | apply Qlt_not_le].
Qed.

Lemma Qltb_ge (a b : Q) : Qltb a b = false <-> (b <= a)%Q.
Proof.
  unfold Qltb. now rewrite negb_false_iff, Qle_bool_iff.
Qed.

(** The square of the distance from the ball to the centre of a cell. *)
Definition cellDistSq (rh w : Q) (ball : Point) (rc : Z * Z) : Q :=
  let p := getBubblePos rh (fst rc) (snd rc) w in
  distSq (px ball) (py ball) (px p) (py p).

(** What the [best...] variables hold once the cells [seen] are scanned. *)
Definition ScanInv (rh w : Q) (bs : list Bubble) (ball : Point)
    (seen : list (Z * Z)) (best : Best) : Prop :=
  match bestDist best with
  | None =>
      best = initBest /\
      forall rc, In rc seen -> occupied bs (fst rc) (snd rc) = true
  | Some d =>
      In (bestRow best, bestCol best) seen /\
      occupied bs (bestRow best) (bestCol best) = false /\
      d = cellDistSq rh w ball (bestRow best, bestCol best) /\
      bestX best = px (getBubblePos rh (bestRow best) (bestCol best) w) /\
      bestY best = py (getBubblePos rh (bestRow best) (bestCol best) w) /\
      forall rc, In rc seen -> occupied bs (fst rc) (snd rc) = false ->
                 (d <= cellDistSq rh w ball rc)%Q
  end.

Lemma snapCell_eq (rh w : Q) (bs : list Bubble) (ball : Point)
    (r c : Z) (best : Best) :
  snapCell rh w bs ball r best c =
  if occupied bs r c then best
  else if closer (cellDistSq rh w ball (r, c)) (bestDist best) then
    {| bestDist := Some (cellDistSq rh w ball (r, c));
       bestRow := r; bestCol := c;
       bestX := px (getBubblePos rh r c w);
       bestY := py (getBubblePos rh r c w) |}
  else best.
Proof. reflexivity. Qed.

Lemma ScanInv_step (rh w : Q) (bs : list Bubble) (ball : Point)
    (seen : list (Z * Z)) (best : Best) (rc : Z * Z) :
  ScanInv rh w bs ball seen best ->
  ScanInv rh w bs ball (seen ++ [rc])
          (snapCell rh w bs ball (fst rc) best (snd rc)).
Proof.
  destruct rc as [r c]. cbn [fst snd]. rewrite snapCell_eq. unfold ScanInv.
  destruct (occupied bs r c) eqn:Hocc.
  - destruct (bestDist best) as [d|].
    + intros (Hin & Hfree & Hd & Hx & Hy & Hmin).
      refine (conj _ (conj Hfree (conj Hd (conj Hx (conj Hy _))))).
      * apply in_or_app. now left.
      * intros rc' Hrc' Hfree'. apply in_app_or in Hrc'.
        destruct Hrc' as [Hrc'|[<-|[]]]; auto. cbn in Hfree'. congruence.
    + intros [Hb Hall]. split; auto. intros rc' Hrc'.
      apply in_app_or in Hrc'. destruct Hrc' as [Hrc'|[<-|[]]]; auto.
  - destruct (bestDist best) as [d|] eqn:Hbd; cbn [closer].
    + intros (Hin & Hfree & Hd & Hx & Hy & Hmin).
      destruct (Qltb (cellDistSq rh w ball (r, c)) d) eqn:Hlt.
      * cbn [bestDist bestRow bestCol bestX bestY].
        refine (conj _ (conj Hocc (conj eq_refl (conj eq_refl (conj eq_refl _))))).
        -- apply in_or_app. right. now left.
        -- intros rc' Hrc' Hfree'. apply in_app_or in Hrc'.
           destruct Hrc' as [Hrc'|[<-|[]]]; [|apply Qle_refl].
           apply Qltb_lt in Hlt. apply Qlt_le_weak.
           eapply Qlt_le_trans; [exact Hlt | now apply Hmin].
      * rewrite Hbd.
        refine (conj _ (conj Hfree (conj Hd (conj Hx (conj Hy _))))).
        -- apply in_or_app. now left.
        -- intros rc' Hrc' Hfree'. apply in_app_or in Hrc'.
           destruct Hrc' as [Hrc'|[<-|[]]]; auto. now apply Qltb_ge.
    + intros [Hb Hall]. cbn [bestDist bestRow bestCol bestX bestY].
      refine (conj _ (conj Hocc (conj eq_refl (conj eq_refl (conj eq_refl _))))).
      * apply in_or_app. right. now left.
      * intros rc' Hrc' Hfree'. apply in_app_or in Hrc'.
        destruct Hrc' as [Hrc'|[<-|[]]]; [|apply Qle_refl].
        rewrite (Hall rc' Hrc') in Hfree'. discriminate.
Qed.

Lemma ScanInv_fold (rh w : Q) (bs : list Bubble) (ball : Point)
    (cells : list (Z * Z)) :
  forall seen best,
    ScanInv rh w bs ball seen best ->
    ScanInv rh w bs ball (seen ++ cells)
      (fold_left (fun best rc => snapCell rh w bs ball (fst rc) best (snd rc))
                 cells best).
Proof.
  induction cells as [|rc cells IH]; intros seen best H; cbn [fold_left].
  - now rewrite app_nil_r.
  - replace (seen ++ rc :: cells) with ((seen ++ [rc]) ++ cells)
      by (now rewrite <- app_assoc).
    apply IH. now apply ScanInv_step.
Qed.

Lemma nearestEmptyCell_ScanInv (rh w : Q) (bs : list Bubble) (ball : Point) :
  ScanInv rh w bs ball scanCells (nearestEmptyCell rh w bs ball).
Proof.
  rewrite nearestEmptyCell_scan.
  apply (ScanInv_fold rh w bs ball scanCells [] initBest).
  cbn. split; [reflexivity | intros rc []].
Qed.

Lemma cellDistSq_eq (rh w : Q) (ball : Point) (r c : Z) :
  cellDistSq rh w ball (r, c)
  = distSq (px ball) (py ball)
           (px (getBubblePos rh r c w)) (py (getBubblePos rh r c w)).
Proof. reflexivity. Qed.

Lemma ScanInv_result (rh w : Q) (bs : list Bubble) (ball : Point)
    (best : Best) (r0 c0 : Z) :
  ScanInv rh w bs ball scanCells best ->
  In (r0, c0) scanCells -> occupied bs r0 c0 = false ->
  In (bestRow best, bestCol best) scanCells /\
  occupied bs (bestRow best) (bestCol best) = false /\
  bestX best = px (getBubblePos rh (bestRow best) (bestCol best) w) /\
  bestY best = py (getBubblePos rh (bestRow best) (bestCol best) w) /\
  forall r c,
    In (r, c) scanCells -> occupied bs r c = false ->
    (distSq (px ball) (py ball) (bestX best) (bestY best)
     <= distSq (px ball) (py ball)
               (px (getBubblePos rh r c w)) (py (getBubblePos rh r c w)))%Q.
Proof.
  intros H Hin0 Hfree0. unfold ScanInv in H.
  destruct (bestDist best) as [d|].
  - destruct H as (Hin & Hfree & Hd & Hx & Hy & Hmin).
    split; [exact Hin|].
    split; [exact Hfree|]. split; [exact Hx|]. split; [exact Hy|].
    intros r c Hrc Hf. rewrite Hx, Hy.
    specialize (Hmin (r, c) Hrc Hf). rewrite Hd in Hmin.
    rewrite !cellDistSq_eq in Hmin. exact Hmin.
  - destruct H as [_ Hall].
    specialize (Hall _ Hin0). cbn [fst snd] in Hall.
    rewrite Hall in Hfree0. discriminate Hfree0.
Qed.

(** *** Ties

    The test [dist < bestDist] is strict, so of two free cells at the same
    distance the one scanned first is kept. *)

(** The cell the scan holds splits the cells seen, and the free ones seen
    before it are farther than it, strictly. *)
Definition ScanFirst (rh w : Q) (bs : list Bubble) (ball : Point)
    (seen : list (Z * Z)) (best : Best) : Prop :=
  match bestDist best with
  | None => True
  | Some d =>
      exists before after,
        seen = before ++ (bestRow best, bestCol best) :: after /\
        forall rc, In rc before -> occupied bs (fst rc) (snd rc) = false ->
                   (d < cellDistSq rh w ball rc)%Q
  end.

Lemma ScanFirst_step (rh w : Q) (bs : list Bubble) (ball : Point)
    (seen : list (Z * Z)) (best : Best) (rc : Z * Z) :
  ScanInv rh w bs ball seen best ->
  ScanFirst rh w bs ball seen best ->
  ScanFirst rh w bs ball (seen ++ [rc])
            (snapCell rh w bs ball (fst rc) best (snd rc)).
Proof.
  destruct rc as [r c]. cbn [fst snd]. rewrite snapCell_eq.
  unfold ScanInv, ScanFirst. intros Hinv Hfirst.
  assert (Hkeep : match bestDist best with
                  | None => True
                  | Some d =>
                      exists before after,
                        seen ++ [(r, c)]
                        = before ++ (bestRow best, bestCol best) :: after /\
                        forall rc, In rc before ->
                                   occupied bs (fst rc) (snd rc) = false ->
                                   (d < cellDistSq rh w ball rc)%Q
                  end).
  { destruct (bestDist best) as [d|]; [|exact I].
    destruct Hfirst as (before & after & E & Hb).
    exists before, (after ++ [(r, c)]). split; [|exact Hb].
    rewrite E, <- app_assoc. reflexivity. }
  assert (Hnew : forall d',
             (forall rc', In rc' seen ->
                          occupied bs (fst rc') (snd rc') = false ->
                          (d' < cellDistSq rh w ball rc')%Q) ->
             exists before after,
               seen ++ [(r, c)] = before ++ (r, c) :: after /\
               forall rc', In rc' before ->
                           occupied bs (fst rc') (snd rc') = false ->
                           (d' < cellDistSq rh w ball rc')%Q).
  { intros d' H. exists seen, []. auto. }
  destruct (occupied bs r c); [exact Hkeep|].
  destruct (bestDist best) as [d|] eqn:Hbd; cbn [closer].
  - destruct (Qltb (cellDistSq rh w ball (r, c)) d) eqn:Hlt.
    + cbn [bestDist bestRow bestCol]. apply Hnew.
      destruct Hinv as (_ & _ & _ & _ & _ & Hmin).
      intros rc' Hrc' Hfree'. apply Qltb_lt in Hlt.
      eapply Qlt_le_trans; [exact Hlt | now apply Hmin].
    + rewrite Hbd. exact Hkeep.
  - cbn [bestDist bestRow bestCol]. apply Hnew.
    destruct Hinv as [_ Hall]. intros rc' Hrc' Hfree'.
    rewrite (Hall rc' Hrc') in Hfree'. discriminate.
Qed.

Lemma ScanFirst_fold (rh w : Q) (bs : list Bubble) (ball : Point)
    (cells : list (Z * Z)) :
  forall seen best,
    ScanInv rh w bs ball seen best ->
    ScanFirst rh w bs ball seen best ->
    ScanFirst rh w bs ball (seen ++ cells)
      (fold_left (fun best rc => snapCell rh w bs ball (fst rc) best (snd rc))
                 cells best).
Proof.
  induction cells as [|rc cells IH]; intros seen best Hinv Hfirst;
    cbn [fold_left].
  - now rewrite app_nil_r.
  - replace (seen ++ rc :: cells) with ((seen ++ [rc]) ++ cells)
      by (now rewrite <- app_assoc).
    apply IH; [now apply ScanInv_step | now apply ScanFirst_step].
Qed.

Lemma nearestEmptyCell_ScanFirst (rh w : Q) (bs : list Bubble) (ball : Point) :
  ScanFirst rh w bs ball scanCells (nearestEmptyCell rh w bs ball).
Proof.
  rewrite nearestEmptyCell_scan.
  apply (ScanFirst_fold rh w bs ball scanCells [] initBest).
  - cbn. split; [reflexivity | intros rc []].
  - exact I.
Qed.

(** The scan goes through the rows upwards and through each row's columns
    upwards. *)
Definition scannedBefore (a b : Z * Z) : Prop :=
  fst a < fst b \/ (fst a = fst b /\ snd a < snd b).

Definition scannedBeforeb (a b : Z * Z) : bool :=
  (fst a <? fst b) || ((fst a =? fst b) && (snd a <? snd b)).

Fixpoint inScanOrder (l : list (Z * Z)) : bool :=
  match l with
  | [] => true
  | a :: l' => forallb (scannedBeforeb a) l' && inScanOrder l'
  end.

Lemma scannedBeforeb_spec (a b : Z * Z) :
  scannedBeforeb a b = true <-> scannedBefore a b.
Proof.
  unfold scannedBeforeb, scannedBefore.
  rewrite orb_true_iff, andb_true_iff, !Z.ltb_lt, Z.eqb_eq. reflexivity.
Qed.

Lemma inScanOrder_after (before after : list (Z * Z)) (b : Z * Z) :
  inScanOrder (before ++ b :: after) = true ->
  forall a, In a after -> scannedBefore b a.
Proof.
  induction before as [|h before IH]; cbn; intros H a Ha;
    apply andb_prop in H; destruct H as [Hh H].
  - apply scannedBeforeb_spec. rewrite forallb_forall in Hh. now apply Hh.
  - now apply IH.
Qed.

Lemma scanCells_before (before after : list (Z * Z)) (b a : Z * Z) :
  scanCells = before ++ b :: after ->
  In a scanCells -> scannedBefore a b -> In a before.
Proof.
  intros E Ha Hab.
  assert (Hord : inScanOrder scanCells = true) by (vm_compute; reflexivity).
  rewrite E in Ha, Hord. apply in_app_or in Ha.
  destruct Ha as [Ha|[<-|Ha]]; [exact Ha | |].
  - exfalso. unfold scannedBefore in Hab. lia.
  - exfalso. pose proof (inScanOrder_after _ _ _ Hord a Ha) as Hba.
    unfold scannedBefore in Hab, Hba. lia.
Qed.

Lemma ScanFirst_result (rh w : Q) (bs : list Bubble) (ball : Point)
    (best : Best) (r0 c0 : Z) :
  ScanInv rh w bs ball scanCells best ->
  ScanFirst rh w bs ball scanCells best ->
  In (r0, c0) scanCells -> occupied bs r0 c0 = false ->
  forall r c,
    In (r, c) scanCells -> occupied bs r c = false ->
    scannedBefore (r, c) (bestRow best, bestCol best) ->
    (distSq (px ball) (py ball) (bestX best) (bestY best)
     < distSq (px ball) (py ball)
              (px (getBubblePos rh r c w)) (py (getBubblePos rh r c w)))%Q.
Proof.
  intros Hinv Hfirst Hin0 Hfree0 r c Hin Hfree Hbefore.
  unfold ScanInv in Hinv. unfold ScanFirst in Hfirst.
  destruct (bestDist best) as [d|].
  - destruct Hinv as (_ & _ & Hd & Hx & Hy & _).
    destruct Hfirst as (before & after & E & Hb).
    pose proof (scanCells_before _ _ _ _ E Hin Hbefore) as Hrc.
    specialize (Hb (r, c) Hrc Hfree). rewrite Hd in Hb.
    rewrite !cellDistSq_eq in Hb. rewrite Hx, Hy. exact Hb.
  - destruct Hinv as [_ Hall].
    specialize (Hall _ Hin0). cbn [fst snd] in Hall.
    rewrite Hall in Hfree0. discriminate Hfree0.
Qed.

(** While some cell of rows 0 to 10 is free, the snap selects a free cell of
    those rows, keeps that cell's position, no free cell of those rows is
    closer to the ball, and every free cell scanned before the selected one
    (a lower row, or the same row and a lower column) is farther: of the
    nearest free cells the first in scan order is selected. *)
Theorem nearestEmptyCell_nearest_free
    (rh w : Q) (bs : list Bubble) (ball : Point) (r0 c0 : Z) :
  0 <= r0 < GRID_ROWS + 5 -> 0 <= c0 < colsInRow r0 ->
  occupied bs r0 c0 = false ->
  let best := nearestEmptyCell rh w bs ball in
  (0 <= bestRow best < GRID_ROWS + 5 /\
   0 <= bestCol best < colsInRow (bestRow best)) /\
  occupied bs (bestRow best) (bestCol best) = false /\
  bestX best = px (getBubblePos rh (bestRow best) (bestCol best) w) /\
  bestY best = py (getBubblePos rh (bestRow best) (bestCol best) w) /\
  (forall r c,
     0 <= r < GRID_ROWS + 5 -> 0 <= c < colsInRow r ->
     occupied bs r c = false ->
     (distSq (px ball) (py ball) (bestX best) (bestY best)
      <= distSq (px ball) (py ball)
                (px (getBubblePos rh r c w)) (py (getBubblePos rh r c w)))%Q) /\
  (forall r c,
     0 <= r < GRID_ROWS + 5 -> 0 <= c < colsInRow r ->
     occupied bs r c = false ->
     r < bestRow best \/ (r = bestRow best /\ c < bestCol best) ->
     (distSq (px ball) (py ball) (bestX best) (bestY best)
      < distSq (px ball) (py ball)
               (px (getBubblePos rh r c w)) (py (getBubblePos rh r c w)))%Q).
Proof.
  intros Hr0 Hc0 Hfree0 best.
  pose proof (proj2 (scanCells_In r0 c0) (conj Hr0 Hc0)) as Hin0.
  destruct (ScanInv_result rh w bs ball best r0 c0
              (nearestEmptyCell_ScanInv rh w bs ball) Hin0 Hfree0)
    as (Hin & Hfree & Hx & Hy & Hmin).
  split; [exact (proj1 (scanCells_In _ _) Hin)|].
  split; [exact Hfree|]. split; [exact Hx|]. split; [exact Hy|]. split.
  - intros r c Hr Hc Hf.
    exact (Hmin r c (proj2 (scanCells_In r c) (conj Hr Hc)) Hf).
  - intros r c Hr Hc Hf Hbefore.
    exact (ScanFirst_result rh w bs ball best r0 c0
             (nearestEmptyCell_ScanInv rh w bs ball)
             (nearestEmptyCell_ScanFirst rh w bs ball) Hin0 Hfree0
             r c (proj2 (scanCells_In r c) (conj Hr Hc)) Hf Hbefore).
Qed.

Lemma nearestEmptyCell_nearest_free_witness :
  let best := nearestEmptyCell (62 # 1) (1280 # 1) demoField
                               {| px := 100; py := 500 |} in
  (0 <= bestRow best < GRID_ROWS + 5 /\
   0 <= bestCol best < colsInRow (bestRow best)) /\
  occupied demoField (bestRow best) (bestCol best) = false /\
  bestX best = px (getBubblePos (62 # 1) (bestRow best) (bestCol best) (1280 # 1)) /\
  bestY best = py (getBubblePos (62 # 1) (bestRow best) (bestCol best) (1280 # 1)) /\
  (forall r c,
     0 <= r < GRID_ROWS + 5 -> 0 <= c < colsInRow r ->
     occupied demoField r c = false ->
     (distSq 100 500 (bestX best) (bestY best)
      <= distSq 100 500
                (px (getBubblePos (62 # 1) r c (1280 # 1)))
                (py (getBubblePos (62 # 1) r c (1280 # 1))))%Q) /\
  (forall r c,
     0 <= r < GRID_ROWS + 5 -> 0 <= c < colsInRow r ->
     occupied demoField r c = false ->
     r < bestRow best \/ (r = bestRow best /\ c < bestCol best) ->
     (distSq 100 500 (bestX best) (bestY best)
      < distSq 100 500
               (px (getBubblePos (62 # 1) r c (1280 # 1)))
               (py (getBubblePos (62 # 1) r c (1280 # 1))))%Q).
Proof.
  apply (nearestEmptyCell_nearest_free (62 # 1) (1280 # 1) demoField
           {| px := 100; py := 500 |} 5 5).
  - cbn. lia.
  - cbn. lia.
  - reflexivity.
Defined.

(** ** Line of sight *)

Lemma sampleIndices_In (steps i : Z) :
  In i (sampleIndices steps) <-> 1 <= i < steps - 2.
Proof.
  unfold sampleIndices. rewrite in_map_iff. split.
  - intros [k [<- Hk]]. apply in_seq in Hk. lia.
  - intros Hi. exists (Z.to_nat (i - 1)). split; [lia|]. apply in_seq. lia.
Qed.

Lemma sampleIndices_short (steps : Z) : steps <= 3 -> sampleIndices steps = [].
Proof.
  intros H. unfold sampleIndices.
  replace (Z.to_nat (steps - 3)) with 0%nat by lia. reflexivity.
Qed.

(** The square of [BUBBLE_RADIUS * 1.8]. *)
Definition reachSq : Q :=
  (inject_Z BUBBLE_RADIUS * (18 # 10)) * (inject_Z BUBBLE_RADIUS * (18 # 10)).

Lemma blocksAt_true (target : Bubble) (cx cy : Q) (b : Bubble) :
  blocksAt target cx cy b = true <->
  active b = true /\ id b <> id target /\
  (distSq cx cy (x b) (y b) < reachSq)%Q.
Proof.
  unfold blocksAt. fold reachSq.
  destruct (active b); cbn [negb orb].
  - destruct (String.eqb_spec (id b) (id target)) as [E|E].
    + split; [discriminate | intros (_ & H & _); contradiction].
    + rewrite Qltb_lt. tauto.
  - split; [discriminate | intros [H _]; discriminate].
Qed.

(** The squared length of the segment from the anchor to the target. *)
Definition segmentSq (a : Point) (target : Bubble) : Q :=
  (x target - px a) * (x target - px a) + (y target - py a) * (y target - py a).

Lemma isPathClear_false (a : Point) (bs : list Bubble) (target : Bubble) :
  isPathClear (Some a) bs target = false <->
  exists i b,
    1 <= i < pathSteps (segmentSq a target) - 2 /\ In b bs /\
    active b = true /\ id b <> id target /\
    (let p := samplePoint a target (pathSteps (segmentSq a target)) i in
     distSq (px p) (py p) (x b) (y b) < reachSq)%Q.
Proof.
  unfold isPathClear. fold (segmentSq a target).
  rewrite negb_false_iff, existsb_exists. split.
  - intros [i [Hi Hex]]. apply existsb_exists in Hex.
    destruct Hex as [b [Hb Hbl]]. apply blocksAt_true in Hbl.
    apply sampleIndices_In in Hi. exists i, b. tauto.
  - intros [i [b (Hi & Hb & Hbl)]]. exists i.
    split; [now apply sampleIndices_In|].
    apply existsb_exists. exists b. split; [assumption|].
    now apply blocksAt_true.
Qed.

(** [pathSteps d2] is [ceil (sqrt d2 / 18)]: the least [n >= 0] with
    [d2 <= (18 n)^2]. *)
Lemma pathSteps_spec (d2 : Q) :
  let n := pathSteps d2 in
  0 <= n /\
  (d2 <= inject_Z (324 * (n * n)))%Q /\
  (0 < n -> (inject_Z (324 * ((n - 1) * (n - 1))) < d2)%Q).
Proof.
  cbv zeta. unfold pathSteps.
  assert (Eh : (d2 / (inject_Z BUBBLE_RADIUS / 2 * (inject_Z BUBBLE_RADIUS / 2))
                == d2 / 324)%Q) by (unfold BUBBLE_RADIUS; field).
  rewrite Eh. clear Eh.
  set (m := Qceiling (d2 / 324)).
  pose proof (Qle_ceiling (d2 / 324)) as Hup.
  pose proof (Qceiling_lt (d2 / 324)) as Hlo. fold m in Hup, Hlo.
  assert (Hd : (d2 == d2 / 324 * 324)%Q) by field.
  assert (E324 : (inject_Z 324 == 324)%Q) by reflexivity.
  split; [apply Z.sqrt_up_nonneg|].
  destruct (Z.lt_ge_cases 0 m) as [Hm|Hm].
  - pose proof (Z.sqrt_up_spec m Hm) as [Hs1 Hs2].
    set (n := Z.sqrt_up m) in *. unfold Z.pred in Hs1. split.
    + rewrite inject_Z_mult.
      assert (inject_Z m <= inject_Z (n * n))%Q by (rewrite <- Zle_Qle; lia).
      rewrite E324. lra.
    + intros _. rewrite inject_Z_mult.
      assert (inject_Z ((n + -1) * (n + -1)) <= inject_Z (m - 1))%Q
        by (rewrite <- Zle_Qle; lia).
      replace ((n - 1) * (n - 1)) with ((n + -1) * (n + -1)) by lia.
      rewrite E324. lra.
  - rewrite (Z.sqrt_up_eqn0 m Hm). split; [|lia].
    assert (inject_Z m <= 0)%Q by (change 0%Q with (inject_Z 0); rewrite <- Zle_Qle; lia).
    change (inject_Z (324 * (0 * 0))) with 0%Q. lra.
Qed.

Lemma Qsquare_nonneg (q : Q) : (0 <= q * q)%Q.
Proof. destruct (Qlt_le_dec q 0); nra. Qed.

Lemma segmentSq_nonneg (a : Point) (target : Bubble) :
  (0 <= segmentSq a target)%Q.
Proof.
  unfold segmentSq.
  pose proof (Qsquare_nonneg (x target - px a)).
  pose proof (Qsquare_nonneg (y target - py a)). lra.
Qed.

(** On a segment of four steps or more, some sample lies within nine units
    of the midpoint, well inside the blocking reach. *)
Lemma midpoint_sample_near (a : Point) (target b : Bubble) :
  4 <= pathSteps (segmentSq a target) ->
  (x b == (px a + x target) / 2)%Q -> (y b == (py a + y target) / 2)%Q ->
  exists i,
    1 <= i < pathSteps (segmentSq a target) - 2 /\
    (let p := samplePoint a target (pathSteps (segmentSq a target)) i in
     distSq (px p) (py p) (x b) (y b) < reachSq)%Q.
Proof.
  intros Hn Hx Hy.
  destruct (pathSteps_spec (segmentSq a target)) as (_ & Hup & _).
  set (n := pathSteps (segmentSq a target)) in *.
  set (i := if n =? 4 then 1 else n / 2).
  assert (Hi : 1 <= i < n - 2 /\ (2 * i - n) * (2 * i - n) <= 4).
  { unfold i. destruct (Z.eqb_spec n 4) as [->|Hne]; [lia|].
    pose proof (Z.div_mod n 2 ltac:(lia)).
    pose proof (Z.mod_pos_bound n 2 ltac:(lia)). nia. }
  destruct Hi as [Hi Hk]. exists i. split; [exact Hi|].
  cbv zeta. unfold samplePoint, distSq. cbn [px py]. rewrite Hx, Hy.
  assert (Hs : (4 <= inject_Z n)%Q)
    by (change 4%Q with (inject_Z 4); rewrite <- Zle_Qle; exact Hn).
  assert (Hk' : (inject_Z (2 * i - n) * inject_Z (2 * i - n) <= 4)%Q).
  { rewrite <- inject_Z_mult. change 4%Q with (inject_Z 4).
    rewrite <- Zle_Qle. exact Hk. }
  assert (Ek : (inject_Z (2 * i - n) == 2 * inject_Z i - inject_Z n)%Q).
  { unfold Z.sub. rewrite inject_Z_plus, inject_Z_mult, inject_Z_opp.
    change (inject_Z 2) with 2%Q. ring. }
  rewrite Ek in Hk'. clear Ek.
  rewrite inject_Z_mult, inject_Z_mult in Hup.
  change (inject_Z 324) with 324%Q in Hup.
  unfold segmentSq in Hup.
  set (dx := (x target - px a)%Q) in *. set (dy := (y target - py a)%Q) in *.
  set (s := inject_Z n) in *. set (q := inject_Z i) in *.
  assert (Hpos : (0 < 4 * (s * s))%Q) by nra.
  pose proof (Qsquare_nonneg dx) as Hdx. pose proof (Qsquare_nonneg dy) as Hdy.
  apply (Qmult_lt_r _ _ _ Hpos).
  assert (E : ((((px a + dx * (q / s) - (px a + x target) / 2)
                 * (px a + dx * (q / s) - (px a + x target) / 2)
                 + (py a + dy * (q / s) - (py a + y target) / 2)
                   * (py a + dy * (q / s) - (py a + y target) / 2))
                * (4 * (s * s)))
               == (dx * dx + dy * dy) * ((2 * q - s) * (2 * q - s)))%Q).
  { unfold dx, dy. field. intros Hz. rewrite Hz in Hs. lra. }
  rewrite E. clear E.
  assert (Hr : (reachSq == 419904 # 100)%Q) by reflexivity.
  rewrite Hr.
  assert (Hd : (0 <= dx * dx + dy * dy)%Q) by lra.
  revert Hd Hup Hk' Hs. generalize (dx * dx + dy * dy)%Q (2 * q - s)%Q.
  intros D K Hd Hup Hk' Hs. nra.
Qed.

(** C8 (amended): what the line-of-sight check samples and when it blocks.
    With [steps = ceil (distance / (BUBBLE_RADIUS / 2))], the check looks at
    the points [anchor + (target - anchor) * i / steps] for
    [1 <= i < steps - 2]; it reports the path blocked exactly when one of
    them is nearer than [1.8 * BUBBLE_RADIUS] to an active bubble whose id is
    not the target's; so a target with no such bubble near any sample is
    clear; and an active bubble with another id at the midpoint of the
    segment blocks the path whenever the segment has at least four steps. *)
Theorem isPathClear_samples_and_blockers
    (a : Point) (bs : list Bubble) (target : Bubble) :
  let steps := pathSteps (segmentSq a target) in
  let sample := samplePoint a target steps in
  (0 <= steps /\
   (segmentSq a target <= inject_Z (324 * (steps * steps)))%Q /\
   (0 < steps ->
    (inject_Z (324 * ((steps - 1) * (steps - 1))) < segmentSq a target)%Q)) /\
  (isPathClear (Some a) bs target = false <->
   exists i b,
     1 <= i < steps - 2 /\ In b bs /\ active b = true /\
     id b <> id target /\
     (distSq (px (sample i)) (py (sample i)) (x b) (y b) < reachSq)%Q) /\
  ((forall i b,
      1 <= i < steps - 2 -> In b bs -> active b = true ->
      id b <> id target ->
      (reachSq <= distSq (px (sample i)) (py (sample i)) (x b) (y b))%Q) ->
   isPathClear (Some a) bs target = true) /\
  (forall b,
     4 <= steps -> In b bs -> active b = true -> id b <> id target ->
     (x b == (px a + x target) / 2)%Q -> (y b == (py a + y target) / 2)%Q ->
     isPathClear (Some a) bs target = false).
Proof.
  cbv zeta. split; [apply pathSteps_spec|]. split; [apply isPathClear_false|].
  split.
  - intros Hfar.
    destruct (isPathClear (Some a) bs target) eqn:E; [reflexivity|].
    apply isPathClear_false in E.
    destruct E as (i & b & Hi & Hb & Ha & Hid & Hlt). cbv zeta in Hlt.
    specialize (Hfar i b Hi Hb Ha Hid).
    exfalso. apply (Qlt_not_le _ _ Hlt). exact Hfar.
  - intros b Hn Hb Ha Hid Hx Hy. apply isPathClear_false.
    destruct (midpoint_sample_near a target b Hn Hx Hy) as [i [Hi Hlt]].
    exists i, b. auto.
Qed.

(** *** Worked segments: a long one and a short one, each with an active
    bubble at its midpoint. *)

Definition origin : Point := {| px := 0; py := 0 |}.

Definition pathBubble (i : string) (px0 : Q) : Bubble :=
  {| id := i; row := 0; col := 0; x := px0; y := 0; color := red;
     active := true |}.

Definition farTarget : Bubble := pathBubble "target" 360.
Definition farBlocker : Bubble := pathBubble "blocker" 180.
Definition nearTarget : Bubble := pathBubble "target" 36.
Definition nearBlocker : Bubble := pathBubble "blocker" 18.

Lemma isPathClear_samples_and_blockers_witness :
  isPathClear (Some origin) [farTarget; farBlocker] farTarget = false.
Proof.
  apply (proj2 (proj2 (proj2
           (isPathClear_samples_and_blockers origin
              [farTarget; farBlocker] farTarget))) farBlocker).
  - vm_compute. discriminate.
  - right. left. reflexivity.
  - reflexivity.
  - discriminate.
  - reflexivity.
  - reflexivity.
Defined.

(** The claim C8 as written fails on the short segment: an active bubble
    with another id sits exactly at the midpoint, and the path is reported
    clear. *)
Lemma isPathClear_midpoint_blocker_ignored :
  (x nearBlocker == (px origin + x nearTarget) / 2)%Q /\
  (y nearBlocker == (py origin + y nearTarget) / 2)%Q /\
  active nearBlocker = true /\
  id nearBlocker <> id nearTarget /\
  isPathClear (Some origin) [nearTarget; nearBlocker] nearTarget = true.
Proof.
  repeat split; try reflexivity. discriminate.
Qed.

(** C10: a target within three sample steps of the anchor is always clear.
    When [ceil (distance / (BUBBLE_RADIUS / 2)) <= 3] the loop has no index to
    visit, and the check answers [true] whatever bubbles the field holds. *)
Theorem isPathClear_short_segment_clear
    (a : Point) (bs : list Bubble) (target : Bubble) :
  pathSteps (segmentSq a target) <= 3 ->
  sampleIndices (pathSteps (segmentSq a target)) = [] /\
  isPathClear (Some a) bs target = true.
Proof.
  intros H. split; [now apply sampleIndices_short|].
  unfold isPathClear. fold (segmentSq a target).
  now rewrite (sampleIndices_short _ H).
Qed.

Lemma isPathClear_short_segment_clear_witness :
  sampleIndices (pathSteps (segmentSq origin nearTarget)) = [] /\
  isPathClear (Some origin) [nearTarget; nearBlocker] nearTarget = true.
Proof.
  apply (isPathClear_short_segment_clear origin
           [nearTarget; nearBlocker] nearTarget).
  vm_compute. discriminate.
Defined.

(** Three steps or fewer means a distance of at most 1.5 radii (54 units). *)
Lemma pathSteps_le_3_iff (d2 : Q) :
  pathSteps d2 <= 3 <-> (d2 <= 2916)%Q.
Proof.
  destruct (pathSteps_spec d2) as (H0 & Hup & Hlo).
  set (n := pathSteps d2) in *. split.
  - intros Hn.
    assert (inject_Z (324 * (n * n)) <= inject_Z 2916)%Q
      by (rewrite <- Zle_Qle; nia).
    change (inject_Z 2916) with 2916%Q in *. lra.
  - intros Hd. destruct (Z.le_gt_cases n 3) as [|Hgt]; [assumption|exfalso].
    assert (inject_Z 2916 <= inject_Z (324 * ((n - 1) * (n - 1))))%Q
      by (rewrite <- Zle_Qle; nia).
    change (inject_Z 2916) with 2916%Q in *.
    specialize (Hlo ltac:(lia)). lra.
Qed.

(** ** The targeting advisor *)

Module GeminiServiceFacts.

Import GeminiService.

Lemma compareTargets_le (a b : TargetCandidate) :
  compareTargets a b <= 0 <->
  size b * pointsPerBubble b < size a * pointsPerBubble a \/
  (size b * pointsPerBubble b = size a * pointsPerBubble a /\ row a <= row b).
Proof.
  unfold compareTargets.
  destruct (Z.eqb_spec (size b * pointsPerBubble b - size a * pointsPerBubble a) 0);
    lia.
Qed.

Lemma insertSorted_In {A} (f : A -> A -> Z) (a x : A) (l : list A) :
  In x (insertSorted f a l) <-> x = a \/ In x l.
Proof.
  induction l as [|b l IH]; cbn.
  - intuition.
  - destruct (f a b <=? 0); cbn; [intuition|]. rewrite IH. intuition.
Qed.

Lemma Array_sort_In {A} (f : A -> A -> Z) (x : A) (l : list A) :
  In x (Array_sort f l) <-> In x l.
Proof.
  induction l as [|a l IH]; cbn; [tauto|].
  rewrite insertSorted_In, IH. intuition.
Qed.

(** The first element of the sorted array sorts before every element. *)
Lemma Array_sort_head (l : list TargetCandidate) (h : TargetCandidate)
    (t : list TargetCandidate) :
  Array_sort compareTargets l = h :: t ->
  forall x, In x l -> compareTargets h x <= 0.
Proof.
  revert h t. induction l as [|a l IH]; intros h t Hs x Hx; [contradiction|].
  change (Array_sort compareTargets (a :: l))
    with (insertSorted compareTargets a (Array_sort compareTargets l)) in Hs.
  destruct (Array_sort compareTargets l) as [|h' t'] eqn:Es.
  - cbn in Hs. injection Hs as Hh Ht. subst h t.
    assert (l = []) as ->.
    { destruct l as [|b l]; [reflexivity|].
      assert (In b (Array_sort compareTargets (b :: l)))
        by (apply Array_sort_In; now left).
      rewrite Es in H. contradiction. }
    destruct Hx as [Hx|[]]. subst x. apply compareTargets_le. lia.
  - specialize (IH h' t' eq_refl). cbn in Hs.
    destruct (Z.leb_spec (compareTargets a h') 0) as [Hle|Hgt];
      injection Hs as Hh Ht; subst h t.
    + destruct Hx as [Hx|Hx].
      * subst x. apply compareTargets_le. lia.
      * specialize (IH x Hx). apply compareTargets_le in Hle, IH.
        apply compareTargets_le. lia.
    + destruct Hx as [Hx|Hx]; [subst x | now apply IH].
      apply compareTargets_le.
      assert (~ compareTargets a h' <= 0) as Hn by lia.
      rewrite compareTargets_le in Hn. lia.
Qed.

(** C6: the local fallback picks the best candidate.  For a non-empty list
    of candidates the hint names the row, column and colour of a candidate of
    the list whose [size * pointsPerBubble] no candidate exceeds, and whose
    row no candidate of the same product undercuts. *)
Theorem getBestLocalTarget_picks_best
    (validTargets : list TargetCandidate) (msg : string) :
  validTargets <> [] ->
  exists best,
    In best validTargets /\
    targetRow (getBestLocalTarget validTargets msg)
      = JNumber (Num (inject_Z (row best))) /\
    targetCol (getBestLocalTarget validTargets msg)
      = JNumber (Num (inject_Z (col best))) /\
    recommendedColor (getBestLocalTarget validTargets msg)
      = JString (color best) /\
    forall t, In t validTargets ->
      size t * pointsPerBubble t <= size best * pointsPerBubble best /\
      (size t * pointsPerBubble t = size best * pointsPerBubble best ->
       row best <= row t).
Proof.
  intros Hne. destruct validTargets as [|t0 rest]; [contradiction|].
  destruct (Array_sort compareTargets (t0 :: rest)) as [|h t] eqn:Es.
  - exfalso. assert (Hin : In t0 (Array_sort compareTargets (t0 :: rest)))
      by (apply Array_sort_In; now left).
    rewrite Es in Hin. contradiction.
  - unfold getBestLocalTarget. rewrite Es. cbn [hd].
    cbn [targetRow targetCol recommendedColor].
    exists h. split.
    + apply (Array_sort_In compareTargets). rewrite Es. now left.
    + split; [reflexivity|]. split; [reflexivity|]. split; [reflexivity|].
      intros x Hx. pose proof (Array_sort_head _ _ _ Es x Hx) as Hle.
      apply compareTargets_le in Hle. lia.
Qed.

Definition candidate (i k : string) (n r c p : Z) : TargetCandidate :=
  {| id := i; color := k; size := n; row := r; col := c;
     pointsPerBubble := p; description := "Center" |}.

(** Three candidates: two worth 600, in rows 4 and 2, and one worth 500. *)
Definition demoTargets : list TargetCandidate :=
  [ candidate "4-1" "red" 6 4 1 100;
    candidate "0-3" "orange" 1 0 3 500;
    candidate "2-5" "green" 3 2 5 200 ].

Lemma getBestLocalTarget_picks_best_witness :
  exists best,
    In best demoTargets /\
    targetRow (getBestLocalTarget demoTargets "none")
      = JNumber (Num (inject_Z (row best))) /\
    targetCol (getBestLocalTarget demoTargets "none")
      = JNumber (Num (inject_Z (col best))) /\
    recommendedColor (getBestLocalTarget demoTargets "none")
      = JString (color best) /\
    forall t, In t demoTargets ->
      size t * pointsPerBubble t <= size best * pointsPerBubble best /\
      (size t * pointsPerBubble t = size best * pointsPerBubble best ->
       row best <= row t).
Proof.
  apply (getBestLocalTarget_picks_best demoTargets "none").
  discriminate.
Defined.

(** *** Validation of the advisory response *)

Section Validation.

Context {rt : JsRuntime}.

(** What the service asks of a parsed response before it uses it: both
    coordinates read as numbers other than [NaN], and the recommended colour
    is a non-empty string. *)
Definition usable (json : JsValue) (r c : JsNumber) (s : string) : Prop :=
  exists rowValue colValue,
    getProp json "targetRow" = Some rowValue /\
    Number rowValue = Some r /\ isNaN r = false /\
    getProp json "targetCol" = Some colValue /\
    Number colValue = Some c /\ isNaN c = false /\
    getProp json "recommendedColor" = Some (JString s) /\ s <> ""%string.

Lemma getProp_Some (json : JsValue) (n1 n2 : string) (v : JsValue) :
  getProp json n1 = Some v -> exists v', getProp json n2 = Some v'.
Proof.
  destruct json; cbn; try discriminate; eauto.
  intros _. destruct (find _ fields); eauto.
Qed.

Lemma hintFromJson_usable (targets : list TargetCandidate) (json : JsValue)
    (r c : JsNumber) (s : string) :
  usable json r c s ->
  exists m,
    hintFromJson targets json
    = Some {| hint := {| message := m;
                         rationale :=
                           match getProp json "rationale" with
                           | Some v => v
                           | None => JUndefined
                           end;
                         targetRow := JNumber r;
                         targetCol := JNumber c;
                         recommendedColor := JString (toLowerCase s) |};
              error := None |}.
Proof.
  intros (rv & cv & Hr & Hnr & Hr' & Hc & Hnc & Hc' & Hk & Hs).
  unfold hintFromJson. rewrite Hr, Hnr, Hc, Hnc, Hk, Hr', Hc'.
  destruct (getProp_Some json _ "message" _ Hr) as [mv ->].
  destruct (getProp_Some json _ "rationale" _ Hr) as [rav ->].
  cbn [negb andb truthy callToLowerCase].
  destruct (String.eqb_spec s "") as [E|_]; [contradiction|].
  cbn [negb]. eexists. reflexivity.
Qed.

Lemma hintFromJson_unusable (targets : list TargetCandidate) (json : JsValue) :
  (forall r c s, ~ usable json r c s) ->
  hintFromJson targets json = None \/
  hintFromJson targets json
  = Some {| hint := getBestLocalTarget targets "AI가 위치를 잘못 알려줬어요.";
            error := Some InvalidCoordinates |}.
Proof.
  intros Hno. unfold hintFromJson.
  destruct (getProp json "targetRow") as [rv|] eqn:Hr; [|now left].
  destruct (Number rv) as [r|] eqn:Hnr; [|now left].
  destruct (getProp json "targetCol") as [cv|] eqn:Hc; [|now left].
  destruct (Number cv) as [c|] eqn:Hnc; [|now left].
  destruct (getProp json "recommendedColor") as [kv|] eqn:Hk; [|now left].
  destruct (getProp json "message") as [mv|]; [|now left].
  destruct (getProp json "rationale") as [rav|]; [|now left].
  destruct (isNaN r) eqn:Hr'; cbn [negb andb]; [now right|].
  destruct (isNaN c) eqn:Hc'; cbn [negb andb]; [now right|].
  destruct (truthy kv) eqn:Ht; [|now right].
  destruct kv as [| |b|n|s|items|fields]; cbn [callToLowerCase]; try now left.
  exfalso. apply (Hno r c s). exists rv, cv.
  repeat split; auto. intros ->. discriminate Ht.
Qed.

(** What the check of an advisory response comes to.  A parsed response is
    used exactly when both coordinates read as numbers other than [NaN] and
    the recommended colour is a non-empty string: the hint then carries
    those numbers and that colour in lower case.  Every other response, one
    whose [targetRow] is the string "abc" among them, is answered with the
    local fallback heuristic's hint. *)
Theorem hintFromParsed_validation
    (targets : list TargetCandidate) (json : JsValue) :
  (forall r c s,
     usable json r c s ->
     targetRow (hint (hintFromParsed targets (Some json))) = JNumber r /\
     targetCol (hint (hintFromParsed targets (Some json))) = JNumber c /\
     recommendedColor (hint (hintFromParsed targets (Some json)))
       = JString (toLowerCase s) /\
     error (hintFromParsed targets (Some json)) = None) /\
  ((forall r c s, ~ usable json r c s) ->
   exists msg,
     hint (hintFromParsed targets (Some json))
     = getBestLocalTarget targets msg) /\
  (getProp json "targetRow" = Some (JString "abc") ->
   StringToNumber "abc" = NaN ->
   exists msg,
     hint (hintFromParsed targets (Some json))
     = getBestLocalTarget targets msg).
Proof.
  assert (Hrej : (forall r c s, ~ usable json r c s) ->
                 exists msg, hint (hintFromParsed targets (Some json))
                             = getBestLocalTarget targets msg).
  { intros Hno. unfold hintFromParsed.
    destruct (hintFromJson_unusable targets json Hno) as [-> | ->];
      eexists; reflexivity. }
  split; [|split; [exact Hrej|]].
  - intros r c s Hu.
    destruct (hintFromJson_usable targets json r c s Hu) as [m Hm].
    unfold hintFromParsed. rewrite Hm. cbn. auto.
  - intros Habc Hnan. apply Hrej.
    intros r c s (rv & cv & Hr & Hnr & Hr' & _).
    rewrite Habc in Hr. injection Hr as <-. cbn in Hnr.
    rewrite Hnan in Hnr. injection Hnr as <-. discriminate Hr'.
Qed.

End Validation.

(** A runtime for worked examples: strings of decimal digits read as their
    number and every other string as [NaN], arrays and objects read as
    [NaN], and the parser knows the empty object. *)
#[local] Instance plainRuntime : JsRuntime := {|
  StringToNumber s :=
    if String.eqb s "" then Num 0
    else match NilEmpty.uint_of_string s with
         | Some d => Num (inject_Z (Z.of_uint d))
         | None => NaN
         end;
  ObjectToNumber _ := Some NaN;
  JSON_parse s := if String.eqb s "{}" then Some (JObject []) else None
|}.

Definition pinkResponse : JsValue :=
  JObject [ ("message"%string, JString "Aim high");
            ("recommendedColor"%string, JString "Pink");
            ("targetRow"%string, JNumber (Num 2));
            ("targetCol"%string, JNumber (Num 3)) ].

Definition abcResponse : JsValue :=
  JObject [ ("message"%string, JString "Aim high");
            ("recommendedColor"%string, JString "red");
            ("targetRow"%string, JString "abc");
            ("targetCol"%string, JNumber (Num 3)) ].

(** C7: the failing input.  A response that recommends "Pink" at numeric
    coordinates passes the check and is used: no error is recorded, and the
    hint carries the coordinates and the colour "pink", which is none of the
    six colours.  The check asks of the colour only that it is a non-empty
    string. *)
Lemma hintFromParsed_takes_unknown_color :
  recommendedColor (hint (hintFromParsed demoTargets (Some pinkResponse)))
    = JString "pink" /\
  targetRow (hint (hintFromParsed demoTargets (Some pinkResponse)))
    = JNumber (Num 2) /\
  error (hintFromParsed demoTargets (Some pinkResponse)) = None /\
  ~ In "pink"%string knownColors.
Proof.
  repeat split; try reflexivity.
  cbn. intuition discriminate.
Qed.

Lemma hintFromParsed_validation_witness :
  exists msg,
    hint (hintFromParsed demoTargets (Some abcResponse))
    = getBestLocalTarget demoTargets msg.
Proof.
  apply (proj2 (proj2 (hintFromParsed_validation demoTargets abcResponse))).
  - reflexivity.
  - reflexivity.
Defined.

End GeminiServiceFacts.

(** ** What match resolution and placement keep *)

Lemma length_deactivateAt (k : nat) :
  forall bs, length (deactivateAt k bs) = length bs.
Proof.
  induction k as [|k IH]; intros [|b bs]; cbn; auto.
Qed.

Lemma length_deactivateAll (ms : list nat) :
  forall bs,
    length (fold_left (fun acc k => deactivateAt k acc) ms bs) = length bs.
Proof.
  induction ms as [|k ms IH]; intros bs; cbn; [reflexivity|].
  now rewrite IH, length_deactivateAt.
Qed.

Lemma combo_floor_nonneg (bp : Z) (n : nat) :
  0 <= bp -> 0 <= Qfloor (inject_Z (0 + bp * Z.of_nat n) * comboMultiplier n).
Proof.
  intros Hbp.
  assert (H0 : (0 <= inject_Z (0 + bp * Z.of_nat n) * comboMultiplier n)%Q).
  { apply Qmult_le_0_compat.
    - change 0%Q with (inject_Z 0). rewrite <- Zle_Qle. nia.
    - unfold comboMultiplier. destruct (3 <? n)%nat; discriminate. }
  pose proof (Qlt_floor (inject_Z (0 + bp * Z.of_nat n) * comboMultiplier n)) as Hlt.
  assert (Hq : (inject_Z 0 < inject_Z
                 (Qfloor (inject_Z (0 + bp * Z.of_nat n) * comboMultiplier n) + 1))%Q).
  { eapply Qle_lt_trans; [exact H0 | exact Hlt]. }
  rewrite <- Zlt_Qlt in Hq. lia.
Qed.

Lemma points_positive (c : BubbleColor) : 0 < points (COLOR_CONFIG c).
Proof. destruct c; reflexivity. Qed.

Lemma checkMatches_eq (st : GameState) (start : nat) (b : Bubble)
    (ms : list nat) :
  nth_error (bubbles st) start = Some b ->
  findMatches (bubbles st) start = Some ms ->
  checkMatches st start =
  if (3 <=? length ms)%nat then
    Some ({| bubbles := fold_left (fun acc k => deactivateAt k acc) ms
                                  (bubbles st);
             score := score st
                      + Qfloor (inject_Z (0 + points (COLOR_CONFIG (color b))
                                              * Z.of_nat (length ms))
                                * comboMultiplier (length ms));
             celebrationWord := Some (label (COLOR_CONFIG (color b))) |},
          true)
  else Some (st, false).
Proof.
  intros Hb Hms. unfold checkMatches. rewrite Hb, Hms.
  destruct (3 <=? length ms)%nat; [|reflexivity].
  rewrite explode_fold. reflexivity.
Qed.

(** Match resolution is a soft delete that never lowers the score.  From any
    start reference into the array the call returns; the array keeps its
    length; every stored bubble is the bubble that was there or that bubble
    made inactive; the score does not decrease; and a [false] result means
    the state is unchanged. *)
Theorem checkMatches_soft_delete (st : GameState) (start : nat) :
  (start < length (bubbles st))%nat ->
  exists st' r,
    checkMatches st start = Some (st', r) /\
    length (bubbles st') = length (bubbles st) /\
    (forall k b, nth_error (bubbles st) k = Some b ->
       nth_error (bubbles st') k = Some b \/
       nth_error (bubbles st') k = Some (setInactive b)) /\
    score st <= score st' /\
    (r = false -> st' = st).
Proof.
  intros Hlt. destruct (checkMatches_total st start Hlt) as (st' & r & H).
  exists st', r. split; [exact H|]. revert H.
  destruct (nth_error (bubbles st) start) as [b0|] eqn:Hb0;
    [|unfold checkMatches; rewrite Hb0; discriminate].
  destruct (findMatches (bubbles st) start) as [ms|] eqn:Hms;
    [|unfold checkMatches; rewrite Hb0, Hms; discriminate].
  rewrite (checkMatches_eq st start b0 ms Hb0 Hms).
  destruct (3 <=? length ms)%nat; intros Heq; injection Heq as Hst Hr;
    subst st' r.
  - split; [apply length_deactivateAll|].
    split; [|split; [|discriminate]].
    + intros k b Hk. unfold bubbles at 1 3.
      rewrite nth_error_deactivateAll, Hk.
      destruct (existsb (Nat.eqb k) ms); cbn [option_map]; auto.
    + pose proof (points_positive (color b0)) as Hp.
      pose proof (combo_floor_nonneg (points (COLOR_CONFIG (color b0)))
                    (length ms) ltac:(lia)) as Hn.
      change (score st <= score st
                + Qfloor (inject_Z (0 + points (COLOR_CONFIG (color b0))
                                        * Z.of_nat (length ms))
                          * comboMultiplier (length ms))).
      lia.
  - repeat split; auto. lia.
Qed.

Lemma checkMatches_soft_delete_witness :
  exists st' r,
    checkMatches demoState 0 = Some (st', r) /\
    length (bubbles st') = length (bubbles demoState) /\
    (forall k b, nth_error (bubbles demoState) k = Some b ->
       nth_error (bubbles st') k = Some b \/
       nth_error (bubbles st') k = Some (setInactive b)) /\
    score demoState <= score st' /\
    (r = false -> st' = demoState).
Proof.
  apply (checkMatches_soft_delete demoState 0). cbn. lia.
Defined.

(** Match resolution keeps the field invariant: from any start reference
    into an array without overlap the call returns an array without
    overlap. *)
Theorem checkMatches_keeps_noOverlap (st : GameState) (start : nat) :
  noOverlap (bubbles st) ->
  (start < length (bubbles st))%nat ->
  exists st' r,
    checkMatches st start = Some (st', r) /\ noOverlap (bubbles st').
Proof.
  intros Hn Hlt. destruct (checkMatches_total st start Hlt) as (st' & r & H).
  exists st', r. split; [exact H|]. eapply checkMatches_noOverlap; eauto.
Qed.

Lemma demoField_noOverlap : noOverlap demoField.
Proof. apply distinctCells_NoDup. reflexivity. Qed.

Lemma checkMatches_keeps_noOverlap_witness :
  exists st' r,
    checkMatches demoState 0 = Some (st', r) /\ noOverlap (bubbles st').
Proof.
  apply (checkMatches_keeps_noOverlap demoState 0).
  - exact demoField_noOverlap.
  - cbn. lia.
Defined.

(** Match resolution only deactivates: its array is the array before with
    some references made inactive. *)
Lemma checkMatches_bubbles (st st' : GameState) (start : nat) (r : bool) :
  checkMatches st start = Some (st', r) ->
  exists ms,
    bubbles st' = fold_left (fun acc k => deactivateAt k acc) ms (bubbles st).
Proof.
  unfold checkMatches.
  destruct (nth_error (bubbles st) start) as [b|]; [|discriminate].
  destruct (findMatches (bubbles st) start) as [ms|]; [|discriminate].
  destruct (3 <=? length ms)%nat.
  - rewrite explode_fold. intros [= <- _]. now exists ms.
  - intros [= <- _]. now exists [].
Qed.

(** Pushing a bubble at a free cell and resolving matches from it. *)
Lemma pushAndResolve_keeps_noOverlap (best : Best) (now : Z)
    (k : BubbleColor) (st : GameState) :
  noOverlap (bubbles st) ->
  occupied (bubbles st) (bestRow best) (bestCol best) = false ->
  exists st',
    option_map fst
      (checkMatches {| bubbles := bubbles st ++ [newBubbleAt best now k];
                       score := score st;
                       celebrationWord := celebrationWord st |}
                    (length (bubbles st))) = Some st' /\
    length (bubbles st') = S (length (bubbles st)) /\
    noOverlap (bubbles st').
Proof.
  intros Hn Hbest.
  set (pushed := {| bubbles := bubbles st ++ [newBubbleAt best now k];
                    score := score st;
                    celebrationWord := celebrationWord st |}).
  assert (Hpl : length (bubbles pushed) = S (length (bubbles st)))
    by (unfold pushed, bubbles at 1; rewrite length_app; cbn [length]; lia).
  assert (Hpn : noOverlap (bubbles pushed))
    by (apply noOverlap_push; [exact Hn | exact Hbest]).
  destruct (checkMatches_total pushed (length (bubbles st)) ltac:(lia))
    as (st' & r & H).
  destruct (checkMatches_bubbles _ _ _ _ H) as [ms Hms].
  rewrite H. cbn [option_map fst]. exists st'. split; [reflexivity|].
  split; [rewrite Hms, length_deactivateAll; exact Hpl|].
  eapply checkMatches_noOverlap; eauto.
Qed.

(** A shot into a field with a free cell keeps the field invariant.  When
    no two active bubbles overlap and some cell of rows 0 to 10 is free, the
    shot lands: the array grows by the one new bubble, and still no two
    active bubbles overlap. *)
Theorem placeShot_keeps_noOverlap
    (rh w : Q) (now : Z) (k : BubbleColor) (ball : Point) (st : GameState)
    (r0 c0 : Z) :
  noOverlap (bubbles st) ->
  0 <= r0 < GRID_ROWS + 5 -> 0 <= c0 < colsInRow r0 ->
  occupied (bubbles st) r0 c0 = false ->
  exists st',
    placeShot rh w now k ball st = Some st' /\
    length (bubbles st') = S (length (bubbles st)) /\
    noOverlap (bubbles st').
Proof.
  intros Hn Hr0 Hc0 Hfree.
  pose proof (ScanInv_result rh w (bubbles st) ball
                (nearestEmptyCell rh w (bubbles st) ball) r0 c0
                (nearestEmptyCell_ScanInv rh w (bubbles st) ball)
                (proj2 (scanCells_In r0 c0) (conj Hr0 Hc0)) Hfree)
    as (_ & Hbest & _).
  exact (pushAndResolve_keeps_noOverlap
           (nearestEmptyCell rh w (bubbles st) ball) now k st Hn Hbest).
Qed.

Lemma placeShot_keeps_noOverlap_witness :
  exists st',
    placeShot (62 # 1) (1280 # 1) 1730000000000 red
              {| px := 100; py := 500 |} demoState = Some st' /\
    length (bubbles st') = S (length (bubbles demoState)) /\
    noOverlap (bubbles st').
Proof.
  apply (placeShot_keeps_noOverlap (62 # 1) (1280 # 1) 1730000000000 red
           {| px := 100; py := 500 |} demoState 5 5).
  - exact demoField_noOverlap.
  - cbn. lia.
  - cbn. lia.
  - reflexivity.
Defined.

(** ** Grid initialisation *)

(** [l1] is [l2] with some elements left out. *)
Inductive Subseq {A : Type} : list A -> list A -> Prop :=
| Subseq_nil : Subseq [] []
| Subseq_skip a l1 l2 : Subseq l1 l2 -> Subseq l1 (a :: l2)
| Subseq_keep a l1 l2 : Subseq l1 l2 -> Subseq (a :: l1) (a :: l2).

Lemma Subseq_In {A} (l1 l2 : list A) (a : A) :
  Subseq l1 l2 -> In a l1 -> In a l2.
Proof.
  induction 1 as [|b l1 l2 _ IH|b l1 l2 _ IH]; cbn; intuition.
Qed.

Lemma Subseq_NoDup {A} (l1 l2 : list A) :
  Subseq l1 l2 -> NoDup l2 -> NoDup l1.
Proof.
  induction 1 as [|b l1 l2 Hs IH|b l1 l2 Hs IH]; intros Hn.
  - constructor.
  - apply NoDup_cons_iff in Hn. tauto.
  - apply NoDup_cons_iff in Hn. destruct Hn as [Hb Hn].
    constructor; [|auto]. intros Hin. apply Hb. eapply Subseq_In; eauto.
Qed.

Lemma Subseq_app {A} (l1 l1' l2 l2' : list A) :
  Subseq l1 l1' -> Subseq l2 l2' -> Subseq (l1 ++ l2) (l1' ++ l2').
Proof.
  induction 1 as [|a l1 l1' _ IH|a l1 l1' _ IH]; intros H2; cbn.
  - exact H2.
  - apply Subseq_skip. auto.
  - apply Subseq_keep. auto.
Qed.

Lemma Subseq_filter {A} (f : A -> bool) (l : list A) : Subseq (filter f l) l.
Proof.
  induction l as [|a l IH]; cbn; [constructor|].
  destruct (f a); [apply Subseq_keep | apply Subseq_skip]; assumption.
Qed.

Lemma Subseq_map {A B} (f : A -> B) (l1 l2 : list A) :
  Subseq l1 l2 -> Subseq (map f l1) (map f l2).
Proof.
  induction 1; cbn;
    [apply Subseq_nil | apply Subseq_skip | apply Subseq_keep]; auto.
Qed.

Lemma Subseq_trans {A} (l1 l2 l3 : list A) :
  Subseq l1 l2 -> Subseq l2 l3 -> Subseq l1 l3.
Proof.
  intros H12 H23. revert l1 H12.
  induction H23 as [|a l2 l3 _ IH|a l2 l3 _ IH]; intros l1 H12.
  - exact H12.
  - apply Subseq_skip. auto.
  - inversion H12; subst; [apply Subseq_skip | apply Subseq_keep]; auto.
Qed.

(** The bubble [initGrid] creates for a cell, but for its colour. *)
Definition gridBubble (rh w : Q) (k : BubbleColor) (rc : Z * Z) : Bubble :=
  let p := getBubblePos rh (fst rc) (snd rc) w in
  {| id := string_of_Z (fst rc) ++ "-" ++ string_of_Z (snd rc);
     row := fst rc; col := snd rc; x := px p; y := py p;
     color := k; active := true |}.

(** A bubble created by [initGrid]: active, at a cell of the first
    [GRID_ROWS] rows, at that cell's position, named after the cell. *)
Definition fresh (rh w : Q) (b : Bubble) : Prop :=
  0 <= row b < GRID_ROWS /\ 0 <= col b < colsInRow (row b) /\
  In (color b) COLOR_KEYS /\
  b = gridBubble rh w (color b) (row b, col b).

(** The cells of the first [GRID_ROWS] rows, in the order of the loops. *)
Definition gridCells : list (Z * Z) :=
  flat_map (fun r => map (pair r) (range (colsInRow r))) (range GRID_ROWS).

Lemma COLOR_KEYS_nth (n : nat) : In (nth n COLOR_KEYS red) COLOR_KEYS.
Proof.
  do 6 (destruct n as [|n]; [cbn; auto 10|]). destruct n; cbn; auto.
Qed.

Lemma initCell_cases (rh w : Q) (r c : Z) (rnd : nat -> Q) (n : nat) :
  fst (initCell rh w r c rnd n) = [] \/
  exists k, In k COLOR_KEYS /\
            fst (initCell rh w r c rnd n) = [gridBubble rh w k (r, c)].
Proof.
  unfold initCell, bind, mathRandom, ret.
  destruct (Qltb (15 # 100) (rnd n)); [right | now left].
  eexists. split; [apply COLOR_KEYS_nth | reflexivity].
Qed.

Lemma pushEach_cons {A} (body : A -> Rand (list Bubble)) (a : A) (l : list A)
    (rnd : nat -> Q) (n : nat) :
  fst (pushEach body (a :: l) rnd n)
  = fst (body a rnd n) ++ fst (pushEach body l rnd (snd (body a rnd n))).
Proof.
  cbn [pushEach]. unfold bind, ret.
  destruct (body a rnd n) as [xs n1]. cbn [fst snd].
  destruct (pushEach body l rnd n1) as [ys n2]. reflexivity.
Qed.

(** What a loop pushes is, cell for cell, drawn from what its bodies may
    push. *)
Lemma pushEach_Subseq {A} (body : A -> Rand (list Bubble))
    (shape : A -> list Bubble) (proj : Bubble -> Z * Z) (l : list A) :
  (forall a rnd n, Subseq (map proj (fst (body a rnd n))) (map proj (shape a))) ->
  forall rnd n,
    Subseq (map proj (fst (pushEach body l rnd n)))
           (map proj (flat_map shape l)).
Proof.
  intros Hbody. induction l as [|a l IH]; intros rnd n.
  - cbn. constructor.
  - rewrite pushEach_cons. cbn [flat_map]. rewrite !map_app.
    apply Subseq_app; auto.
Qed.

Lemma pushEach_Forall {A} (body : A -> Rand (list Bubble))
    (P : Bubble -> Prop) (l : list A) :
  (forall a rnd n, In a l -> Forall P (fst (body a rnd n))) ->
  forall rnd n, Forall P (fst (pushEach body l rnd n)).
Proof.
  induction l as [|a l IH]; intros Hbody rnd n.
  - cbn. constructor.
  - rewrite pushEach_cons. apply Forall_app. split.
    + apply Hbody. now left.
    + apply IH. intros a' rnd' n' Hin. apply Hbody. now right.
Qed.

Lemma initGrid_cells (rh w : Q) (rnd : nat -> Q) (n : nat) :
  Subseq (map cell (fst (initGrid rh w rnd n))) gridCells.
Proof.
  unfold initGrid.
  pose proof (pushEach_Subseq
                (fun r => pushEach (initCell rh w r) (range (colsInRow r)))
                (fun r => map (gridBubble rh w red) (map (pair r) (range (colsInRow r))))
                cell (range GRID_ROWS)) as H.
  assert (E : map cell
                (flat_map (fun r => map (gridBubble rh w red)
                                        (map (pair r) (range (colsInRow r))))
                          (range GRID_ROWS)) = gridCells).
  { unfold gridCells. generalize (range GRID_ROWS). intros rows.
    induction rows as [|r rows IH]; cbn [flat_map map]; [reflexivity|].
    rewrite map_app, IH. f_equal.
    rewrite !map_map. apply map_ext. reflexivity. }
  rewrite <- E. apply H. clear H E. intros r rnd' n'.
  pose proof (pushEach_Subseq (initCell rh w r)
                (fun c => [gridBubble rh w red (r, c)]) cell
                (range (colsInRow r))) as H.
  assert (E : flat_map (fun c => [gridBubble rh w red (r, c)])
                       (range (colsInRow r))
              = map (gridBubble rh w red) (map (pair r) (range (colsInRow r)))).
  { generalize (range (colsInRow r)). intros cs.
    induction cs as [|c cs IH]; cbn; [reflexivity | now rewrite IH]. }
  rewrite <- E. apply H. clear H E. intros c rnd'' n''.
  destruct (initCell_cases rh w r c rnd'' n'') as [-> | [k [_ ->]]]; cbn.
  - apply Subseq_skip, Subseq_nil.
  - apply Subseq_keep, Subseq_nil.
Qed.

Lemma initGrid_fresh (rh w : Q) (rnd : nat -> Q) (n : nat) :
  Forall (fresh rh w) (fst (initGrid rh w rnd n)).
Proof.
  unfold initGrid. apply pushEach_Forall. intros r rnd' n' Hr.
  apply pushEach_Forall. intros c rnd'' n'' Hc.
  apply range_In in Hr, Hc.
  destruct (initCell_cases rh w r c rnd'' n'') as [-> | [k [Hk ->]]];
    constructor; [|constructor].
  unfold fresh. cbn. auto.
Qed.

Lemma gridCells_NoDup : NoDup gridCells.
Proof. apply distinctCells_NoDup. vm_compute. reflexivity. Qed.

Lemma gridCells_ids_NoDup (rh w : Q) :
  NoDup (map (fun rc => id (gridBubble rh w red rc)) gridCells).
Proof.
  assert (E : map (fun rc => id (gridBubble rh w red rc)) gridCells
              = map (fun rc => string_of_Z (fst rc) ++ "-" ++ string_of_Z (snd rc))%string
                    gridCells) by reflexivity.
  rewrite E. clear E.
  assert (Hd : forall l : list string,
             (fix distinct (l : list string) : bool :=
                match l with
                | [] => true
                | s :: l' => negb (existsb (String.eqb s) l') && distinct l'
                end) l = true -> NoDup l).
  { induction l as [|s l IH]; intros H; [constructor|].
    apply andb_prop in H. destruct H as [Hs Hl]. constructor; [|auto].
    intros Hin. apply negb_true_iff in Hs.
    assert (existsb (String.eqb s) l = true)
      by (apply existsb_exists; exists s; split; [assumption | apply String.eqb_refl]).
    congruence. }
  apply Hd. vm_compute. reflexivity.
Qed.

Lemma initGrid_noOverlap (rh w : Q) (rnd : nat -> Q) (n : nat) :
  noOverlap (fst (initGrid rh w rnd n)).
Proof.
  unfold noOverlap. apply Subseq_NoDup with gridCells; [|apply gridCells_NoDup].
  eapply Subseq_trans; [|exact (initGrid_cells rh w rnd n)].
  apply Subseq_map, Subseq_filter.
Qed.

Lemma initGrid_uniqueIds (rh w : Q) (rnd : nat -> Q) (n : nat) :
  uniqueIds (fst (initGrid rh w rnd n)).
Proof.
  pose proof (initGrid_cells rh w rnd n) as Hc.
  pose proof (initGrid_fresh rh w rnd n) as Hf.
  unfold uniqueIds.
  apply Subseq_NoDup
    with (map (fun rc => id (gridBubble rh w red rc)) gridCells);
    [|apply gridCells_ids_NoDup].
  assert (E : map id (fst (initGrid rh w rnd n))
              = map (fun rc => id (gridBubble rh w red rc))
                    (map cell (fst (initGrid rh w rnd n)))).
  { rewrite map_map. apply map_ext_in. intros b Hb.
    rewrite Forall_forall in Hf. destruct (Hf b Hb) as (_ & _ & _ & Eb).
    rewrite Eb at 1. reflexivity. }
  rewrite E. now apply Subseq_map.
Qed.

Lemma initGrid_length (rh w : Q) (rnd : nat -> Q) (n : nat) :
  (length (fst (initGrid rh w rnd n)) <= 93)%nat.
Proof.
  pose proof (initGrid_cells rh w rnd n) as Hc.
  assert (Hl : forall (l1 l2 : list (Z * Z)),
             Subseq l1 l2 -> (length l1 <= length l2)%nat).
  { induction 1; cbn; lia. }
  apply Hl in Hc. rewrite length_map in Hc.
  assert (E : length gridCells = 93%nat) by (vm_compute; reflexivity).
  lia.
Qed.

(** Grid initialisation yields a well-formed field, whatever the random
    draws: every bubble is active, lies at a cell of rows 0 to 5 with that
    cell's position, is named after its cell and has one of the six colours;
    no two bubbles share a cell; no two share an id; and at most one bubble
    is created per cell of the grid. *)
Theorem initGrid_wellformed (rh w : Q) (rnd : nat -> Q) (n : nat) :
  Forall (fresh rh w) (fst (initGrid rh w rnd n)) /\
  noOverlap (fst (initGrid rh w rnd n)) /\
  uniqueIds (fst (initGrid rh w rnd n)) /\
  (length (fst (initGrid rh w rnd n)) <= 93)%nat.
Proof.
  split; [apply initGrid_fresh|]. split; [apply initGrid_noOverlap|].
  split; [apply initGrid_uniqueIds | apply initGrid_length].
Qed.

(** ** Adjacency and the layout *)

(** 1 for an odd row and 0 for an even one, as [getBubblePos] tests it. *)
Definition oddRow (r : Z) : Z := if negb (Z.rem r 2 =? 0) then 1 else 0.

Lemma getBubblePos_dx (rh w : Q) (r1 c1 r2 c2 : Z) :
  (px (getBubblePos rh r2 c2 w) - px (getBubblePos rh r1 c1 w)
   == inject_Z (72 * (c2 - c1) + 36 * (oddRow r2 - oddRow r1)))%Q.
Proof.
  unfold getBubblePos, oddRow, BUBBLE_RADIUS, GRID_COLS. cbn [px].
  change (inject_Z (36 * 2)) with (inject_Z 72).
  unfold Z.sub. rewrite inject_Z_plus, !inject_Z_mult, !inject_Z_plus, !inject_Z_opp.
  destruct (negb (Z.rem r1 2 =? 0)), (negb (Z.rem r2 2 =? 0));
    change (inject_Z 72) with 72%Q; change (inject_Z 36) with 36%Q;
    change (inject_Z 1) with 1%Q; change (inject_Z 0) with 0%Q; field.
Qed.

Lemma getBubblePos_dy (rh w : Q) (r1 c1 r2 c2 : Z) :
  (py (getBubblePos rh r2 c2 w) - py (getBubblePos rh r1 c1 w)
   == inject_Z (r2 - r1) * rh)%Q.
Proof.
  unfold getBubblePos. cbn [py]. unfold Z.sub.
  rewrite inject_Z_plus, inject_Z_opp. ring.
Qed.


Lemma oddRow_cases (r : Z) : oddRow r = 0 \/ oddRow r = 1.
Proof. unfold oddRow. destruct (negb (Z.rem r 2 =? 0)); auto. Qed.




(** ** The snap and the layout *)

Lemma Qsquare_zero (q : Q) : (q * q == 0)%Q -> (q == 0)%Q.
Proof. intros H. apply Qmult_integral in H. tauto. Qed.

Lemma distSq_zero (x1 y1 x2 y2 : Q) :
  (distSq x1 y1 x2 y2 <= 0)%Q -> (x2 - x1 == 0)%Q /\ (y2 - y1 == 0)%Q.
Proof.
  unfold distSq. intros H.
  pose proof (Qsquare_nonneg (x1 - x2)). pose proof (Qsquare_nonneg (y1 - y2)).
  assert (Hx : ((x1 - x2) * (x1 - x2) == 0)%Q) by lra.
  assert (Hy : ((y1 - y2) * (y1 - y2) == 0)%Q) by lra.
  apply Qsquare_zero in Hx, Hy. split; lra.
Qed.

Lemma inject_Z_zero (z : Z) : (inject_Z z == 0)%Q -> z = 0.
Proof.
  intros H. unfold Qeq, inject_Z in H. simpl in H. lia.
Qed.

(** A best cell that scans to zero distance from a cell centre is that
    cell. *)
Lemma snap_same_cell (rh w : Q) (best : Best) (r c : Z) :
  ~ (rh == 0)%Q ->
  bestX best = px (getBubblePos rh (bestRow best) (bestCol best) w) ->
  bestY best = py (getBubblePos rh (bestRow best) (bestCol best) w) ->
  (distSq (px (getBubblePos rh r c w)) (py (getBubblePos rh r c w))
          (bestX best) (bestY best) <= 0)%Q ->
  bestRow best = r /\ bestCol best = c.
Proof.
  intros Hrh Hx Hy Hd. apply distSq_zero in Hd. destruct Hd as [Hdx Hdy].
  rewrite Hx, getBubblePos_dx in Hdx. rewrite Hy, getBubblePos_dy in Hdy.
  assert (Hr : bestRow best = r).
  { apply Qmult_integral in Hdy. destruct Hdy as [H|H]; [|contradiction].
    apply inject_Z_zero in H. lia. }
  split; [exact Hr|]. rewrite Hr in Hdx.
  apply inject_Z_zero in Hdx. lia.
Qed.

(** The snap inverts the layout.  With a non-zero row height, a ball that
    stops exactly on the centre of a free cell of rows 0 to 10 is placed in
    that very cell. *)
Theorem nearestEmptyCell_at_cell_centre
    (rh w : Q) (bs : list Bubble) (r c : Z) :
  ~ (rh == 0)%Q ->
  0 <= r < GRID_ROWS + 5 -> 0 <= c < colsInRow r ->
  occupied bs r c = false ->
  bestRow (nearestEmptyCell rh w bs (getBubblePos rh r c w)) = r /\
  bestCol (nearestEmptyCell rh w bs (getBubblePos rh r c w)) = c.
Proof.
  intros Hrh Hr Hc Hfree.
  pose proof (ScanInv_result rh w bs (getBubblePos rh r c w)
                (nearestEmptyCell rh w bs (getBubblePos rh r c w)) r c
                (nearestEmptyCell_ScanInv rh w bs (getBubblePos rh r c w))
                (proj2 (scanCells_In r c) (conj Hr Hc)) Hfree)
    as (_ & _ & Hx & Hy & Hmin).
  apply (snap_same_cell rh w _ r c Hrh Hx Hy).
  eapply Qle_trans; [apply (Hmin r c (proj2 (scanCells_In r c) (conj Hr Hc)) Hfree)|].
  unfold distSq. ring_simplify. apply Qle_refl.
Qed.

Lemma nearestEmptyCell_at_cell_centre_witness :
  bestRow (nearestEmptyCell (62 # 1) (1280 # 1) demoField
             (getBubblePos (62 # 1) 3 4 (1280 # 1))) = 3 /\
  bestCol (nearestEmptyCell (62 # 1) (1280 # 1) demoField
             (getBubblePos (62 # 1) 3 4 (1280 # 1))) = 4.
Proof.
  apply (nearestEmptyCell_at_cell_centre (62 # 1) (1280 # 1) demoField 3 4).
  - discriminate.
  - cbn. lia.
  - cbn. lia.
  - reflexivity.
Defined.

(** ** The advisor's reading of the response text *)

Module ResponseTextFacts.

Import GeminiService.

Local Open Scope string_scope.

Lemma indexOf_app_found (c : ascii) (pre rest : string) :
  indexOf c pre = None ->
  indexOf c (pre ++ String c rest) = Some (String.length pre).
Proof.
  induction pre as [|d pre IH]; cbn; intros H.
  - now rewrite Ascii.eqb_refl.
  - destruct (Ascii.eqb c d); [discriminate|].
    destruct (indexOf c pre); [discriminate|]. now rewrite IH.
Qed.

Lemma lastIndexOf_none (c : ascii) (s : string) :
  indexOf c s = None -> lastIndexOf c s = None.
Proof.
  induction s as [|d s IH]; cbn; [reflexivity|].
  destruct (Ascii.eqb c d); [discriminate|].
  destruct (indexOf c s); [discriminate|]. intros _. now rewrite IH.
Qed.

Lemma lastIndexOf_app_found (c : ascii) (s post : string) :
  indexOf c post = None ->
  lastIndexOf c (s ++ String c post) = Some (String.length s).
Proof.
  intros H. induction s as [|d s IH]; cbn.
  - now rewrite (lastIndexOf_none c post H), Ascii.eqb_refl.
  - now rewrite IH.
Qed.

Lemma substring_skip (pre s : string) (n : nat) :
  substring (String.length pre) n (pre ++ s) = substring 0 n s.
Proof. induction pre as [|d pre IH]; cbn; auto. Qed.

Lemma substring_prefix (s t : string) :
  substring 0 (String.length s) (s ++ t) = s.
Proof.
  induction s as [|d s IH]; cbn.
  - now destruct t.
  - now rewrite IH.
Qed.

Lemma length_append (s t : string) :
  String.length (s ++ t) = (String.length s + String.length t)%nat.
Proof. induction s as [|d s IH]; cbn; auto. Qed.

Lemma append_assoc (s t u : string) : (s ++ t) ++ u = s ++ (t ++ u).
Proof. induction s as [|d s IH]; cbn; [reflexivity | now rewrite IH]. Qed.

(** The brace extraction strips what surrounds a JSON object.  When the
    text is an object text, braces included, between a prefix without an
    opening brace and a suffix without a closing brace (a Markdown fence,
    a sentence before or after), the extraction returns the object text. *)
Theorem extractJson_strips (pre body post : string) :
  indexOf "{" pre = None -> indexOf "}" post = None ->
  extractJson (pre ++ "{" ++ body ++ "}" ++ post) = "{" ++ body ++ "}".
Proof.
  intros Hpre Hpost. unfold extractJson.
  change ("{" ++ body ++ "}" ++ post) with (String "{" (body ++ "}" ++ post)).
  rewrite (indexOf_app_found "{" pre _ Hpre).
  assert (E : pre ++ String "{" (body ++ "}" ++ post)
              = (pre ++ "{" ++ body) ++ String "}" post).
  { rewrite append_assoc. reflexivity. }
  rewrite E at 1. rewrite (lastIndexOf_app_found "}" _ post Hpost).
  rewrite length_append. cbn [String.length append].
  destruct (Nat.ltb_spec (String.length pre)
              (String.length pre + S (String.length body))) as [_|]; [|lia].
  rewrite substring_skip.
  assert (E2 : String "{" (body ++ String "}" post)
               = String "{" (body ++ "}") ++ post).
  { cbn [append]. f_equal. now rewrite append_assoc. }
  rewrite E2.
  replace (String.length pre + S (String.length body) + 1
           - String.length pre)%nat
    with (String.length (String "{" (body ++ "}"))).
  - apply substring_prefix.
  - cbn [String.length]. rewrite length_append. cbn [String.length]. lia.
Qed.

Lemma extractJson_strips_witness :
  extractJson ("Here: " ++ "{" ++ "k:{}" ++ "}" ++ " done")
  = "{" ++ "k:{}" ++ "}".
Proof.
  apply (extractJson_strips "Here: " "k:{}" " done"); reflexivity.
Defined.

(** A text in which no closing brace follows an opening one is parsed as it
    stands. *)
Theorem extractJson_keeps_braceless (text : string) :
  indexOf "{" text = None \/ indexOf "}" text = None ->
  extractJson text = text.
Proof.
  intros [H|H]; unfold extractJson.
  - now rewrite H.
  - rewrite (lastIndexOf_none _ _ H). now destruct (indexOf "{" text).
Qed.

Lemma extractJson_keeps_braceless_witness :
  extractJson "no json here" = "no json here".
Proof.
  apply (extractJson_keeps_braceless "no json here"). left. reflexivity.
Defined.

(** *** What a hint can carry *)

(** A hint that names a target names it fully: both coordinates are numbers
    other than [NaN] and the colour is a string. *)
Definition targeted (h : StrategicHint) : Prop :=
  exists r c s,
    targetRow h = JNumber r /\ isNaN r = false /\
    targetCol h = JNumber c /\ isNaN c = false /\
    recommendedColor h = JString s.

Definition untargeted (h : StrategicHint) : Prop :=
  targetRow h = JUndefined /\ targetCol h = JUndefined /\
  recommendedColor h = JUndefined.

Lemma getBestLocalTarget_shape (targets : list TargetCandidate) (msg : string) :
  (targets = [] /\ untargeted (getBestLocalTarget targets msg)) \/
  (targets <> [] /\ targeted (getBestLocalTarget targets msg)).
Proof.
  destruct targets as [|t0 rest]; [left | right]; split; try discriminate.
  - reflexivity.
  - repeat split.
  - unfold targeted, getBestLocalTarget. cbn [targetRow targetCol recommendedColor].
    do 3 eexists. repeat split.
Qed.

Section AnyRuntime.

Context {rt : JsRuntime}.

Lemma hintFromJson_shape (targets : list TargetCandidate) (json : JsValue)
    (res : AiResponse) :
  hintFromJson targets json = Some res ->
  targeted (hint res) \/
  hint res = getBestLocalTarget targets "AI가 위치를 잘못 알려줬어요.".
Proof.
  unfold hintFromJson.
  destruct (getProp json "targetRow") as [rv|]; [|discriminate].
  destruct (Number rv) as [r|]; [|discriminate].
  destruct (getProp json "targetCol") as [cv|]; [|discriminate].
  destruct (Number cv) as [c|]; [|discriminate].
  destruct (getProp json "recommendedColor") as [kv|]; [|discriminate].
  destruct (getProp json "message") as [mv|]; [|discriminate].
  destruct (getProp json "rationale") as [rav|]; [|discriminate].
  destruct (isNaN r) eqn:Hr; cbn [negb andb];
    [intros [= <-]; now right|].
  destruct (isNaN c) eqn:Hc; cbn [negb andb];
    [intros [= <-]; now right|].
  destruct (truthy kv); [|intros [= <-]; now right].
  destruct kv; cbn [callToLowerCase]; try discriminate.
  intros [= <-]. left. cbn [hint]. unfold targeted.
  cbn [targetRow targetCol recommendedColor]. do 3 eexists. repeat split; auto.
Qed.

(** Whatever the model answers, the service's hint is well-formed: it names
    no target at all, or it names one with both coordinates numbers other
    than [NaN] and a string colour; and without candidates a failed or
    rejected consultation names none. *)
Theorem getStrategicHint_wellformed (hasClient : bool)
    (validTargets : list TargetCandidate) (outcome : ApiOutcome) :
  (untargeted (hint (getStrategicHint hasClient validTargets outcome)) \/
   targeted (hint (getStrategicHint hasClient validTargets outcome))) /\
  (validTargets = [] ->
   error (getStrategicHint hasClient validTargets outcome) <> None ->
   untargeted (hint (getStrategicHint hasClient validTargets outcome))).
Proof.
  assert (Hfb : forall msg,
             untargeted (getBestLocalTarget validTargets msg) \/
             targeted (getBestLocalTarget validTargets msg)).
  { intros msg. destruct (getBestLocalTarget_shape validTargets msg)
      as [[_ H]|[_ H]]; auto. }
  assert (Hfb0 : forall msg, validTargets = [] ->
             untargeted (getBestLocalTarget validTargets msg)).
  { intros msg ->. repeat split. }
  unfold getStrategicHint. destruct hasClient; cbn [negb].
  - destruct outcome as [|text]; cbn [hint error].
    + split; [apply Hfb | intros E _; now apply Hfb0].
    + unfold hintFromText, hintFromParsed.
      destruct (JSON_parse _) as [json|]; cbn [hint error];
        [|split; [apply Hfb | intros E _; now apply Hfb0]].
      destruct (hintFromJson validTargets json) as [res|] eqn:Hres;
        cbn [hint error];
        [|split; [apply Hfb | intros E _; now apply Hfb0]].
      destruct (hintFromJson_shape _ _ _ Hres) as [H|H].
      * split; [now right|]. intros E Herr. exfalso. apply Herr.
        revert Hres. unfold hintFromJson.
        repeat match goal with
               | |- context [match ?t with _ => _ end] =>
                   destruct t; try discriminate
               end; intros [= <-]; try reflexivity.
        all: exfalso; destruct H as (r0 & c0 & s0 & Hr0 & _);
          subst validTargets; discriminate Hr0.
      * rewrite H. split; [apply Hfb | intros E _; now apply Hfb0].
  - cbn [hint error]. split; [left; repeat split | intros _ _; repeat split].
Qed.

End AnyRuntime.

End ResponseTextFacts.

(** ** Colours in play and the danger row *)

Lemma existsb_color_In (c : BubbleColor) (l : list BubbleColor) :
  existsb (BubbleColor_eqb c) l = true <-> In c l.
Proof.
  rewrite existsb_exists. split.
  - intros [d [Hin Hd]]. destruct (BubbleColor_eqb_spec c d); [now subst | discriminate].
  - intros Hin. exists c. split; [assumption|].
    now destruct (BubbleColor_eqb_spec c c).
Qed.

Lemma distinctColors_spec (l : list BubbleColor) :
  forall seen,
    NoDup (distinctColors seen l) /\
    forall c, In c (distinctColors seen l) <-> In c l /\ ~ In c seen.
Proof.
  induction l as [|d l IH]; intros seen; cbn [distinctColors].
  - split; [constructor | cbn; tauto].
  - destruct (existsb (BubbleColor_eqb d) seen) eqn:E.
    + apply existsb_color_In in E. destruct (IH seen) as [Hn Hi].
      split; [assumption|]. intros c. rewrite Hi. cbn.
      split; [tauto|]. intros [[<-|H] Hs]; tauto.
    + assert (Hd : ~ In d seen).
      { intros H. apply existsb_color_In in H. congruence. }
      destruct (IH (d :: seen)) as [Hn Hi]. split.
      * constructor; [|assumption]. rewrite Hi. cbn. tauto.
      * intros c. cbn. rewrite Hi. cbn.
        destruct (BubbleColor_eqb_spec d c) as [->|Hne]; tauto.
Qed.

(** The colour bookkeeping after a change of the field.  The available
    colours are, without repetition, exactly the colours of the active
    bubbles; a selected colour that is still on the field is kept; and
    whenever a bubble is active, the colour selected afterwards is the
    colour of an active bubble. *)
Theorem updateAvailableColors_spec (bs : list Bubble) (selected : BubbleColor) :
  let available := fst (updateAvailableColors bs selected) in
  let selected' := snd (updateAvailableColors bs selected) in
  NoDup available /\
  (forall c, In c available <->
             exists b, In b bs /\ active b = true /\ color b = c) /\
  (In selected available -> selected' = selected) /\
  ((exists b, In b bs /\ active b = true) -> In selected' available).
Proof.
  cbv zeta. unfold updateAvailableColors. cbn [fst snd].
  set (activeColors := distinctColors [] (map color (filter active bs))).
  destruct (distinctColors_spec (map color (filter active bs)) []) as [Hn Hi].
  fold activeColors in Hn, Hi.
  assert (Hc : forall c, In c activeColors <->
                         exists b, In b bs /\ active b = true /\ color b = c).
  { intros c. rewrite Hi, in_map_iff. split.
    - intros [[b [Hb Hin]] _]. apply filter_In in Hin. exists b. tauto.
    - intros [b (Hin & Ha & Hb)]. split; [|intros []].
      exists b. split; [assumption|]. apply filter_In. tauto. }
  split; [exact Hn|]. split; [exact Hc|]. split.
  - intros Hs. apply existsb_color_In in Hs. now rewrite Hs.
  - intros [b [Hin Ha]].
    assert (Hb : In (color b) activeColors) by (apply Hc; eauto).
    destruct (existsb (BubbleColor_eqb selected) activeColors) eqn:E;
      cbn [negb andb].
    + now apply existsb_color_In.
    + destruct activeColors as [|c0 rest]; [contradiction|].
      cbn. now left.
Qed.

Lemma maxActiveRow_from (bs : list Bubble) :
  forall m n,
    n <= fold_left (fun mx b => if active b then Z.max mx (row b) else mx) bs m
    <-> n <= m \/ exists b, In b bs /\ active b = true /\ n <= row b.
Proof.
  induction bs as [|b bs IH]; intros m n; cbn [fold_left].
  - split; [tauto | intros [H|[b [[] _]]]; exact H].
  - rewrite IH. destruct (active b) eqn:Ha.
    + split.
      * intros [H|[b' (Hin & Ha' & Hr)]].
        -- destruct (Z.le_gt_cases n m); [now left | right].
           exists b. cbn. repeat split; auto. lia.
        -- right. exists b'. cbn. auto.
      * intros [H|[b' ([<-|Hin] & Ha' & Hr)]].
        -- left. lia.
        -- left. lia.
        -- right. exists b'. auto.
    + split.
      * intros [H|[b' (Hin & Ha' & Hr)]]; [now left | right].
        exists b'. cbn. auto.
      * intros [H|[b' ([<-|Hin] & Ha' & Hr)]]; [now left | congruence | right].
        exists b'. auto.
Qed.

(** The advisor is told the field is critical exactly when some active
    bubble is in row 6 or below it. *)
Theorem dangerIsCritical_iff (bs : list Bubble) :
  dangerIsCritical (maxActiveRow bs) = true <->
  exists b, In b bs /\ active b = true /\ 6 <= row b.
Proof.
  unfold dangerIsCritical, maxActiveRow. rewrite Z.leb_le, maxActiveRow_from.
  split; [intros [H|H]; [lia | exact H] | now right].
Qed.

(** ** The shot *)

Lemma Math_min_spec (a b : Q) :
  (Math_min a b <= a)%Q /\ (Math_min a b <= b)%Q /\
  (Math_min a b == a \/ Math_min a b == b)%Q.
Proof.
  unfold Math_min. destruct (Qltb b a) eqn:E.
  - apply Qltb_lt in E. split; [lra|]. split; [lra|]. right. reflexivity.
  - apply Qltb_ge in E. split; [lra|]. split; [lra|]. left. reflexivity.
Qed.

Lemma Math_max_spec (a b : Q) :
  (a <= Math_max a b)%Q /\ (b <= Math_max a b)%Q /\
  (Math_max a b == a \/ Math_max a b == b)%Q.
Proof.
  unfold Math_max. destruct (Qltb a b) eqn:E.
  - apply Qltb_lt in E. split; [lra|]. split; [lra|]. right. reflexivity.
  - apply Qltb_ge in E. split; [lra|]. split; [lra|]. left. reflexivity.
Qed.



(** The squared speed of the ball. *)
Definition speedSq (v : Point) : Q := (px v * px v + py v * py v)%Q.

(** The square of the stride [BUBBLE_RADIUS * 0.8]. *)
Definition strideSq : Q := 20736 # 25.

(** [flightSteps s2] is [ceil (sqrt s2 / 28.8)]: enough turns for a stride of
    at most [BUBBLE_RADIUS * 0.8] each, and at least one when the ball
    moves. *)
Lemma flightSteps_spec (s2 : Q) :
  let n := flightSteps s2 in
  0 <= n /\
  (s2 <= strideSq * inject_Z (n * n))%Q /\
  ((0 < s2)%Q -> 1 <= n).
Proof.
  cbv zeta. unfold flightSteps.
  assert (Eh : (s2 / (inject_Z BUBBLE_RADIUS * (8 # 10)
                      * (inject_Z BUBBLE_RADIUS * (8 # 10)))
                == s2 * (25 # 20736))%Q) by (unfold BUBBLE_RADIUS; field).
  rewrite Eh. clear Eh.
  set (m := Qceiling (s2 * (25 # 20736))).
  pose proof (Qle_ceiling (s2 * (25 # 20736))) as Hup.
  pose proof (Qceiling_lt (s2 * (25 # 20736))) as Hlo. fold m in Hup, Hlo.
  unfold strideSq.
  split; [apply Z.sqrt_up_nonneg|].
  destruct (Z.lt_ge_cases 0 m) as [Hm|Hm].
  - pose proof (Z.sqrt_up_spec m Hm) as [Hs1 Hs2].
    set (n := Z.sqrt_up m) in *. split.
    + assert (inject_Z m <= inject_Z (n * n))%Q by (rewrite <- Zle_Qle; lia).
      lra.
    + intros _. unfold Z.pred in Hs1. nia.
  - rewrite (Z.sqrt_up_eqn0 m Hm).
    assert (inject_Z m <= 0)%Q
      by (change 0%Q with (inject_Z 0); rewrite <- Zle_Qle; lia).
    split.
    + change (inject_Z (0 * 0)) with 0%Q. lra.
    + intros Hpos. exfalso. lra.
Qed.

Lemma inject_Z_ge_1 (n : Z) : 1 <= n -> (1 <= inject_Z n)%Q.
Proof. intros H. change 1%Q with (inject_Z 1). now rewrite <- Zle_Qle. Qed.

(** The walls leave room for the ball, and the ball is between them. *)
Definition betweenWalls (width : Q) (p : Point) : Prop :=
  (inject_Z BUBBLE_RADIUS <= px p <= width - inject_Z BUBBLE_RADIUS)%Q.

Lemma subStep_walls (width : Q) (bs : list Bubble) (steps : Z) (f : Flight) :
  (inject_Z BUBBLE_RADIUS <= width - inject_Z BUBBLE_RADIUS)%Q ->
  betweenWalls width (ballPos (subStep width bs steps f)).
Proof.
  intros Hw. unfold betweenWalls, subStep.
  set (R := inject_Z BUBBLE_RADIUS) in *.
  set (x1 := (px (ballPos f) + px (ballVel f) / inject_Z steps)%Q).
  assert (Hx : (R <= (if Qltb x1 R || Qltb (width - R) x1
                      then Math_max R (Math_min (width - R) x1) else x1)
                <= width - R)%Q).
  { destruct (Qltb x1 R) eqn:E1; cbn [orb].
    - destruct (Math_max_spec R (Math_min (width - R) x1)) as (H1 & H2 & [H3|H3]);
        destruct (Math_min_spec (width - R) x1) as (H4 & H5 & _);
        rewrite ?H3; split; lra.
    - destruct (Qltb (width - R) x1) eqn:E2.
      + destruct (Math_max_spec R (Math_min (width - R) x1)) as (H1 & H2 & [H3|H3]);
          destruct (Math_min_spec (width - R) x1) as (H4 & H5 & _);
          rewrite ?H3; split; lra.
      + apply Qltb_ge in E1, E2. split; lra. }
  destruct (Qltb (py (ballPos f) + _) R); cbn [ballPos px]; exact Hx.
Qed.

Lemma subStep_speed (width : Q) (bs : list Bubble) (steps : Z) (f : Flight) :
  (speedSq (ballVel (subStep width bs steps f)) == speedSq (ballVel f))%Q.
Proof.
  unfold subStep, speedSq.
  destruct (Qltb (py (ballPos f) + _) _); cbn [ballVel px py];
    destruct (_ || _); ring.
Qed.

Lemma subStep_py (width : Q) (bs : list Bubble) (steps : Z) (f : Flight) :
  py (ballVel (subStep width bs steps f)) = py (ballVel f).
Proof.
  unfold subStep. now destruct (Qltb (py (ballPos f) + _) _).
Qed.

(** One turn of the sub-stepping loop, with the step count of the frame and
    the ball between the walls: the ball moves by at most
    [BUBBLE_RADIUS * 0.8], stays between the walls and keeps its speed (a
    bounce only turns the horizontal velocity round). *)
Theorem subStep_bounded_stride
    (width : Q) (bs : list Bubble) (f : Flight) :
  let steps := flightSteps (speedSq (ballVel f)) in
  let f' := subStep width bs steps f in
  (0 < speedSq (ballVel f))%Q ->
  betweenWalls width (ballPos f) ->
  (distSq (px (ballPos f')) (py (ballPos f'))
          (px (ballPos f)) (py (ballPos f)) <= strideSq)%Q /\
  betweenWalls width (ballPos f') /\
  (speedSq (ballVel f') == speedSq (ballVel f))%Q.
Proof.
  cbv zeta. intros Hmove Hin.
  assert (Hw : (inject_Z BUBBLE_RADIUS <= width - inject_Z BUBBLE_RADIUS)%Q)
    by (unfold betweenWalls in Hin; lra).
  split; [|split; [now apply subStep_walls | apply subStep_speed]].
  destruct (flightSteps_spec (speedSq (ballVel f))) as (_ & Hup & Hone).
  specialize (Hone Hmove). apply inject_Z_ge_1 in Hone.
  rewrite inject_Z_mult in Hup.
  set (n := inject_Z (flightSteps (speedSq (ballVel f)))) in *.
  unfold subStep. fold n.
  unfold betweenWalls in Hin. unfold speedSq in Hup, Hmove.
  set (R := inject_Z BUBBLE_RADIUS) in *.
  destruct f as [[x0 y0] [vx vy] flag]. cbn [ballPos ballVel px py] in *.
  set (x1 := (x0 + vx / n)%Q).
  set (x2 := if Qltb x1 R || Qltb (width - R) x1
             then Math_max R (Math_min (width - R) x1) else x1).
  assert (Hstride : ((vx / n) * (vx / n) + (vy / n) * (vy / n) <= strideSq)%Q).
  { assert (Hn2 : (0 < n * n)%Q) by nra.
    apply (Qmult_le_r _ _ _ Hn2).
    assert (E : (((vx / n) * (vx / n) + (vy / n) * (vy / n)) * (n * n)
                 == vx * vx + vy * vy)%Q) by (field; lra).
    rewrite E. exact Hup. }
  assert (Hx : ((x2 - x0) * (x2 - x0) <= (vx / n) * (vx / n))%Q).
  { assert (Ed : (vx / n == x1 - x0)%Q) by (unfold x1; ring).
    rewrite Ed. unfold x2.
    destruct (Qltb x1 R) eqn:E1; cbn [orb].
    - apply Qltb_lt in E1.
      destruct (Math_min_spec (width - R) x1) as (H4 & H5 & [H6|H6]);
        destruct (Math_max_spec R (Math_min (width - R) x1))
          as (H1 & H2 & [H3|H3]); rewrite H3; try rewrite H6; nra.
    - apply Qltb_ge in E1. destruct (Qltb (width - R) x1) eqn:E2.
      + apply Qltb_lt in E2.
        destruct (Math_min_spec (width - R) x1) as (H4 & H5 & [H6|H6]);
          destruct (Math_max_spec R (Math_min (width - R) x1))
            as (H1 & H2 & [H3|H3]); rewrite H3; try rewrite H6; nra.
      + lra. }
  assert (Hgoal : (distSq x2 (y0 + vy / n) x0 y0 <= strideSq)%Q).
  { unfold distSq.
    assert (Ey : ((y0 + vy / n - y0) * (y0 + vy / n - y0)
                  == (vy / n) * (vy / n))%Q) by ring.
    rewrite Ey. lra. }
  destruct (Qltb (y0 + vy / n) R); cbn [ballPos px py]; exact Hgoal.
Qed.

Definition flightDemo : Flight :=
  {| ballPos := {| px := 500; py := 600 |};
     ballVel := {| px := 30; py := -40 |};
     collisionOccurred := false |}.

Lemma subStep_bounded_stride_witness :
  (0 < speedSq (ballVel flightDemo))%Q /\
  betweenWalls 1000 (ballPos flightDemo) /\
  (distSq (px (ballPos (subStep 1000 []
                          (flightSteps (speedSq (ballVel flightDemo)))
                          flightDemo)))
          (py (ballPos (subStep 1000 []
                          (flightSteps (speedSq (ballVel flightDemo)))
                          flightDemo)))
          (px (ballPos flightDemo)) (py (ballPos flightDemo))
   <= strideSq)%Q.
Proof.
  assert (H1 : (0 < speedSq (ballVel flightDemo))%Q) by reflexivity.
  assert (H2 : betweenWalls 1000 (ballPos flightDemo))
    by (split; discriminate).
  split; [exact H1|]. split; [exact H2|].
  exact (proj1 (subStep_bounded_stride 1000 [] flightDemo H1 H2)).
Defined.

(** The loop keeps the ball between the walls and keeps its speed. *)
Lemma flightLoop_invariant (width : Q) (bs : list Bubble) (steps : Z) :
  (inject_Z BUBBLE_RADIUS <= width - inject_Z BUBBLE_RADIUS)%Q ->
  forall count f,
    betweenWalls width (ballPos f) ->
    betweenWalls width (ballPos (flightLoop width bs steps count f)) /\
    (speedSq (ballVel (flightLoop width bs steps count f))
     == speedSq (ballVel f))%Q /\
    py (ballVel (flightLoop width bs steps count f)) = py (ballVel f).
Proof.
  intros Hw. induction count as [|count IH]; intros f Hin; cbn [flightLoop].
  - split; [exact Hin|]. split; reflexivity.
  - pose proof (subStep_walls width bs steps f Hw) as Hin'.
    pose proof (subStep_speed width bs steps f) as Hs.
    pose proof (subStep_py width bs steps f) as Hy.
    destruct (collisionOccurred (subStep width bs steps f)).
    + auto.
    + destruct (IH _ Hin') as (H1 & H2 & H3).
      split; [exact H1|]. split; [now rewrite H2 | congruence].
Qed.

(** What the flag says when the loop has run. *)
Lemma flightLoop_flag (width : Q) (bs : list Bubble) (steps : Z) :
  forall count f,
    (0 < count)%nat ->
    let f' := flightLoop width bs steps count f in
    if collisionOccurred f'
    then (py (ballPos f') < inject_Z BUBBLE_RADIUS)%Q \/
         hitsBubble bs (ballPos f') = true
    else (inject_Z BUBBLE_RADIUS <= py (ballPos f'))%Q /\
         hitsBubble bs (ballPos f') = false.
Proof.
  assert (Hstep : forall f,
             let f' := subStep width bs steps f in
             if collisionOccurred f'
             then (py (ballPos f') < inject_Z BUBBLE_RADIUS)%Q \/
                  hitsBubble bs (ballPos f') = true
             else (inject_Z BUBBLE_RADIUS <= py (ballPos f'))%Q /\
                  hitsBubble bs (ballPos f') = false).
  { intros f. cbv zeta. unfold subStep.
    destruct (Qltb (py (ballPos f) + _) _) eqn:Ey;
      cbn [collisionOccurred ballPos py].
    - left. now apply Qltb_lt.
    - apply Qltb_ge in Ey.
      match goal with |- context [hitsBubble bs ?p] =>
        destruct (hitsBubble bs p) eqn:Eh end.
      + right. reflexivity.
      + cbn [py]. split; [exact Ey | reflexivity]. }
  induction count as [|count IH]; intros f Hc; [inversion Hc|].
  cbv zeta. cbn [flightLoop].
  specialize (Hstep f). cbv zeta in Hstep.
  destruct (collisionOccurred (subStep width bs steps f)) eqn:Ec.
  - rewrite Ec. exact Hstep.
  - destruct count as [|count'].
    + cbn [flightLoop]. rewrite Ec. exact Hstep.
    + apply IH. apply Nat.lt_0_succ.
Qed.

Lemma hitsBubble_iff (bs : list Bubble) (p : Point) :
  hitsBubble bs p = true <->
  exists b, In b bs /\ active b = true /\
            (distSq (px p) (py p) (x b) (y b) < 104976 # 25)%Q.
Proof.
  unfold hitsBubble. rewrite existsb_exists.
  assert (E : (inject_Z BUBBLE_RADIUS * (18 # 10)
               * (inject_Z BUBBLE_RADIUS * (18 # 10)) == 104976 # 25)%Q)
    by reflexivity.
  split; intros [b [Hin H]]; exists b.
  - apply andb_true_iff in H. destruct H as [Ha Hd].
    apply Qltb_lt in Hd. rewrite E in Hd. auto.
  - destruct H as [Ha Hd]. split; [exact Hin|].
    apply andb_true_iff. split; [exact Ha|].
    apply Qltb_lt. now rewrite E.
Qed.

(** A frame of flight of a moving ball that starts between the walls.
    The ball is between the walls afterwards; its speed is the speed before
    times [FRICTION], whatever it bounced off; and the frame reports a
    collision exactly when it ends with the ball above the top boundary or
    within [BUBBLE_RADIUS * 1.8] of an active bubble. *)
Theorem flightFrame_spec
    (width : Q) (bs : list Bubble) (pos vel : Point) :
  let f' := flightFrame width bs pos vel in
  (0 < speedSq vel)%Q ->
  betweenWalls width pos ->
  betweenWalls width (ballPos f') /\
  (speedSq (ballVel f') == speedSq vel * (FRICTION * FRICTION))%Q /\
  (collisionOccurred f' = true <->
   (py (ballPos f') < inject_Z BUBBLE_RADIUS)%Q \/
   exists b, In b bs /\ active b = true /\
             (distSq (px (ballPos f')) (py (ballPos f')) (x b) (y b)
              < 104976 # 25)%Q).
Proof.
  cbv zeta. intros Hmove Hin. unfold flightFrame.
  fold (speedSq vel).
  destruct (flightSteps_spec (speedSq vel)) as (_ & _ & Hone).
  specialize (Hone Hmove).
  set (steps := flightSteps (speedSq vel)) in *.
  set (f0 := {| ballPos := pos; ballVel := vel; collisionOccurred := false |}).
  assert (Hw : (inject_Z BUBBLE_RADIUS <= width - inject_Z BUBBLE_RADIUS)%Q)
    by (unfold betweenWalls in Hin; lra).
  destruct (flightLoop_invariant width bs steps Hw (Z.to_nat steps) f0 Hin)
    as (H1 & H2 & H3).
  pose proof (flightLoop_flag width bs steps (Z.to_nat steps) f0
                ltac:(lia)) as Hflag.
  cbv zeta in Hflag.
  set (f := flightLoop width bs steps (Z.to_nat steps) f0) in *.
  cbn [ballPos ballVel collisionOccurred].
  split; [exact H1|]. split.
  - unfold speedSq in *. cbn [px py ballVel f0] in *.
    unfold GRAVITY.
    assert (E : (px (ballVel f) * FRICTION * (px (ballVel f) * FRICTION)
                 + (py (ballVel f) + 0) * FRICTION
                   * ((py (ballVel f) + 0) * FRICTION)
                 == (px (ballVel f) * px (ballVel f)
                     + py (ballVel f) * py (ballVel f))
                    * (FRICTION * FRICTION))%Q) by ring.
    rewrite E, H2. reflexivity.
  - rewrite <- hitsBubble_iff.
    destruct (collisionOccurred f).
    + split; [intros _; exact Hflag | reflexivity].
    + destruct Hflag as [Hy Hh]. split; [discriminate|].
      intros [H|H]; [exfalso; lra | congruence].
Qed.

Lemma flightFrame_spec_witness :
  (0 < speedSq {| px := 30; py := -40 |})%Q /\
  betweenWalls 1000 {| px := 500; py := 600 |} /\
  betweenWalls 1000
    (ballPos (flightFrame 1000 [] {| px := 500; py := 600 |}
                {| px := 30; py := -40 |})).
Proof.
  assert (H1 : (0 < speedSq {| px := 30; py := -40 |})%Q) by reflexivity.
  assert (H2 : betweenWalls 1000 {| px := 500; py := 600 |})
    by (split; discriminate).
  split; [exact H1|]. split; [exact H2|].
  exact (proj1 (flightFrame_spec 1000 [] _ _ H1 H2)).
Defined.

(** ** The clusters offered to the advisor *)

Lemma In_addAll (neighbors : list Bubble) :
  forall visited s,
    In s (addAll visited neighbors) <-> In s visited \/ In s (map id neighbors).
Proof.
  unfold addAll.
  induction neighbors as [|n ns IH]; intros visited s; cbn [fold_left map].
  - cbn. tauto.
  - rewrite IH. cbn. tauto.
Qed.

Lemma unvisitedNeighbors_In (activeBubbles : list Bubble)
    (visited : list string) (c : BubbleColor) (curr n : Bubble) :
  In n (unvisitedNeighbors activeBubbles visited c curr) <->
  In n activeBubbles /\ ~ In (id n) visited /\ color n = c /\
  isNeighbor curr n = true.
Proof.
  unfold unvisitedNeighbors.
  rewrite filter_In, !andb_true_iff, negb_true_iff, <- not_true_iff_false,
    has_In.
  destruct (BubbleColor_eqb_spec (color n) c); intuition congruence.
Qed.

Lemma filter_length_mono_In {A} (f g : A -> bool) (l : list A) :
  (forall a, In a l -> g a = true -> f a = true) ->
  (length (filter g l) <= length (filter f l))%nat.
Proof.
  induction l as [|a l IH]; intros Hgf; cbn; [lia|].
  assert (IH' := IH (fun a0 H => Hgf a0 (or_intror H))).
  destruct (g a) eqn:Eg.
  - rewrite (Hgf a (or_introl eq_refl) Eg). cbn. lia.
  - destruct (f a); cbn; lia.
Qed.

Lemma filter_length_split {A} (f g : A -> bool) (l : list A) :
  length (filter f l)
  = (length (filter (fun a => f a && g a) l)
     + length (filter (fun a => f a && negb (g a)) l))%nat.
Proof.
  induction l as [|a l IH]; cbn; [reflexivity|].
  destruct (f a), (g a); cbn; lia.
Qed.

Section ClusterLoop.

Variable activeBubbles : list Bubble.
Variable c : BubbleColor.

(** The active bubbles whose id is not in [visited]: what the loop can still
    enqueue. *)
Definition unvisitedCount (visited : list string) : nat :=
  length (filter (fun n => negb (has visited (id n))) activeBubbles).

Lemma unvisitedCount_le (visited : list string) :
  (unvisitedCount visited <= length activeBubbles)%nat.
Proof. apply filter_length_le. Qed.

Lemma unvisitedCount_step (visited : list string) (curr : Bubble) :
  let neighbors := unvisitedNeighbors activeBubbles visited c curr in
  (unvisitedCount (addAll visited neighbors) + length neighbors
   <= unvisitedCount visited)%nat.
Proof.
  cbv zeta. unfold unvisitedCount.
  set (g := fun n => BubbleColor_eqb (color n) c && isNeighbor curr n).
  rewrite (filter_length_split (fun n => negb (has visited (id n))) g).
  assert (En : unvisitedNeighbors activeBubbles visited c curr
               = filter (fun n => negb (has visited (id n)) && g n)
                        activeBubbles).
  { unfold unvisitedNeighbors, g. apply filter_ext. intros n.
    now rewrite andb_assoc. }
  rewrite <- En.
  set (ns := unvisitedNeighbors activeBubbles visited c curr) in *.
  enough (length (filter (fun n => negb (has (addAll visited ns) (id n)))
                         activeBubbles)
          <= length (filter (fun n => negb (has visited (id n)) && negb (g n))
                            activeBubbles))%nat by lia.
  apply filter_length_mono_In. intros n Hin Hn.
  apply negb_true_iff in Hn. rewrite <- not_true_iff_false, has_In in Hn.
  rewrite In_addAll in Hn.
  apply andb_true_iff. split.
  - apply negb_true_iff. rewrite <- not_true_iff_false, has_In. tauto.
  - apply negb_true_iff. destruct (g n) eqn:Eg; [|reflexivity].
    exfalso. apply Hn. right. apply in_map. rewrite En.
    apply filter_In. split; [exact Hin|]. rewrite Eg, andb_true_r.
    apply negb_true_iff. rewrite <- not_true_iff_false, has_In. tauto.
Qed.

(** The loop ends within [length queue + unvisitedCount visited] turns, and
    what every turn keeps holds at the end. *)
Lemma clusterLoop_inv
    (Inv : list Bubble -> list string -> list Bubble -> Prop) :
  (forall curr rest visited members,
      Inv (curr :: rest) visited members ->
      Inv (rest ++ unvisitedNeighbors activeBubbles visited c curr)
          (addAll visited (unvisitedNeighbors activeBubbles visited c curr))
          (members ++ [curr])) ->
  forall fuel queue visited members,
    (length queue + unvisitedCount visited <= fuel)%nat ->
    Inv queue visited members ->
    exists clusterMembers visited',
      clusterLoop fuel activeBubbles c queue visited members
      = Some (clusterMembers, visited') /\
      Inv [] visited' clusterMembers.
Proof.
  intros Hstep. induction fuel as [|fuel IH]; intros queue v m Hpot Hinv;
    destruct queue as [|curr rest].
  - exists m, v. split; [reflexivity | exact Hinv].
  - cbn in Hpot. lia.
  - exists m, v. split; [reflexivity | exact Hinv].
  - cbn [clusterLoop]. apply IH.
    + pose proof (unvisitedCount_step v curr) as Hs. cbv zeta in Hs.
      rewrite length_app. cbn [length] in Hpot. lia.
    + apply Hstep. exact Hinv.
Qed.

End ClusterLoop.

Section Candidates.

Variable anchorPos : option Point.
Variable bs : list Bubble.
Variable containerWidth : Q.

(** The candidate describes the bubble [m]. *)
Definition pointsAt (t : GeminiService.TargetCandidate) (m : Bubble) : Prop :=
  GeminiService.id t = id m /\
  GeminiService.row t = row m /\
  GeminiService.col t = col m /\
  GeminiService.color t = colorName (color m) /\
  GeminiService.pointsPerBubble t = points (COLOR_CONFIG (color m)) /\
  GeminiService.description t = describe (x m) containerWidth.

(** The candidate describes an active bubble with a clear path. *)
Definition hittable (t : GeminiService.TargetCandidate) : Prop :=
  exists m,
    In m bs /\ active m = true /\ isPathClear anchorPos bs m = true /\
    pointsAt t m /\ 1 <= GeminiService.size t.

Lemma Array_sort_length {A} (f : A -> A -> Z) (l : list A) :
  length (GeminiService.Array_sort f l) = length l.
Proof.
  induction l as [|a l IH]; [reflexivity|].
  change (GeminiService.Array_sort f (a :: l))
    with (GeminiService.insertSorted f a (GeminiService.Array_sort f l)).
  cbn [length]. rewrite <- IH. generalize (GeminiService.Array_sort f l) as s.
  induction s as [|b s IHs]; cbn; [reflexivity|].
  destruct (f a b <=? 0); cbn; [reflexivity | now rewrite IHs].
Qed.

Lemma clusterOf_sound (c : BubbleColor) (visited : list string)
    (allClusters : list GeminiService.TargetCandidate) (b : Bubble) :
  In b (filter active bs) ->
  Forall hittable allClusters ->
  exists visited' allClusters',
    clusterOf anchorPos bs containerWidth (filter active bs) c
              (Some (visited, allClusters)) b
    = Some (visited', allClusters') /\
    Forall hittable allClusters'.
Proof.
  intros Hb Hall. unfold clusterOf.
  destruct (negb (BubbleColor_eqb (color b) c)
            || has visited (id b) && BubbleColor_eqb (color b) c) eqn:Eskip.
  - eauto.
  - apply orb_false_iff in Eskip. destruct Eskip as [Ec _].
    apply negb_false_iff in Ec.
    destruct (BubbleColor_eqb_spec (color b) c) as [Hc|]; [|discriminate].
    destruct (clusterLoop_inv (filter active bs) c
                (fun queue _ members =>
                   (forall n, In n (queue ++ members) ->
                              In n (filter active bs) /\ color n = c) /\
                   (0 < length (queue ++ members))%nat))
      with (fuel := clusterFuel (length (filter active bs)))
           (queue := [b]) (visited := id b :: visited)
           (members := @nil Bubble)
      as (members & v' & Hrun & Hm & Hlen).
    + intros curr rest v m [Hin Hpos]. split.
      * intros n Hn. rewrite !in_app_iff in Hn.
        destruct Hn as [[Hn|Hn]|[Hn|Hn]].
        -- apply Hin. cbn. right. apply in_app_iff. now left.
        -- apply unvisitedNeighbors_In in Hn. tauto.
        -- apply Hin. cbn. right. apply in_app_iff. now right.
        -- cbn in Hn. destruct Hn as [<-|[]]. apply Hin. now left.
      * rewrite !length_app. cbn. lia.
    + pose proof (unvisitedCount_le (filter active bs) (id b :: visited)).
      unfold clusterFuel. cbn [length]. lia.
    + split; [|cbn; lia].
      intros n [<-|[]]. auto.
    + rewrite Hrun. cbn [app] in Hm, Hlen.
      destruct (find (isPathClear anchorPos bs)
                     (GeminiService.Array_sort lowestFirst members))
        as [h|] eqn:Ef.
      * eexists _, _. split; [reflexivity|].
        apply Forall_app. split; [exact Hall|]. constructor; [|constructor].
        apply find_some in Ef. destruct Ef as [Hh Hclear].
        apply GeminiServiceFacts.Array_sort_In in Hh.
        destruct (Hm h Hh) as [Hact Hcol]. apply filter_In in Hact.
        exists h. split; [tauto|]. split; [tauto|]. split; [exact Hclear|].
        split.
        -- unfold pointsAt. cbn. rewrite Hcol. repeat split; reflexivity.
        -- cbn. rewrite Array_sort_length. lia.
      * eauto.
Qed.

Lemma clustersOfColor_sound (c : BubbleColor) :
  forall l visited allClusters,
    (forall b, In b l -> In b (filter active bs)) ->
    Forall hittable allClusters ->
    exists visited' allClusters',
      fold_left (clusterOf anchorPos bs containerWidth (filter active bs) c)
                l (Some (visited, allClusters))
      = Some (visited', allClusters') /\
      Forall hittable allClusters'.
Proof.
  induction l as [|b l IH]; intros v all Hl Hall; cbn [fold_left].
  - eauto.
  - destruct (clusterOf_sound c v all b (Hl b (or_introl eq_refl)) Hall)
      as (v' & all' & E & Hall').
    rewrite E. apply IH; [|exact Hall'].
    intros b' Hb'. apply Hl. now right.
Qed.

(** The cluster search returns, and every candidate it returns describes an
    active bubble to which the path from the anchor is clear: it has that
    bubble's id, row and column, the name and the points of its colour, and
    a cluster size of at least 1. *)
Theorem getAllReachableClusters_sound :
  exists allClusters,
    getAllReachableClusters anchorPos bs containerWidth = Some allClusters /\
    forall t, In t allClusters -> hittable t.
Proof.
  unfold getAllReachableClusters.
  assert (H : forall colors allClusters,
             Forall hittable allClusters ->
             exists allClusters',
               fold_left (clustersOfColor anchorPos bs containerWidth
                                          (filter active bs))
                         colors (Some allClusters)
               = Some allClusters' /\
               Forall hittable allClusters').
  { induction colors as [|c colors IH]; intros all Hall; cbn [fold_left].
    - eauto.
    - unfold clustersOfColor at 2.
      destruct (clustersOfColor_sound c (filter active bs) [] all
                  (fun b H => H) Hall) as (v' & all' & E & Hall').
      rewrite E. cbn [option_map snd]. apply IH. exact Hall'. }
  destruct (H (distinctColors [] (map color (filter active bs))) []
              (Forall_nil _)) as (all & E & Hall).
  exists all. split; [exact E|]. now apply Forall_forall.
Qed.

End Candidates.

(** *** Clusters are connected components *)

Lemma isNeighbor_flip (a b : Bubble) :
  isNeighbor a b = true -> isNeighbor b a = true.
Proof.
  unfold isNeighbor.
  destruct (Z.ltb_spec 1 (Z.abs (row b - row a))) as [Hd|Hd];
    [discriminate|].
  destruct (Z.ltb_spec 1 (Z.abs (row a - row b))) as [Hd'|Hd'];
    [exfalso; lia|].
  destruct (Z.eqb_spec (row b - row a) 0) as [E|E];
    destruct (Z.eqb_spec (row a - row b) 0) as [E'|E']; try (exfalso; lia).
  - rewrite !Z.eqb_eq. lia.
  - assert (Hr : row b = row a + 1 \/ row b = row a - 1) by lia.
    assert (Hp : (Z.rem (row b) 2 =? 0) = negb (Z.rem (row a) 2 =? 0)).
    { destruct Hr as [-> | ->]; [apply rem2_succ_flip | apply rem2_pred_flip]. }
    rewrite Hp. destruct (Z.rem (row a) 2 =? 0); cbn;
      rewrite !orb_true_iff, !Z.eqb_eq; lia.
Qed.

(** The bubbles that chains of neighbouring bubbles of [activeBubbles] with
    colour [c] reach from [b]. *)
Inductive Linked (activeBubbles : list Bubble) (c : BubbleColor) (b : Bubble)
  : Bubble -> Prop :=
| Linked_start : Linked activeBubbles c b b
| Linked_step m n :
    Linked activeBubbles c b m ->
    In n activeBubbles -> color n = c -> isNeighbor m n = true ->
    Linked activeBubbles c b n.

Lemma Linked_trans (act : list Bubble) (c : BubbleColor) (a b n : Bubble) :
  Linked act c a b -> Linked act c b n -> Linked act c a n.
Proof.
  intros Hab Hbn. induction Hbn as [|m n Hm IH Hin Hc Hn]; [exact Hab|].
  now apply (Linked_step act c a m n).
Qed.

Lemma Linked_In (act : list Bubble) (c : BubbleColor) (a n : Bubble) :
  In a act -> color a = c -> Linked act c a n -> In n act /\ color n = c.
Proof. intros Ha Hc H. destruct H; auto. Qed.

Lemma Linked_back (act : list Bubble) (c : BubbleColor) (a n : Bubble) :
  In a act -> color a = c -> Linked act c a n -> Linked act c n a.
Proof.
  intros Ha Hc H. induction H as [|m n Hm IH Hin Hcn Hn].
  - apply Linked_start.
  - destruct (Linked_In act c a m Ha Hc Hm) as [Hmin Hmc].
    apply (Linked_trans act c n m a); [|exact IH].
    apply (Linked_step act c n n m); auto using Linked_start, isNeighbor_flip.
Qed.

Lemma ids_inj (l : list Bubble) (a b : Bubble) :
  NoDup (map id l) -> In a l -> In b l -> id a = id b -> a = b.
Proof.
  induction l as [|h l IH]; intros Hnd Ha Hb Hid; [contradiction|].
  cbn in Hnd. inversion Hnd as [|? ? Hnot Hnd']; subst.
  destruct Ha as [->|Ha], Hb as [->|Hb]; auto.
  - exfalso. apply Hnot. rewrite Hid. now apply in_map.
  - exfalso. apply Hnot. rewrite <- Hid. now apply in_map.
Qed.

Lemma filter_ids_NoDup (keep : Bubble -> bool) (bs : list Bubble) :
  NoDup (map id bs) -> NoDup (map id (filter keep bs)).
Proof.
  intros Hnd. induction bs as [|b bs IH]; cbn; [constructor|].
  cbn in Hnd. inversion Hnd as [|? ? Hnot Hnd']; subst.
  destruct (keep b); cbn; [|auto].
  constructor; [|auto]. intros Hin. apply Hnot.
  apply in_map_iff in Hin. destruct Hin as [b' [Hid Hin']].
  apply filter_In in Hin'. apply in_map_iff. exists b'. tauto.
Qed.

Lemma NoDup_append {A} (l l' : list A) :
  NoDup l -> NoDup l' -> (forall a, In a l -> ~ In a l') -> NoDup (l ++ l').
Proof.
  induction l as [|a l IH]; intros Hl Hl' Hd; cbn; [exact Hl'|].
  inversion Hl as [|? ? Hnot Hnd]; subst. constructor.
  - rewrite in_app_iff. intros [H|H]; [auto|].
    apply (Hd a); [now left | exact H].
  - apply IH; auto. intros a' Ha'. apply Hd. now right.
Qed.

Section Bfs.

Variable act : list Bubble.
Variable c : BubbleColor.
Variable visited0 : list string.
Variable b : Bubble.

Hypothesis Hids : NoDup (map id act).
Hypothesis Hb : In b act.
Hypothesis Hc : color b = c.
Hypothesis Hfresh : ~ In (id b) visited0.

(** The ids visited for the earlier clusters of the colour are closed under
    adjacency. *)
Definition closedIds (visited : list string) : Prop :=
  forall m n,
    In m act -> In n act -> color m = c -> color n = c ->
    isNeighbor m n = true -> In (id m) visited -> In (id n) visited.

Hypothesis Hclosed0 : closedIds visited0.

(** What every turn of the loop keeps. *)
Record BfsInv (queue : list Bubble) (visited : list string)
    (members : list Bubble) : Prop := {
  bfs_linked : forall n, In n (members ++ queue) ->
                         In n act /\ color n = c /\ Linked act c b n;
  bfs_visited : forall s, In s visited <->
                          In s visited0 \/ In s (map id (members ++ queue));
  bfs_closed : forall p n, In p members -> In n act -> color n = c ->
                           isNeighbor p n = true -> In (id n) visited;
  bfs_nodup : NoDup (map id (members ++ queue));
  bfs_fresh : forall n, In n (members ++ queue) -> ~ In (id n) visited0;
  bfs_start : In b (members ++ queue)
}.

Lemma BfsInv_init : BfsInv [b] (id b :: visited0) [].
Proof.
  split; cbn.
  - intros n [<-|[]]. auto using Linked_start.
  - intros s. tauto.
  - intros p n [].
  - constructor; [intros [] | constructor].
  - intros n [<-|[]]. exact Hfresh.
  - now left.
Qed.

Lemma BfsInv_step (curr : Bubble) (rest : list Bubble)
    (visited : list string) (members : list Bubble) :
  BfsInv (curr :: rest) visited members ->
  BfsInv (rest ++ unvisitedNeighbors act visited c curr)
         (addAll visited (unvisitedNeighbors act visited c curr))
         (members ++ [curr]).
Proof.
  intros [Hl Hv Hcl Hnd Hf Hs].
  set (ns := unvisitedNeighbors act visited c curr).
  assert (E : (members ++ [curr]) ++ rest ++ ns
              = (members ++ curr :: rest) ++ ns).
  { rewrite <- !app_assoc. reflexivity. }
  assert (Hcurr : In curr (members ++ curr :: rest)).
  { apply in_app_iff. right. now left. }
  split; rewrite ?E.
  - intros n Hn. apply in_app_iff in Hn. destruct Hn as [Hn|Hn]; [auto|].
    apply unvisitedNeighbors_In in Hn. destruct Hn as (Hin & _ & Hcn & Hnb).
    split; [exact Hin|]. split; [exact Hcn|].
    apply (Linked_step act c b curr n); auto. now apply Hl.
  - intros s.
    rewrite In_addAll, Hv, (map_app id (members ++ curr :: rest) ns),
      (in_app_iff (map id (members ++ curr :: rest))).
    tauto.
  - intros p n Hp Hin Hcn Hnb. apply In_addAll.
    apply in_app_iff in Hp. destruct Hp as [Hp|[<-|[]]].
    + left. now apply (Hcl p n).
    + destruct (has visited (id n)) eqn:Eh.
      * left. now apply has_In.
      * right. apply in_map. apply unvisitedNeighbors_In.
        rewrite <- has_In, Eh. auto using diff_false_true.
  - rewrite map_app. apply NoDup_append; [exact Hnd | |].
    + unfold ns, unvisitedNeighbors. now apply filter_ids_NoDup.
    + intros s Hs1 Hs2. apply in_map_iff in Hs2.
      destruct Hs2 as [n [<- Hn]]. apply unvisitedNeighbors_In in Hn.
      destruct Hn as (_ & Hnv & _). apply Hnv. apply Hv. now right.
  - intros n Hn. apply in_app_iff in Hn. destruct Hn as [Hn|Hn]; [auto|].
    apply unvisitedNeighbors_In in Hn. destruct Hn as (_ & Hnv & _).
    intros H0. apply Hnv. apply Hv. now left.
  - apply in_app_iff. now left.
Qed.

(** The loop returns the component of [b], each bubble once, and has then
    visited the ids of the component besides those visited before. *)
Lemma clusterLoop_component :
  exists clusterMembers visited',
    clusterLoop (clusterFuel (length act)) act c [b] (id b :: visited0) []
    = Some (clusterMembers, visited') /\
    NoDup clusterMembers /\
    (forall n, In n clusterMembers <-> Linked act c b n) /\
    (forall s, In s visited' <->
               In s visited0 \/ In s (map id clusterMembers)) /\
    closedIds visited'.
Proof.
  destruct (clusterLoop_inv act c BfsInv BfsInv_step
              (clusterFuel (length act)) [b] (id b :: visited0) [])
    as (members & v' & Hrun & [Hl Hv Hcl Hnd Hf Hs]).
  { pose proof (unvisitedCount_le act (id b :: visited0)).
    unfold clusterFuel. cbn [length]. lia. }
  { apply BfsInv_init. }
  rewrite app_nil_r in *.
  exists members, v'. split; [exact Hrun|].
  split; [now apply NoDup_map_inv in Hnd|].
  split; [|split; [exact Hv|]].
  - intros n. split; [intros Hn; now apply Hl|].
    induction 1 as [|m n Hm IH Hin Hcn Hnb]; [exact Hs|].
    pose proof (Hcl m n IH Hin Hcn Hnb) as Hvis. apply Hv in Hvis.
    destruct Hvis as [H0|Hmem].
    + exfalso. apply (Hf m IH).
      destruct (Hl m IH) as (Hmin & Hmc & _).
      apply (Hclosed0 n m); auto using isNeighbor_flip.
    + apply in_map_iff in Hmem. destruct Hmem as [n' [Hid Hn']].
      destruct (Hl n' Hn') as (Hin' & _).
      now rewrite <- (ids_inj act n' n Hids Hin' Hin Hid).
  - intros m n Hm Hn Hmc Hnc Hnb Hvis. apply Hv in Hvis.
    destruct Hvis as [H0|Hmem].
    + apply Hv. left. now apply (Hclosed0 m n).
    + apply in_map_iff in Hmem. destruct Hmem as [m' [Hid Hm']].
      destruct (Hl m' Hm') as (Hin' & _).
      rewrite (ids_inj act m' m Hids Hin' Hm Hid) in Hm'.
      now apply (Hcl m n).
Qed.

End Bfs.

(** *** The order in which a cluster is searched for a target *)

Lemma lowestFirst_le (a b : Bubble) :
  lowestFirst a b <= 0 <-> (y b <= y a)%Q.
Proof.
  unfold lowestFirst. destruct (y b ?= y a)%Q eqn:E.
  - apply Qeq_alt in E. split; [intros _; rewrite E; apply Qle_refl | lia].
  - apply Qlt_alt in E. split; [intros _; now apply Qlt_le_weak | lia].
  - apply Qgt_alt in E. split; [lia|]. intros H. exfalso.
    apply (Qlt_irrefl (y a)). eapply Qlt_le_trans; eauto.
Qed.

Lemma Array_sort_lowestFirst (l : list Bubble) :
  StronglySorted (fun a b => (y b <= y a)%Q)
                 (GeminiService.Array_sort lowestFirst l).
Proof.
  induction l as [|a l IH]; [constructor|].
  change (GeminiService.Array_sort lowestFirst (a :: l))
    with (GeminiService.insertSorted lowestFirst a
            (GeminiService.Array_sort lowestFirst l)).
  revert IH. generalize (GeminiService.Array_sort lowestFirst l) as s.
  induction s as [|h s IHs]; intros Hs; cbn.
  - constructor; constructor.
  - inversion Hs as [|? ? Hs' Hall]; subst.
    destruct (Z.leb_spec (lowestFirst a h) 0) as [Hle|Hgt].
    + apply lowestFirst_le in Hle. constructor; [exact Hs|].
      constructor; [exact Hle|].
      eapply Forall_impl; [|exact Hall].
      intros z Hz. cbn in Hz. eapply Qle_trans; eauto.
    + constructor; [auto|].
      apply Forall_forall. intros z Hz.
      apply GeminiServiceFacts.insertSorted_In in Hz.
      destruct Hz as [->|Hz].
      * assert (Hn : ~ lowestFirst a h <= 0) by lia.
        rewrite lowestFirst_le in Hn. apply Qnot_le_lt in Hn.
        now apply Qlt_le_weak.
      * rewrite Forall_forall in Hall. now apply Hall.
Qed.

Lemma find_lowest (p : Bubble -> bool) (l : list Bubble) (m : Bubble) :
  StronglySorted (fun a b => (y b <= y a)%Q) l ->
  find p l = Some m ->
  forall n, In n l -> p n = true -> (y n <= y m)%Q.
Proof.
  induction l as [|h l IH]; intros Hs Hf n Hn Hp; [contradiction|].
  inversion Hs as [|? ? Hs' Hall]; subst. cbn in Hf.
  destruct (p h) eqn:Eh.
  - injection Hf as <-. destruct Hn as [->|Hn]; [apply Qle_refl|].
    rewrite Forall_forall in Hall. now apply Hall.
  - destruct Hn as [->|Hn]; [congruence|]. now apply IH.
Qed.

(** *** The candidates of a field with unique ids *)

Section Components.

Variable anchorPos : option Point.
Variable bs : list Bubble.
Variable containerWidth : Q.

Hypothesis Hunique : uniqueIds bs.

(** The candidate [t] stands for the cluster [members] and aims at its
    bubble [m]. *)
Definition clusterOfTarget (t : GeminiService.TargetCandidate) (m : Bubble)
    (members : list Bubble) : Prop :=
  In m bs /\ active m = true /\ isPathClear anchorPos bs m = true /\
  pointsAt containerWidth t m /\
  In m members /\ NoDup members /\
  (forall n, In n members <-> Linked (filter active bs) (color m) m n) /\
  GeminiService.size t = Z.of_nat (length members) /\
  (forall n, In n members -> isPathClear anchorPos bs n = true ->
             (y n <= y m)%Q).

Definition standsForCluster (t : GeminiService.TargetCandidate) : Prop :=
  exists m members, clusterOfTarget t m members.

(** What the loop over the active bubbles keeps for one colour. *)
Record ColorInv (c : BubbleColor) (visited : list string)
    (allClusters : list GeminiService.TargetCandidate) : Prop := {
  ci_closed : closedIds (filter active bs) c visited;
  ci_covered :
    forall n, In n (filter active bs) -> color n = c ->
              In (id n) visited -> isPathClear anchorPos bs n = true ->
              exists t m members,
                In t allClusters /\ clusterOfTarget t m members /\
                In n members;
  ci_all : Forall standsForCluster allClusters
}.

Lemma activeIds_NoDup : NoDup (map id (filter active bs)).
Proof. now apply filter_ids_NoDup. Qed.

Lemma clusterOf_component (c : BubbleColor) (visited : list string)
    (allClusters : list GeminiService.TargetCandidate) (b : Bubble) :
  In b (filter active bs) ->
  ColorInv c visited allClusters ->
  exists visited' extra,
    clusterOf anchorPos bs containerWidth (filter active bs) c
              (Some (visited, allClusters)) b
    = Some (visited', allClusters ++ extra) /\
    ColorInv c visited' (allClusters ++ extra) /\
    (forall s, In s visited -> In s visited') /\
    (color b = c -> In (id b) visited').
Proof.
  intros Hb [Hcl Hcov Hall]. unfold clusterOf.
  destruct (negb (BubbleColor_eqb (color b) c)
            || has visited (id b) && BubbleColor_eqb (color b) c) eqn:Eskip.
  - exists visited, []. rewrite app_nil_r.
    split; [reflexivity|]. split; [now split|]. split; [auto|].
    intros Hc. apply orb_true_iff in Eskip. destruct Eskip as [E|E].
    + apply negb_true_iff in E.
      destruct (BubbleColor_eqb_spec (color b) c); congruence.
    + apply andb_true_iff in E. apply has_In. tauto.
  - apply orb_false_iff in Eskip. destruct Eskip as [Ec Ev].
    apply negb_false_iff in Ec. rewrite Ec, andb_true_r in Ev.
    destruct (BubbleColor_eqb_spec (color b) c) as [Hc|]; [|discriminate].
    assert (Hfresh : ~ In (id b) visited).
    { rewrite <- has_In. congruence. }
    destruct (clusterLoop_component (filter active bs) c visited b
                activeIds_NoDup Hb Hc Hfresh Hcl)
      as (members & v' & Hrun & Hnd & Hmem & Hv & Hcl').
    rewrite Hrun.
    assert (Hsame : forall n, In n (filter active bs) ->
                              In (id n) (map id members) -> In n members).
    { intros n Hn Hid. apply in_map_iff in Hid. destruct Hid as [n' [Hid Hn']].
      assert (Hin' : In n' (filter active bs)).
      { apply Hmem in Hn'. now destruct (Linked_In _ _ _ _ Hb Hc Hn'). }
      now rewrite <- (ids_inj _ n' n activeIds_NoDup Hin' Hn Hid). }
    destruct (find (isPathClear anchorPos bs)
                   (GeminiService.Array_sort lowestFirst members))
      as [h|] eqn:Ef.
    + eexists v', [_]. split; [reflexivity|].
      set (t := {| GeminiService.id := id h |}).
      assert (Ht : clusterOfTarget t h members).
      { pose proof (find_lowest _ _ _ (Array_sort_lowestFirst members) Ef)
          as Hlow.
        apply find_some in Ef. destruct Ef as [Hh Hclear].
        apply GeminiServiceFacts.Array_sort_In in Hh.
        pose proof (proj1 (Hmem h) Hh) as Hbh.
        destruct (Linked_In _ _ _ _ Hb Hc Hbh) as [Hact Hch].
        pose proof (Linked_back _ _ _ _ Hb Hc Hbh) as Hhb.
        apply filter_In in Hact.
        split; [tauto|]. split; [tauto|]. split; [exact Hclear|].
        split; [unfold pointsAt, t; cbn; rewrite Hch; repeat split|].
        split; [exact Hh|]. split; [exact Hnd|]. split; [|split].
        - intros n. rewrite Hch, Hmem. split; intros Hn.
          + exact (Linked_trans _ _ _ _ _ Hhb Hn).
          + exact (Linked_trans _ _ _ _ _ Hbh Hn).
        - unfold t. cbn. now rewrite Array_sort_length.
        - intros n Hn Hp. apply Hlow; [|exact Hp].
          now apply GeminiServiceFacts.Array_sort_In. }
      split; [split|].
      * exact Hcl'.
      * intros n Hn Hcn Hvis Hp. apply Hv in Hvis.
        destruct Hvis as [H0|Hm].
        -- destruct (Hcov n Hn Hcn H0 Hp) as (t0 & m0 & ms0 & Hin0 & H1 & H2).
           exists t0, m0, ms0. split; [|tauto].
           apply in_app_iff. now left.
        -- exists t, h, members. split; [|split; [exact Ht | auto]].
           apply in_app_iff. right. now left.
      * apply Forall_app. split; [exact Hall|].
        constructor; [|constructor]. now exists h, members.
      * split.
        -- intros s Hs. apply Hv. now left.
        -- intros _. apply Hv. right. apply in_map. apply Hmem.
           apply Linked_start.
    + exists v', []. rewrite app_nil_r. split; [reflexivity|].
      split; [split|].
      * exact Hcl'.
      * intros n Hn Hcn Hvis Hp. apply Hv in Hvis.
        destruct Hvis as [H0|Hm]; [now apply Hcov|].
        exfalso. pose proof (Hsame n Hn Hm) as Hnm.
        apply (GeminiServiceFacts.Array_sort_In lowestFirst) in Hnm.
        pose proof (find_none _ _ Ef n Hnm). congruence.
      * exact Hall.
      * split.
        -- intros s Hs. apply Hv. now left.
        -- intros _. apply Hv. right. apply in_map. apply Hmem.
           apply Linked_start.
Qed.

Lemma clustersOfColor_component (c : BubbleColor) :
  forall l visited allClusters,
    (forall b, In b l -> In b (filter active bs)) ->
    ColorInv c visited allClusters ->
    exists visited' extra,
      fold_left (clusterOf anchorPos bs containerWidth (filter active bs) c)
                l (Some (visited, allClusters))
      = Some (visited', allClusters ++ extra) /\
      ColorInv c visited' (allClusters ++ extra) /\
      (forall s, In s visited -> In s visited') /\
      (forall n, In n l -> color n = c -> In (id n) visited').
Proof.
  induction l as [|b l IH]; intros v all Hl Hinv; cbn [fold_left].
  - exists v, []. rewrite app_nil_r. split; [reflexivity|].
    split; [exact Hinv|]. split; [auto|]. intros n [].
  - destruct (clusterOf_component c v all b (Hl b (or_introl eq_refl)) Hinv)
      as (v1 & e1 & E1 & Hinv1 & Hmono1 & Hb1).
    rewrite E1.
    destruct (IH v1 (all ++ e1) (fun b' H => Hl b' (or_intror H)) Hinv1)
      as (v2 & e2 & E2 & Hinv2 & Hmono2 & Hl2).
    exists v2, (e1 ++ e2). rewrite app_assoc.
    split; [exact E2|]. split; [exact Hinv2|]. split; [auto|].
    intros n [<-|Hn] Hcn; auto.
Qed.

(** Every active bubble with a clear path lies in the cluster of a
    candidate. *)
Definition coveredIn (allClusters : list GeminiService.TargetCandidate)
    (n : Bubble) : Prop :=
  exists t m members,
    In t allClusters /\ clusterOfTarget t m members /\ In n members.

Lemma color_component (c : BubbleColor)
    (allClusters : list GeminiService.TargetCandidate) :
  Forall standsForCluster allClusters ->
  exists extra,
    clustersOfColor anchorPos bs containerWidth (filter active bs)
                    (Some allClusters) c
    = Some (allClusters ++ extra) /\
    Forall standsForCluster (allClusters ++ extra) /\
    forall n, In n (filter active bs) -> color n = c ->
              isPathClear anchorPos bs n = true ->
              coveredIn (allClusters ++ extra) n.
Proof.
  intros Hall. unfold clustersOfColor.
  destruct (clustersOfColor_component c (filter active bs) [] allClusters
              (fun b H => H)) as (v' & extra & E & [Hcl Hcov Hall'] & _ & Hvis).
  { split; [|intros n _ _ []|exact Hall]. intros m n _ _ _ _ _ []. }
  rewrite E. exists extra. split; [reflexivity|]. split; [exact Hall'|].
  intros n Hn Hcn Hp. apply Hcov; auto.
Qed.

Lemma colors_component :
  forall colors allClusters,
    Forall standsForCluster allClusters ->
    exists extra,
      fold_left (clustersOfColor anchorPos bs containerWidth
                                 (filter active bs))
                colors (Some allClusters)
      = Some (allClusters ++ extra) /\
      Forall standsForCluster (allClusters ++ extra) /\
      forall n, In n (filter active bs) -> In (color n) colors ->
                isPathClear anchorPos bs n = true ->
                coveredIn (allClusters ++ extra) n.
Proof.
  induction colors as [|c colors IH]; intros all Hall; cbn [fold_left].
  - exists []. rewrite app_nil_r. split; [reflexivity|].
    split; [exact Hall|]. intros n _ [].
  - destruct (color_component c all Hall) as (e1 & E1 & Hall1 & Hcov1).
    rewrite E1.
    destruct (IH (all ++ e1) Hall1) as (e2 & E2 & Hall2 & Hcov2).
    exists (e1 ++ e2). rewrite app_assoc.
    split; [exact E2|]. split; [exact Hall2|].
    intros n Hn [Hc|Hc] Hp; [|now apply Hcov2].
    destruct (Hcov1 n Hn (eq_sym Hc) Hp) as (t & m & ms & Hin & H1 & H2).
    exists t, m, ms. split; [|tauto]. apply in_app_iff. now left.
Qed.

(** The search of a field with unique ids: each candidate stands for a
    cluster, and each active bubble with a clear path lies in the cluster of
    a candidate. *)
Lemma getAllReachableClusters_components :
  exists allClusters,
    getAllReachableClusters anchorPos bs containerWidth = Some allClusters /\
    Forall standsForCluster allClusters /\
    forall n, In n bs -> active n = true ->
              isPathClear anchorPos bs n = true ->
              coveredIn allClusters n.
Proof.
  unfold getAllReachableClusters.
  destruct (colors_component
              (distinctColors [] (map color (filter active bs))) []
              (Forall_nil _)) as (cs & E & Hall & Hcov).
  cbn [app] in *. exists cs. split; [exact E|]. split; [exact Hall|].
  intros n Hn Ha Hp.
  assert (Hact : In n (filter active bs)) by (apply filter_In; auto).
  apply Hcov; [exact Hact | | exact Hp].
  apply (proj2 (distinctColors_spec _ [])). split; [|intros []].
  now apply in_map.
Qed.

End Components.

(** In a field with unique ids, a candidate of the cluster search stands for
    a connected cluster: the bubbles [members] that chains of neighbouring
    active bubbles of one colour reach from the bubble [m] it aims at.  Its
    [size] is the number of those bubbles, and no bubble of the cluster with
    a clear path is lower on the screen than [m]. *)
Theorem getAllReachableClusters_cluster
    (anchorPos : option Point) (bs : list Bubble) (containerWidth : Q)
    (allClusters : list GeminiService.TargetCandidate)
    (t : GeminiService.TargetCandidate) :
  uniqueIds bs ->
  getAllReachableClusters anchorPos bs containerWidth = Some allClusters ->
  In t allClusters ->
  exists m members,
    pointsAt containerWidth t m /\
    In m members /\ NoDup members /\
    (forall n, In n members <->
               Linked (filter active bs) (color m) m n) /\
    GeminiService.size t = Z.of_nat (length members) /\
    (forall n, In n members -> isPathClear anchorPos bs n = true ->
               (y n <= y m)%Q).
Proof.
  intros Hu Hrun Ht.
  destruct (getAllReachableClusters_components anchorPos bs containerWidth Hu)
    as (cs & E & Hall & _).
  rewrite Hrun in E. injection E as <-.
  rewrite Forall_forall in Hall.
  destruct (Hall t Ht) as (m & members & H).
  exists m, members. unfold clusterOfTarget in H. tauto.
Qed.

(** In a field with unique ids, every active bubble with a clear path is
    offered: some candidate aims at a bubble of its cluster. *)
Theorem getAllReachableClusters_complete
    (anchorPos : option Point) (bs : list Bubble) (containerWidth : Q)
    (b : Bubble) :
  uniqueIds bs ->
  In b bs -> active b = true -> isPathClear anchorPos bs b = true ->
  exists allClusters t m,
    getAllReachableClusters anchorPos bs containerWidth = Some allClusters /\
    In t allClusters /\ pointsAt containerWidth t m /\
    color m = color b /\
    Linked (filter active bs) (color b) m b.
Proof.
  intros Hu Hb Ha Hp.
  destruct (getAllReachableClusters_components anchorPos bs containerWidth Hu)
    as (cs & E & _ & Hcov).
  destruct (Hcov b Hb Ha Hp) as (t & m & members & Ht & Hcl & Hin).
  destruct Hcl as (Hm & Hma & _ & Hpt & _ & _ & Hmem & _).
  apply Hmem in Hin.
  assert (Hact : In m (filter active bs)) by (apply filter_In; auto).
  destruct (Linked_In _ _ _ _ Hact eq_refl Hin) as [_ Hcb].
  exists cs, t, m. rewrite <- Hcb in Hin. auto 10.
Qed.

Module FallbackFacts.

Section AnyRuntime.

Context {rt : GeminiService.JsRuntime}.

(** With a client, a response that records an error carries the hint of the
    local fallback. *)
Lemma getStrategicHint_fallback
    (validTargets : list GeminiService.TargetCandidate)
    (outcome : GeminiService.ApiOutcome) :
  GeminiService.error
    (GeminiService.getStrategicHint true validTargets outcome) <> None ->
  exists msg,
    GeminiService.hint
      (GeminiService.getStrategicHint true validTargets outcome)
    = GeminiService.getBestLocalTarget validTargets msg.
Proof.
  unfold GeminiService.getStrategicHint. cbn [negb].
  destruct outcome as [|text];
    cbn [GeminiService.hint GeminiService.error]; [eauto|].
  unfold GeminiService.hintFromText, GeminiService.hintFromParsed.
  destruct (GeminiService.JSON_parse _) as [json|];
    cbn [GeminiService.hint GeminiService.error]; [|eauto].
  destruct (GeminiService.hintFromJson validTargets json) as [res|] eqn:Hres;
    cbn [GeminiService.hint GeminiService.error]; [|eauto].
  revert Hres. unfold GeminiService.hintFromJson.
  repeat match goal with
         | |- context [match ?t with _ => _ end] =>
             destruct t; try discriminate
         end;
    intros [= <-]; cbn [GeminiService.hint GeminiService.error];
    eauto; congruence.
Qed.

Lemma getBestLocalTarget_In
    (validTargets : list GeminiService.TargetCandidate) (msg : string) :
  validTargets <> [] ->
  exists best,
    In best validTargets /\
    GeminiService.targetRow
      (GeminiService.getBestLocalTarget validTargets msg)
    = GeminiService.JNumber
        (GeminiService.Num (inject_Z (GeminiService.row best))) /\
    GeminiService.targetCol
      (GeminiService.getBestLocalTarget validTargets msg)
    = GeminiService.JNumber
        (GeminiService.Num (inject_Z (GeminiService.col best))) /\
    GeminiService.recommendedColor
      (GeminiService.getBestLocalTarget validTargets msg)
    = GeminiService.JString (GeminiService.color best).
Proof.
  intros Hne. destruct validTargets as [|t0 rest]; [contradiction|].
  destruct (GeminiService.Array_sort GeminiService.compareTargets
              (t0 :: rest)) as [|h t] eqn:Es.
  - exfalso.
    assert (Hin : In t0 (GeminiService.Array_sort
                           GeminiService.compareTargets (t0 :: rest)))
      by (apply GeminiServiceFacts.Array_sort_In; now left).
    rewrite Es in Hin. contradiction.
  - unfold GeminiService.getBestLocalTarget. rewrite Es. cbn [hd].
    cbn [GeminiService.targetRow GeminiService.targetCol
         GeminiService.recommendedColor].
    exists h. split; [|auto].
    apply (GeminiServiceFacts.Array_sort_In GeminiService.compareTargets).
    rewrite Es. now left.
Qed.

(** The analysis after a shot, from the cluster search to the hint.  In a
    field with unique ids in which some active bubble has a clear path,
    whenever the service answers from its local fallback the hint aims at an
    active bubble with a clear path, and recommends that bubble's colour. *)
Theorem fallback_aims_at_clear_bubble
    (anchorPos : option Point) (bs : list Bubble) (containerWidth : Q)
    (outcome : GeminiService.ApiOutcome) (b : Bubble) :
  uniqueIds bs ->
  In b bs -> active b = true -> isPathClear anchorPos bs b = true ->
  exists allClusters,
    getAllReachableClusters anchorPos bs containerWidth = Some allClusters /\
    (GeminiService.error
       (GeminiService.getStrategicHint true allClusters outcome) <> None ->
     exists m,
       In m bs /\ active m = true /\
       isPathClear anchorPos bs m = true /\
       GeminiService.targetRow
         (GeminiService.hint
            (GeminiService.getStrategicHint true allClusters outcome))
       = GeminiService.JNumber (GeminiService.Num (inject_Z (row m))) /\
       GeminiService.targetCol
         (GeminiService.hint
            (GeminiService.getStrategicHint true allClusters outcome))
       = GeminiService.JNumber (GeminiService.Num (inject_Z (col m))) /\
       GeminiService.recommendedColor
         (GeminiService.hint
            (GeminiService.getStrategicHint true allClusters outcome))
       = GeminiService.JString (colorName (color m))).
Proof.
  intros Hu Hb Ha Hp.
  destruct (getAllReachableClusters_components anchorPos bs containerWidth Hu)
    as (cs & E & Hall & Hcov).
  exists cs. split; [exact E|]. intros Herr.
  destruct (getStrategicHint_fallback cs outcome Herr) as [msg ->].
  assert (Hne : cs <> []).
  { destruct (Hcov b Hb Ha Hp) as (t & _ & _ & Ht & _).
    intros ->. contradiction. }
  destruct (getBestLocalTarget_In cs msg Hne)
    as (best & Hbest & Hr & Hc & Hk).
  rewrite Forall_forall in Hall.
  destruct (Hall best Hbest) as (m & members & Hm & Hma & Hmp & Hpt & _).
  destruct Hpt as (_ & Hrow & Hcol & Hcolor & _).
  exists m. rewrite Hr, Hc, Hk, Hrow, Hcol, Hcolor. auto 10.
Qed.

End AnyRuntime.

End FallbackFacts.

(** *** What a hit on a candidate pays *)

Lemma Linked_reaches (bs : list Bubble) (shot m : Bubble) (km : nat) :
  nth_error bs km = Some m ->
  Component (bs ++ [shot]) (color m) (length bs) km ->
  forall n,
    Linked (filter active bs) (color m) m n ->
    exists k, nth_error bs k = Some n /\
              Component (bs ++ [shot]) (color m) (length bs) k.
Proof.
  intros Hm Hcm n Hl. induction Hl as [|p n Hp IH Hin Hc Hnb].
  - exists km. auto.
  - destruct IH as (kp & Hkp & Hcp).
    apply filter_In in Hin. destruct Hin as [Hin Ha].
    destruct (In_nth_error _ _ Hin) as [kn Hkn].
    exists kn. split; [exact Hkn|].
    assert (Hkp' : nth_error (bs ++ [shot]) kp = Some p).
    { rewrite nth_error_app1; [exact Hkp|].
      apply nth_error_Some. congruence. }
    assert (Hkn' : nth_error (bs ++ [shot]) kn = Some n).
    { rewrite nth_error_app1; [exact Hkn|].
      apply nth_error_Some. congruence. }
    apply (Component_step _ _ _ kp kn n); auto.
    exists p, n. auto.
Qed.

Lemma references_of (bs : list Bubble) (P : nat -> Prop) :
  forall members,
    NoDup members ->
    (forall n, In n members -> exists k, nth_error bs k = Some n /\ P k) ->
    exists ks,
      NoDup ks /\ length ks = length members /\
      forall k, In k ks ->
                (exists n, In n members /\ nth_error bs k = Some n) /\ P k.
Proof.
  induction members as [|n rest IH]; intros Hnd Hall.
  - exists []. split; [constructor|]. split; [reflexivity|]. intros k [].
  - inversion Hnd as [|? ? Hnot Hnd']; subst.
    destruct (IH Hnd' (fun n' H => Hall n' (or_intror H)))
      as (ks & Hks & Hlen & Hin).
    destruct (Hall n (or_introl eq_refl)) as (k & Hk & HP).
    exists (k :: ks). split; [|split].
    + constructor; [|exact Hks]. intros Hkin.
      destruct (Hin k Hkin) as [(n' & Hn' & Hk') _].
      assert (n' = n) by congruence. subst n'. contradiction.
    + cbn. now rewrite Hlen.
    + intros k' [<-|Hk'].
      * split; [|exact HP]. exists n. split; [now left | exact Hk].
      * destruct (Hin k' Hk') as [(n' & Hn' & Hk'') HP'].
        split; [|exact HP']. exists n'. split; [now right | exact Hk''].
Qed.

Lemma combo_floor_ge (c : BubbleColor) (n : nat) :
  Z.of_nat n * points (COLOR_CONFIG c)
  <= Qfloor (inject_Z (0 + points (COLOR_CONFIG c) * Z.of_nat n)
             * comboMultiplier n).
Proof.
  pose proof (combo_score c n) as E.
  pose proof (points_positive c) as Hp.
  assert (H0 : (0 <= inject_Z (Z.of_nat n * points (COLOR_CONFIG c)))%Q).
  { change 0%Q with (inject_Z 0). rewrite <- Zle_Qle. nia. }
  rewrite Zle_Qle, E.
  set (q := inject_Z (Z.of_nat n * points (COLOR_CONFIG c))) in *.
  destruct (3 <? n)%nat; lra.
Qed.

(** What the pushed state pays, for a cluster reached from the shot. *)
Lemma pushed_shot_pays (pushed : GameState) (bs : list Bubble)
    (shot m : Bubble) (members : list Bubble) :
  bubbles pushed = bs ++ [shot] ->
  uniqueIds (bs ++ [shot]) ->
  In m bs -> active m = true -> color shot = color m ->
  isNeighbor shot m = true ->
  NoDup members ->
  (forall n, In n members -> Linked (filter active bs) (color m) m n) ->
  (2 <= length members)%nat ->
  exists st',
    checkMatches pushed (length bs) = Some (st', true) /\
    score pushed
    + (Z.of_nat (length members) + 1) * points (COLOR_CONFIG (color m))
    <= score st'.
Proof.
  intros Hbs Hu Hm Ha Hcol Hnb Hnd Hmem Hsize.
  assert (Hshot : nth_error (bs ++ [shot]) (length bs) = Some shot).
  { rewrite nth_error_app2, Nat.sub_diag; [reflexivity | lia]. }
  destruct (findMatches_spec (bs ++ [shot]) (length bs) shot Hu Hshot)
    as (ms & Hms & Hmsnd & Hcomp).
  rewrite Hcol in Hcomp.
  destruct (In_nth_error _ _ Hm) as [km Hkm].
  assert (Hkm' : nth_error (bs ++ [shot]) km = Some m).
  { rewrite nth_error_app1; [exact Hkm|]. apply nth_error_Some. congruence. }
  assert (Hcm : Component (bs ++ [shot]) (color m) (length bs) km).
  { apply (Component_step _ _ _ (length bs) km m); auto.
    - apply Component_seed.
    - exists shot, m. auto. }
  destruct (references_of bs
              (Component (bs ++ [shot]) (color m) (length bs)) members Hnd)
    as (ks & Hks & Hlen & Hin).
  { intros n Hn. apply (Linked_reaches bs shot m km Hkm Hcm). now apply Hmem. }
  assert (Hincl : incl (length bs :: ks) ms).
  { intros k [<-|Hk]; apply Hcomp.
    - apply Component_seed.
    - now apply Hin. }
  assert (Hnd' : NoDup (length bs :: ks)).
  { constructor; [|exact Hks]. intros Hk.
    destruct (Hin _ Hk) as [(n & _ & Hn) _].
    assert (length bs < length bs)%nat by (apply nth_error_Some; congruence).
    lia. }
  pose proof (NoDup_incl_length Hnd' Hincl) as Hcount. cbn [length] in Hcount.
  rewrite <- Hbs in Hshot, Hms.
  rewrite (checkMatches_eq pushed (length bs) shot ms Hshot Hms).
  destruct (Nat.leb_spec 3 (length ms)) as [_|Hlt]; [|lia].
  eexists. split; [reflexivity|]. cbn [score]. rewrite Hcol.
  pose proof (combo_floor_ge (color m) (length ms)) as Hfl.
  pose proof (points_positive (color m)) as Hp.
  set (fl := Qfloor _) in *. nia.
Qed.

(** The size the heuristic ranks by is what a hit pays at least.  In a field
    with unique ids, push a bubble of a candidate's colour into a cell next
    to the bubble [m] the candidate aims at, and resolve the matches from it
    as [placeShot] does: when the candidate's cluster has two bubbles or
    more, the cluster is matched, and the score grows by at least
    [size + 1] times the points of the colour. *)
Theorem hit_on_candidate_pays
    (anchorPos : option Point) (containerWidth : Q) (st : GameState)
    (allClusters : list GeminiService.TargetCandidate)
    (t : GeminiService.TargetCandidate) (m shot : Bubble) :
  uniqueIds (bubbles st ++ [shot]) ->
  getAllReachableClusters anchorPos (bubbles st) containerWidth
  = Some allClusters ->
  In t allClusters ->
  In m (bubbles st) -> id m = GeminiService.id t ->
  color shot = color m -> isNeighbor shot m = true ->
  2 <= GeminiService.size t ->
  exists st',
    checkMatches {| bubbles := bubbles st ++ [shot];
                    score := score st;
                    celebrationWord := celebrationWord st |}
                 (length (bubbles st))
    = Some (st', true) /\
    score st
    + (GeminiService.size t + 1) * GeminiService.pointsPerBubble t
    <= score st'.
Proof.
  intros Hu Hrun Ht Hm Hid Hcol Hnb Hsize.
  assert (Hu0 : uniqueIds (bubbles st)).
  { unfold uniqueIds in *. rewrite map_app in Hu.
    now apply NoDup_app_remove_r in Hu. }
  destruct (getAllReachableClusters_components anchorPos (bubbles st)
              containerWidth Hu0) as (cs & E & Hall & _).
  rewrite Hrun in E. injection E as <-.
  rewrite Forall_forall in Hall.
  destruct (Hall t Ht)
    as (m' & members & Hm' & Ha & _ & Hpt & _ & Hnd & Hmem & Hsz & _).
  destruct Hpt as (Hid' & _ & _ & _ & Hpts & _).
  assert (m' = m).
  { apply (ids_inj (bubbles st)); auto. congruence. }
  subst m'. rewrite Hsz, Hpts.
  set (pushed := {| bubbles := bubbles st ++ [shot]; score := score st;
                    celebrationWord := celebrationWord st |}).
  change (score st) with (score pushed).
  apply (pushed_shot_pays pushed (bubbles st) shot m members); auto.
  - intros n Hn. now apply Hmem.
  - lia.
Qed.

(** *** Instances *)

Definition pairField : list Bubble :=
  [ demoBubble "0-1" 0 1 red true; demoBubble "0-0" 0 0 red true ].

Definition pairState : GameState :=
  {| bubbles := pairField; score := 10; celebrationWord := None |}.

Definition pairCandidate : GeminiService.TargetCandidate :=
  {| GeminiService.id := "0-1";
     GeminiService.color := "red";
     GeminiService.size := 2;
     GeminiService.row := 0;
     GeminiService.col := 1;
     GeminiService.pointsPerBubble := 100;
     GeminiService.description := "Left" |}.

Definition pairShot : Bubble := demoBubble "0-2-1730000000000" 0 2 red true.

Lemma pairField_uniqueIds : uniqueIds (pairField ++ [pairShot]).
Proof. unfold uniqueIds. cbn. prove_NoDup. Qed.

Lemma hit_on_candidate_pays_witness :
  exists st',
    checkMatches {| bubbles := bubbles pairState ++ [pairShot];
                    score := score pairState;
                    celebrationWord := celebrationWord pairState |}
                 (length (bubbles pairState))
    = Some (st', true) /\
    score pairState
    + (GeminiService.size pairCandidate + 1)
      * GeminiService.pointsPerBubble pairCandidate
    <= score st'.
Proof.
  apply (hit_on_candidate_pays (Some origin) 1000 pairState [pairCandidate]
           pairCandidate (demoBubble "0-1" 0 1 red true) pairShot).
  - exact pairField_uniqueIds.
  - vm_compute. reflexivity.
  - now left.
  - now left.
  - reflexivity.
  - reflexivity.
  - reflexivity.
  - cbn. lia.
Defined.

Lemma getAllReachableClusters_cluster_witness :
  exists m members,
    pointsAt 1000 pairCandidate m /\
    In m members /\ NoDup members /\
    (forall n, In n members <->
               Linked (filter active pairField) (color m) m n) /\
    GeminiService.size pairCandidate = Z.of_nat (length members) /\
    (forall n, In n members -> isPathClear (Some origin) pairField n = true ->
               (y n <= y m)%Q).
Proof.
  apply (getAllReachableClusters_cluster (Some origin) pairField 1000
           [pairCandidate] pairCandidate).
  - unfold uniqueIds. cbn. prove_NoDup.
  - vm_compute. reflexivity.
  - now left.
Defined.

Lemma getAllReachableClusters_complete_witness :
  exists allClusters t m,
    getAllReachableClusters (Some origin) demoField 1000 = Some allClusters /\
    In t allClusters /\ pointsAt 1000 t m /\
    color m = color (demoBubble "1-1" 1 1 red true) /\
    Linked (filter active demoField)
           (color (demoBubble "1-1" 1 1 red true)) m
           (demoBubble "1-1" 1 1 red true).
Proof.
  apply (getAllReachableClusters_complete (Some origin) demoField 1000
           (demoBubble "1-1" 1 1 red true)).
  - exact demoField_uniqueIds.
  - cbn. auto 10.
  - reflexivity.
  - vm_compute. reflexivity.
Defined.

Lemma fallback_aims_at_clear_bubble_witness :
  exists allClusters,
    getAllReachableClusters (Some origin) demoField 1000 = Some allClusters /\
    (GeminiService.error
       (GeminiService.getStrategicHint
          (rt := GeminiServiceFacts.plainRuntime) true allClusters
          GeminiService.ApiRejects) <> None ->
     exists m,
       In m demoField /\ active m = true /\
       isPathClear (Some origin) demoField m = true /\
       GeminiService.targetRow
         (GeminiService.hint
            (GeminiService.getStrategicHint
               (rt := GeminiServiceFacts.plainRuntime) true allClusters
               GeminiService.ApiRejects))
       = GeminiService.JNumber (GeminiService.Num (inject_Z (row m))) /\
       GeminiService.targetCol
         (GeminiService.hint
            (GeminiService.getStrategicHint
               (rt := GeminiServiceFacts.plainRuntime) true allClusters
               GeminiService.ApiRejects))
       = GeminiService.JNumber (GeminiService.Num (inject_Z (col m))) /\
       GeminiService.recommendedColor
         (GeminiService.hint
            (GeminiService.getStrategicHint
               (rt := GeminiServiceFacts.plainRuntime) true allClusters
               GeminiService.ApiRejects))
       = GeminiService.JString (colorName (color m))).
Proof.
  apply (FallbackFacts.fallback_aims_at_clear_bubble
           (rt := GeminiServiceFacts.plainRuntime)
           (Some origin) demoField 1000 GeminiService.ApiRejects
           (demoBubble "1-1" 1 1 red true)).
  - exact demoField_uniqueIds.
  - cbn. auto 10.
  - reflexivity.
  - vm_compute. reflexivity.
Defined.

(** ** The field over a run of shots *)

(** *** Bubble ids *)

Fixpoint hasDash (s : string) : bool :=
  match s with
  | EmptyString => false
  | String c s' => Ascii.eqb c "-" || hasDash s'
  end.

Lemma hasDash_app (a b : string) :
  hasDash (a ++ b) = hasDash a || hasDash b.
Proof.
  induction a as [|c a IH]; cbn; [reflexivity|].
  now rewrite IH, orb_assoc.
Qed.

Lemma hasDash_digits (d : Decimal.uint) :
  hasDash (NilEmpty.string_of_uint d) = false.
Proof. induction d; cbn; auto. Qed.

Lemma hasDash_string_of_Z (n : Z) : 0 <= n -> hasDash (string_of_Z n) = false.
Proof.
  intros Hn. unfold string_of_Z. destruct n as [|p|p]; [reflexivity| |lia].
  cbn. unfold NilZero.string_of_uint.
  destruct (Pos.to_uint p) eqn:E; try reflexivity;
    rewrite <- ?E; cbn; apply hasDash_digits.
Qed.

Lemma string_of_Z_inj (a b : Z) : string_of_Z a = string_of_Z b -> a = b.
Proof.
  unfold string_of_Z. intros H. apply DecimalZ.to_int_inj.
  assert (Hn : forall z, Z.to_int z <> Decimal.Pos Decimal.Nil /\
                         Z.to_int z <> Decimal.Neg Decimal.Nil).
  { intros [|p|p]; cbn; split; try discriminate;
      intros [= E]; now apply (DecimalPos.Unsigned.to_uint_nonnil p). }
  pose proof (NilZero.isi (Z.to_int a) (proj1 (Hn a)) (proj2 (Hn a))) as Ha.
  pose proof (NilZero.isi (Z.to_int b) (proj1 (Hn b)) (proj2 (Hn b))) as Hb.
  rewrite H in Ha. congruence.
Qed.

(** A string is cut at its first dash in one way only. *)
Lemma first_dash_inj (a a' x x' : string) :
  hasDash a = false -> hasDash a' = false ->
  (a ++ "-" ++ x = a' ++ "-" ++ x')%string ->
  a = a' /\ x = x'.
Proof.
  revert a'. induction a as [|c a IH]; intros [|c' a'] Ha Ha' E; cbn in *.
  - injection E as E. auto.
  - injection E as Ec E. subst c'. discriminate Ha'.
  - injection E as Ec E. subst c. discriminate Ha.
  - injection E as Ec E. subst c'.
    apply orb_false_iff in Ha, Ha'.
    destruct (IH a' (proj2 Ha) (proj2 Ha') E) as [-> ->]. auto.
Qed.

(** The id of a bubble of the initial grid and of a bubble shot at [t]. *)
Definition gridId (r c : Z) : string :=
  string_of_Z r ++ "-" ++ string_of_Z c.

Definition shotId (r c t : Z) : string :=
  string_of_Z r ++ "-" ++ string_of_Z c ++ "-" ++ string_of_Z t.

Lemma shotId_gridId (r c t r' c' : Z) :
  0 <= r -> 0 <= r' -> 0 <= c' -> shotId r c t <> gridId r' c'.
Proof.
  intros Hr Hr' Hc' E. unfold shotId, gridId in E.
  apply first_dash_inj in E; try now apply hasDash_string_of_Z.
  destruct E as [_ E].
  assert (H : hasDash (string_of_Z c') = true).
  { rewrite <- E, hasDash_app. cbn. apply orb_true_r. }
  rewrite hasDash_string_of_Z in H; [discriminate | exact Hc'].
Qed.

Lemma shotId_stamp (r c t r' c' t' : Z) :
  0 <= r -> 0 <= r' -> 0 <= c -> 0 <= c' ->
  shotId r c t = shotId r' c' t' -> t = t'.
Proof.
  intros Hr Hr' Hc Hc' E. unfold shotId in E.
  apply first_dash_inj in E; try now apply hasDash_string_of_Z.
  destruct E as [_ E].
  apply first_dash_inj in E; try now apply hasDash_string_of_Z.
  destruct E as [_ E]. now apply string_of_Z_inj.
Qed.

(** *** The well-formed field *)

(** The bubble sits at a cell of the rows the snap scans, at the position
    that cell has at one of the canvas widths [widths], and is named as a
    bubble of the grid or as a shot before [now]. *)
Definition placed (rh : Q) (widths : list Q) (now : Z) (b : Bubble) : Prop :=
  (0 <= row b < GRID_ROWS + 5 /\ 0 <= col b < colsInRow (row b)) /\
  (exists w, In w widths /\
             x b = px (getBubblePos rh (row b) (col b) w) /\
             y b = py (getBubblePos rh (row b) (col b) w)) /\
  (id b = gridId (row b) (col b) \/
   exists t, 0 <= t < now /\ id b = shotId (row b) (col b) t).

Record FieldOk (rh : Q) (widths : list Q) (now : Z) (bs : list Bubble)
    : Prop := {
  ok_ids : uniqueIds bs;
  ok_cells : noOverlap bs;
  ok_placed : Forall (placed rh widths now) bs
}.

(** What the array was is still there, but for bubbles made inactive. *)
Definition onlyDeactivated (before after : list Bubble) : Prop :=
  forall k b,
    nth_error before k = Some b ->
    nth_error after k = Some b \/ nth_error after k = Some (setInactive b).

Lemma placed_later (rh : Q) (widths widths' : list Q) (now now' : Z)
    (b : Bubble) :
  incl widths widths' -> now <= now' ->
  placed rh widths now b -> placed rh widths' now' b.
Proof.
  intros Hw Hle (Hc & (w & Hin & Hx & Hy) & Hid).
  split; [exact Hc|]. split; [exists w; auto|].
  destruct Hid as [Hid|[t [Ht Hid]]]; [now left | right].
  exists t. split; [lia | exact Hid].
Qed.

Lemma placed_setInactive (rh : Q) (widths : list Q) (now : Z) (b : Bubble) :
  placed rh widths now b -> placed rh widths now (setInactive b).
Proof. intros H. exact H. Qed.

Lemma deactivateAll_ids (ms : list nat) :
  forall bs,
    map id (fold_left (fun acc k => deactivateAt k acc) ms bs) = map id bs.
Proof.
  assert (H1 : forall k bs, map id (deactivateAt k bs) = map id bs).
  { induction k as [|k IH]; intros [|b bs]; cbn; try reflexivity.
    now rewrite IH. }
  induction ms as [|k ms IH]; intros bs; cbn; [reflexivity|].
  now rewrite IH, H1.
Qed.

Lemma deactivateAll_Forall (P : Bubble -> Prop) (ms : list nat) :
  (forall b, P b -> P (setInactive b)) ->
  forall bs,
    Forall P bs ->
    Forall P (fold_left (fun acc k => deactivateAt k acc) ms bs).
Proof.
  intros HP.
  assert (H1 : forall k bs, Forall P bs -> Forall P (deactivateAt k bs)).
  { induction k as [|k IH]; intros [|b bs] H; cbn; auto;
      inversion H; subst; constructor; auto. }
  induction ms as [|k ms IH]; intros bs H; cbn; auto.
Qed.

Lemma deactivateAll_onlyDeactivated (ms : list nat) (bs : list Bubble) :
  onlyDeactivated bs (fold_left (fun acc k => deactivateAt k acc) ms bs).
Proof.
  intros k b Hk. rewrite nth_error_deactivateAll, Hk.
  destruct (existsb (Nat.eqb k) ms); cbn; auto.
Qed.

Lemma onlyDeactivated_trans (l1 l2 l3 : list Bubble) :
  onlyDeactivated l1 l2 -> onlyDeactivated l2 l3 -> onlyDeactivated l1 l3.
Proof.
  intros H12 H23 k b Hk.
  destruct (H12 k b Hk) as [H|H]; destruct (H23 _ _ H) as [H'|H']; auto.
Qed.

(** Fewer bubbles than cells leave a cell free. *)
Lemma free_cell (bs : list Bubble) :
  (length bs < 171)%nat ->
  exists r c, In (r, c) scanCells /\ occupied bs r c = false.
Proof.
  intros Hlen.
  assert (Hw : forall l : list (Z * Z),
             (forall rc, In rc l -> occupied bs (fst rc) (snd rc) = true) \/
             exists rc, In rc l /\ occupied bs (fst rc) (snd rc) = false).
  { induction l as [|rc l [IH|[rc' [Hin Hf]]]].
    - left. intros rc [].
    - destruct (occupied bs (fst rc) (snd rc)) eqn:E.
      + left. intros rc' [<-|H]; auto.
      + right. exists rc. split; [now left | exact E].
    - right. exists rc'. split; [now right | exact Hf]. }
  destruct (Hw scanCells) as [Hall|[[r c] [Hin Hf]]]; [|eauto].
  exfalso.
  assert (Hincl : incl scanCells (map cell (filter active bs))).
  { intros [r c] Hin. apply occupied_In. exact (Hall (r, c) Hin). }
  assert (Hnd : NoDup scanCells)
    by (apply distinctCells_NoDup; vm_compute; reflexivity).
  pose proof (NoDup_incl_length Hnd Hincl) as Hcount.
  rewrite length_map in Hcount.
  pose proof (filter_length_le active bs).
  assert (E : length scanCells = 171%nat) by (vm_compute; reflexivity).
  lia.
Qed.

(** The bubble of the shot at [t], stored at the end of the array before the
    shot: it has the selected colour, the id of a shot at [t], and the
    position its cell has at the canvas width [w]. *)
Definition shotStored (rh w : Q) (t : Z) (k : BubbleColor)
    (before after : list Bubble) : Prop :=
  exists nb,
    nth_error after (length before) = Some nb /\
    color nb = k /\
    id nb = shotId (row nb) (col nb) t /\
    x nb = px (getBubblePos rh (row nb) (col nb) w) /\
    y nb = py (getBubblePos rh (row nb) (col nb) w).

(** Pushing the bubble of a shot at a free cell of the scan and resolving
    matches from it. *)
Lemma pushAndResolve_keeps_field (rh w : Q) (widths : list Q) (best : Best)
    (t : Z) (k : BubbleColor) (st : GameState) :
  FieldOk rh widths t (bubbles st) ->
  0 <= t ->
  In (bestRow best, bestCol best) scanCells ->
  occupied (bubbles st) (bestRow best) (bestCol best) = false ->
  bestX best = px (getBubblePos rh (bestRow best) (bestCol best) w) ->
  bestY best = py (getBubblePos rh (bestRow best) (bestCol best) w) ->
  exists st',
    option_map fst
      (checkMatches {| bubbles := bubbles st ++ [newBubbleAt best t k];
                       score := score st;
                       celebrationWord := celebrationWord st |}
                    (length (bubbles st))) = Some st' /\
    FieldOk rh (w :: widths) (t + 1) (bubbles st') /\
    length (bubbles st') = S (length (bubbles st)) /\
    onlyDeactivated (bubbles st) (bubbles st') /\
    shotStored rh w t k (bubbles st) (bubbles st').
Proof.
  intros [Hids Hcells Hpl] Ht Hin Hfree Hx Hy.
  apply scanCells_In in Hin.
  set (nb := newBubbleAt best t k).
  set (pushed := {| bubbles := bubbles st ++ [nb]; score := score st;
                    celebrationWord := celebrationWord st |}).
  assert (Hlen : length (bubbles pushed) = S (length (bubbles st)))
    by (unfold pushed, bubbles at 1; rewrite length_app; cbn [length]; lia).
  assert (Hnb : placed rh (w :: widths) (t + 1) nb).
  { unfold placed, nb, newBubbleAt. cbn [row col x y id].
    split; [exact Hin|]. split.
    - exists w. split; [now left | auto].
    - right. exists t. split; [lia | reflexivity]. }
  assert (Hpl' : Forall (placed rh (w :: widths) (t + 1)) (bubbles pushed)).
  { unfold pushed, bubbles at 1. apply Forall_app. split.
    - eapply Forall_impl; [|exact Hpl].
      intros b. apply placed_later; [apply incl_tl, incl_refl | lia].
    - constructor; [exact Hnb | constructor]. }
  assert (Hids' : uniqueIds (bubbles pushed)).
  { unfold uniqueIds, pushed, bubbles at 1. rewrite map_app.
    apply NoDup_append; [exact Hids | repeat constructor; intros [] |].
    intros s Hs [<-|[]]. apply in_map_iff in Hs.
    destruct Hs as [b [Hid Hb]].
    rewrite Forall_forall in Hpl.
    destruct (Hpl b Hb) as ((Hr & Hc) & _ & Hname).
    unfold nb, newBubbleAt in Hid. cbn [id] in Hid.
    fold (shotId (bestRow best) (bestCol best) t) in Hid.
    destruct Hname as [Hg|[t' [Ht' Hs']]].
    - rewrite Hg in Hid. symmetry in Hid.
      revert Hid. apply shotId_gridId; lia.
    - rewrite Hs' in Hid. apply shotId_stamp in Hid; lia. }
  assert (Hcells' : noOverlap (bubbles pushed)).
  { unfold pushed, bubbles at 1. apply noOverlap_push; [exact Hcells|].
    exact Hfree. }
  destruct (checkMatches_total pushed (length (bubbles st)) ltac:(lia))
    as (st' & r & H).
  destruct (checkMatches_bubbles _ _ _ _ H) as [ms Hms].
  pose proof (deactivateAll_onlyDeactivated ms (bubbles pushed)) as Hkeep.
  rewrite <- Hms in Hkeep.
  fold nb. fold pushed. rewrite H. cbn [option_map fst].
  exists st'. split; [reflexivity|]. split; [split|split; [|split]].
  - unfold uniqueIds. rewrite Hms, deactivateAll_ids. exact Hids'.
  - eapply checkMatches_noOverlap; eauto.
  - rewrite Hms. apply deactivateAll_Forall; [|exact Hpl'].
    intros b Hb. exact Hb.
  - rewrite Hms, length_deactivateAll. exact Hlen.
  - intros j b Hj. apply Hkeep. unfold pushed, bubbles at 1.
    rewrite nth_error_app1; [exact Hj|]. apply nth_error_Some. congruence.
  - assert (Hlast : nth_error (bubbles pushed) (length (bubbles st)) = Some nb).
    { unfold pushed, bubbles at 1.
      rewrite nth_error_app2, Nat.sub_diag; [reflexivity | lia]. }
    assert (Hfacts : forall b, b = nb \/ b = setInactive nb ->
              color b = k /\
              id b = shotId (row b) (col b) t /\
              x b = px (getBubblePos rh (row b) (col b) w) /\
              y b = py (getBubblePos rh (row b) (col b) w)).
    { intros b [->| ->]; unfold nb, newBubbleAt, setInactive;
        cbn [color id row col x y]; auto. }
    destruct (Hkeep _ _ Hlast) as [E|E]; eexists; (split; [exact E|]);
      apply Hfacts; auto.
Qed.

Lemma placeShot_keeps_field_step
    (rh w : Q) (widths : list Q) (t : Z) (k : BubbleColor) (ball : Point)
    (st : GameState) :
  FieldOk rh widths t (bubbles st) ->
  0 <= t ->
  (length (bubbles st) < 171)%nat ->
  exists st',
    placeShot rh w t k ball st = Some st' /\
    FieldOk rh (w :: widths) (t + 1) (bubbles st') /\
    length (bubbles st') = S (length (bubbles st)) /\
    onlyDeactivated (bubbles st) (bubbles st') /\
    shotStored rh w t k (bubbles st) (bubbles st').
Proof.
  intros Hok Ht Hlen.
  destruct (free_cell (bubbles st) Hlen) as (r0 & c0 & Hin0 & Hfree0).
  pose proof (ScanInv_result rh w (bubbles st) ball
                (nearestEmptyCell rh w (bubbles st) ball) r0 c0
                (nearestEmptyCell_ScanInv rh w (bubbles st) ball)
                Hin0 Hfree0)
    as (Hin & Hfree & Hx & Hy & _).
  exact (pushAndResolve_keeps_field rh w widths
           (nearestEmptyCell rh w (bubbles st) ball) t k st
           Hok Ht Hin Hfree Hx Hy).
Qed.


(** *** Runs *)

(** A collision of the ball: when, on a canvas of which width (the frame
    handler reads the width of the container anew in every frame), with
    which colour selected, and where. *)
Record Shot := {
  stamp : Z;
  canvasWidth : Q;
  shotColor : BubbleColor;
  impact : Point
}.

(** The collisions of a run, resolved in order, each at the canvas width of
    its frame. *)
Fixpoint playShots (rh : Q) (shots : list Shot) (st : GameState)
    : option GameState :=
  match shots with
  | [] => Some st
  | s :: rest =>
    match placeShot rh (canvasWidth s) (stamp s) (shotColor s) (impact s) st
    with
    | None => None
    | Some st' => playShots rh rest st'
    end
  end.

(** The clock advances from one collision to the next: every stamp is
    greater than the one before it, and the first is at least [now]. *)
Fixpoint increasing (now : Z) (shots : list Shot) : Prop :=
  match shots with
  | [] => True
  | s :: rest => now <= stamp s /\ increasing (stamp s + 1) rest
  end.

Lemma FieldOk_later (rh : Q) (widths widths' : list Q) (now now' : Z)
    (bs : list Bubble) :
  incl widths widths' -> now <= now' ->
  FieldOk rh widths now bs -> FieldOk rh widths' now' bs.
Proof.
  intros Hw Hle [Hids Hcells Hpl]. split; auto.
  eapply Forall_impl; [|exact Hpl]. intros b. now apply placed_later.
Qed.

Lemma playShots_keeps_field (rh : Q) (shots : list Shot) :
  forall widths now st,
    FieldOk rh widths now (bubbles st) ->
    0 <= now -> increasing now shots ->
    (length (bubbles st) + length shots <= 171)%nat ->
    exists st' now',
      playShots rh shots st = Some st' /\
      FieldOk rh (widths ++ map canvasWidth shots) now' (bubbles st') /\
      length (bubbles st') = (length (bubbles st) + length shots)%nat /\
      onlyDeactivated (bubbles st) (bubbles st').
Proof.
  induction shots as [|s rest IH]; intros widths now st Hok Hnow Hinc Hlen.
  - exists st, now. cbn. rewrite app_nil_r.
    split; [reflexivity|]. split; [exact Hok|]. split; [lia|].
    intros k b Hk. now left.
  - cbn [playShots]. destruct Hinc as [Hs Hinc]. cbn [length] in Hlen.
    assert (Hok0 : FieldOk rh widths (stamp s) (bubbles st))
      by (apply (FieldOk_later rh widths widths now); auto using incl_refl).
    destruct (placeShot_keeps_field_step rh (canvasWidth s) widths (stamp s)
                (shotColor s) (impact s) st Hok0 ltac:(lia) ltac:(lia))
      as (st1 & E1 & Hok1 & Hlen1 & Hkeep1 & _).
    rewrite E1.
    destruct (IH (canvasWidth s :: widths) (stamp s + 1) st1 Hok1
                 ltac:(lia) Hinc ltac:(lia))
      as (st' & now' & E & Hok' & Hlen' & Hkeep').
    exists st', now'. split; [exact E|]. split; [|split].
    + apply (FieldOk_later rh
               ((canvasWidth s :: widths) ++ map canvasWidth rest)
               _ now' now'); [|lia|exact Hok'].
      intros w Hw. cbn [map]. apply in_app_iff.
      apply in_app_iff in Hw. cbn in Hw. cbn. tauto.
    + cbn [length]. lia.
    + exact (onlyDeactivated_trans _ _ _ Hkeep1 Hkeep').
Qed.

Lemma initGrid_FieldOk (rh w : Q) (rnd : nat -> Q) (n : nat) :
  FieldOk rh [w] 0 (fst (initGrid rh w rnd n)).
Proof.
  split; [apply initGrid_uniqueIds | apply initGrid_noOverlap |].
  eapply Forall_impl; [|apply initGrid_fresh].
  intros b (Hr & Hc & _ & Eb). unfold placed.
  split; [unfold GRID_ROWS in *; lia|]. split.
  - exists w. split; [now left|].
    split; now rewrite Eb at 1.
  - left. now rewrite Eb at 1.
Qed.

(** The game from its first grid on.  Whatever the random draws of
    [initGrid] and whatever the width of the canvas in each frame, the first
    78 collisions of a run, at times of which each is greater than the one
    before, all land.  They leave a field in which ids are unique, no two
    active bubbles share a cell, and every bubble sits at a cell of rows 0
    to 10, at the position that cell has at the width of the grid or of one
    of the collisions.  The array has grown by one bubble per collision, and
    the bubbles of the grid are still there, but for those made inactive:
    no bubble is ever removed. *)
Theorem initGrid_then_shots
    (rh w : Q) (rnd : nat -> Q) (n : nat) (shots : list Shot) :
  increasing 0 shots ->
  (length shots <= 78)%nat ->
  exists st',
    playShots rh shots
      {| bubbles := fst (initGrid rh w rnd n); score := 0;
         celebrationWord := None |}
    = Some st' /\
    uniqueIds (bubbles st') /\
    noOverlap (bubbles st') /\
    (forall b, In b (bubbles st') ->
       (0 <= row b < GRID_ROWS + 5 /\ 0 <= col b < colsInRow (row b)) /\
       exists w', In w' (w :: map canvasWidth shots) /\
                  x b = px (getBubblePos rh (row b) (col b) w') /\
                  y b = py (getBubblePos rh (row b) (col b) w')) /\
    length (bubbles st')
    = (length (fst (initGrid rh w rnd n)) + length shots)%nat /\
    onlyDeactivated (fst (initGrid rh w rnd n)) (bubbles st').
Proof.
  intros Hinc Hlen.
  set (st := {| bubbles := fst (initGrid rh w rnd n); score := 0;
                celebrationWord := None |}).
  pose proof (initGrid_length rh w rnd n) as Hgrid.
  destruct (playShots_keeps_field rh shots [w] 0 st
              (initGrid_FieldOk rh w rnd n) ltac:(lia) Hinc)
    as (st' & now' & E & [Hids Hcells Hpl] & Hl & Hkeep).
  { unfold st, bubbles at 1. lia. }
  exists st'. split; [exact E|]. split; [exact Hids|].
  split; [exact Hcells|]. split; [|split; [exact Hl | exact Hkeep]].
  intros b Hb. rewrite Forall_forall in Hpl.
  destruct (Hpl b Hb) as (Hc & Hpos & _). auto.
Qed.

Definition demoShot : Shot :=
  {| stamp := 1730000000000; canvasWidth := 1344; shotColor := red;
     impact := {| px := 500; py := 300 |} |}.

Definition demoGrid : list Bubble :=
  fst (initGrid 62 1200 (fun _ => 1 # 2) 0%nat).

Lemma initGrid_then_shots_witness :
  exists st',
    playShots 62 [demoShot]
      {| bubbles := demoGrid; score := 0; celebrationWord := None |}
    = Some st' /\
    uniqueIds (bubbles st') /\
    noOverlap (bubbles st') /\
    (forall b, In b (bubbles st') ->
       (0 <= row b < GRID_ROWS + 5 /\ 0 <= col b < colsInRow (row b)) /\
       exists w', In w' (1200%Q :: map canvasWidth [demoShot]) /\
                  x b = px (getBubblePos 62 (row b) (col b) w') /\
                  y b = py (getBubblePos 62 (row b) (col b) w')) /\
    length (bubbles st') = (length demoGrid + length [demoShot])%nat /\
    onlyDeactivated demoGrid (bubbles st').
Proof.
  apply (initGrid_then_shots 62 1200 (fun _ => 1 # 2) 0%nat [demoShot]).
  - cbn. lia.
  - cbn. lia.
Defined.


